(** * sham3js: the deterministic random-generation core

    A shallow embedding of the two leaf components of sham3js that carry
    bit-level requirements, and of their two callers:

    - [core/keccak.ts]: Keccak-256 over [bigint] lanes, and the EIP-55
      casing built on it in [modules/address.ts];
    - [core/prng.ts]: the Mulberry32 engine and its samplers, and the
      candle generator of [modules/dex.ts] that consumes it.

    Conventions of the embedding.
    - A [bigint] is a [Z].  A [number] that holds an integer is a [Z] and the
      32-bit conversions of the bitwise operators are written out; its
      arithmetic is exact, as double arithmetic is on integers while every
      intermediate result fits 53 bits, and a statement about an arbitrary
      integer argument says where that is.  The value of [next ()], a
      multiple of [2^-32] below 1, is a [Q].
    - A [number] that may hold a fraction is a [JS.number]: a rational for
      a finite double, the negative zero, an infinity or NaN.  Comparisons,
      [Math.max], [Math.min] and [Math.abs] are exact on doubles and are
      defined; the operations that round ([+], [-], [*], [/], and the
      functions of [Math]) are an argument of the samplers that call them,
      so that what is proved holds for IEEE arithmetic.  A decimal literal
      stands for the double nearest to it.
    - A [Uint8Array] is a [list Z] whose stores keep the low eight bits.
    - An [Array<T>] is a [list (option T)], [None] being [undefined]; an
      array that a method receives by reference and mutates, or returns,
      lives in a heap of references.
    - A method that mutates [this] is a function in a state-and-exception
      monad; a loop over a counter is a fold over the counter values. *)

From Stdlib Require Import ZArith QArith Qround Qabs Ascii String List Lia.
From Stdlib Require Import Lqa.
From Stdlib Require PrimFloat Uint63.
From stdpp Require Import base list gmap strings.

Local Open Scope Z_scope.

(** ** JavaScript primitives *)

Module JS.

(** [ToInt32] and [ToUint32] of ECMA-262 on an integral number. *)
Definition ToInt32 (x : Z) : Z := (x + 2 ^ 31) mod 2 ^ 32 - 2 ^ 31.
Definition ToUint32 (x : Z) : Z := x mod 2 ^ 32.

(** [a | b], [a ^ b] on numbers: both operands go through [ToInt32]. *)
Definition bitor (a b : Z) : Z := Z.lor (ToInt32 a) (ToInt32 b).
Definition bitxor (a b : Z) : Z := Z.lxor (ToInt32 a) (ToInt32 b).

(** [a >>> n]: the left operand goes through [ToUint32], the shift count is
    taken modulo 32. *)
Definition ushr (a n : Z) : Z := Z.shiftr (ToUint32 a) (n mod 32).

(** [Math.imul(a, b)]. *)
Definition imul (a b : Z) : Z := ToInt32 (ToUint32 a * ToUint32 b).

(** Thrown exceptions.  The modelled sources contain no [throw]; the only
    exception they can raise is the engine's own [TypeError]. *)
Inductive exn : Type := TypeError.

Inductive outcome (A : Type) : Type :=
| Returned (a : A)
| Thrown (e : exn).
Arguments Returned {A} a.
Arguments Thrown {A} e.

(** A [number] that may hold a fraction: a double.  A finite value is
    given by the rational it denotes, and the negative zero, the two
    infinities and NaN stand beside the finite values. *)
Inductive number : Type :=
| Fin (q : Q)
| NegZero
| Infinity (negative : bool)
| NaN.

Definition isNaN (x : number) : bool :=
  match x with
  | NaN => true
  | _ => false
  end.

(** The value of a finite number; both zeros have the value 0. *)
Definition valueOf (x : number) : Q :=
  match x with
  | Fin q => q
  | _ => 0%Q
  end.

(** [a <= b] and [a < b]: exact on doubles, and false when an operand is
    NaN. *)
Definition lessEq (a b : number) : bool :=
  match a, b with
  | NaN, _ | _, NaN => false
  | Infinity s, Infinity s' => implb s' s
  | Infinity s, _ => s
  | _, Infinity s' => negb s'
  | _, _ => Qle_bool (valueOf a) (valueOf b)
  end.

Definition lessThan (a b : number) : bool :=
  lessEq a b && negb (lessEq b a).

(** [Math.max (a, b)] and [Math.min (a, b)]: NaN when an operand is NaN;
    [+0] counts as larger than [-0]. *)
Definition mathMax (a b : number) : number :=
  if isNaN a || isNaN b then NaN
  else if lessThan a b then b
  else if lessThan b a then a
  else match a with
       | NegZero => b
       | _ => a
       end.

Definition mathMin (a b : number) : number :=
  if isNaN a || isNaN b then NaN
  else if lessThan a b then a
  else if lessThan b a then b
  else match a with
       | NegZero => a
       | _ => b
       end.

(** [Math.abs (x)]. *)
Definition mathAbs (x : number) : number :=
  match x with
  | Fin q => Fin (Qabs q)
  | NegZero => Fin 0
  | Infinity _ => Infinity false
  | NaN => NaN
  end.

(** Reading [arr[i]] of an [Array<T>]: [undefined] outside the array. *)
Definition aget {T} (arr : list (option T)) (i : Z) : option T :=
  if i <? 0 then None else mjoin (arr !! Z.to_nat i).

(** The store [arr[i] = v]: in range it overwrites, past the end it extends
    the array with holes, and a negative index names an ordinary property,
    which leaves the elements alone. *)
Definition aset {T} (arr : list (option T)) (i : Z) (v : option T)
  : list (option T) :=
  if i <? 0 then arr
  else if i <? Z.of_nat (length arr) then <[Z.to_nat i := v]> arr
  else arr ++ replicate (Z.to_nat i - length arr) None ++ [v].


(** A [Uint8Array]: reads, and stores that keep the low eight bits and
    ignore an index outside the buffer. *)
Definition u8get (buf : list Z) (i : nat) : Z := nth i buf 0.
Definition u8set (buf : list Z) (i : nat) (v : Z) : list Z :=
  <[i := v mod 256]> buf.

(** [n.toString(16)] for a non-negative integer [n]. *)
Definition hexdigit (d : Z) : ascii :=
  if d <? 10 then ascii_of_nat (Z.to_nat (48 + d))
  else ascii_of_nat (Z.to_nat (87 + d)).

Fixpoint toString16_aux (fuel : nat) (n : Z) (acc : string) : string :=
  let acc' := String (hexdigit (n mod 16)) acc in
  match fuel with
  | O => acc'
  | S fuel' => if n / 16 =? 0 then acc' else toString16_aux fuel' (n / 16) acc'
  end.

Definition toString16 (n : Z) : string :=
  toString16_aux (Z.to_nat (Z.log2 n)) n EmptyString.

(** [s.padStart(2, '0')]. *)
Definition padStart2 (s : string) : string :=
  match String.length s with
  | O => "00" ++ s
  | S O => "0" ++ s
  | _ => s
  end%string.

(** [b.toString(16).padStart(2, '0')], the per-byte encoder used by every
    hex dump in the sources. *)
Definition hex2 (b : Z) : string := padStart2 (toString16 b).

(** [Array.from(bytes).map(hex2).join('')]. *)
Definition hexOfBytes (bytes : list Z) : string :=
  fold_right (fun b s => (hex2 b ++ s)%string) EmptyString bytes.

(** [new TextEncoder().encode(s)] on a string of ASCII characters. *)
Definition encodeAscii (s : string) : list Z :=
  map (fun c => Z.of_nat (nat_of_ascii c)) (list_ascii_of_string s).

(** [parseInt(c, 16)] on one character; [None] stands for NaN. *)
Definition parseHexDigit (c : ascii) : option Z :=
  let n := Z.of_nat (nat_of_ascii c) in
  if (48 <=? n) && (n <=? 57) then Some (n - 48)
  else if (97 <=? n) && (n <=? 102) then Some (n - 87)
  else if (65 <=? n) && (n <=? 70) then Some (n - 55)
  else None.

(** [c.toUpperCase()] on one ASCII character. *)
Definition toUpperCase (c : ascii) : ascii :=
  let n := nat_of_ascii c in
  if ((97 <=? n) && (n <=? 122))%nat then ascii_of_nat (n - 32) else c.

End JS.

(** ** core/keccak.ts *)

Module Keccak.
Import JS.

Definition RC : list Z :=
  [ 0x0000000000000001; 0x0000000000008082; 0x800000000000808a;
    0x8000000080008000; 0x000000000000808b; 0x0000000080000001;
    0x8000000080008081; 0x8000000000008009; 0x000000000000008a;
    0x0000000000000088; 0x0000000080008009; 0x000000008000000a;
    0x000000008000808b; 0x800000000000008b; 0x8000000000008089;
    0x8000000000008003; 0x8000000000008002; 0x8000000000000080;
    0x000000000000800a; 0x800000008000000a; 0x8000000080008081;
    0x8000000000008080; 0x0000000080000001; 0x8000000080008008 ].

Definition ROTC : list Z :=
  [ 1; 3; 6; 10; 15; 21; 28; 36; 45; 55; 2; 14;
    27; 41; 56; 8; 25; 43; 62; 18; 39; 61; 20; 44 ].

Definition PI : list nat :=
  [ 10; 7; 11; 17; 18; 3; 5; 16; 8; 21; 24; 4;
    15; 23; 19; 13; 12; 2; 20; 14; 22; 9; 6; 1 ]%nat.

(** [state[i]] of a [bigint[]].  The permutation state always holds 25
    lanes ([keccakF_length] below), so no read here is out of range. *)
Definition lane (st : list Z) (i : nat) : Z := nth i st 0.

Definition rotl64 (x n : Z) : Z :=
  Z.land (Z.lor (Z.shiftl x n) (Z.shiftr x (64 - n))) 0xffffffffffffffff.

(** Theta: the column parities [C], then [state[x + y] ^= D]. *)
Definition thetaC (st : list Z) : list Z :=
  map (fun x =>
         Z.lxor (Z.lxor (Z.lxor (Z.lxor (lane st x) (lane st (x + 5)))
                                (lane st (x + 10)))
                        (lane st (x + 15)))
                (lane st (x + 20)))
      (seq 0 5).

Definition thetaD (C : list Z) (x : nat) : Z :=
  Z.lxor (lane C ((x + 4) mod 5)) (rotl64 (lane C ((x + 1) mod 5)) 1).

Definition rows : list nat := [0; 5; 10; 15; 20]%nat.

Definition theta (st : list Z) : list Z :=
  let C := thetaC st in
  fold_left
    (fun st x =>
       let D := thetaD C x in
       fold_left (fun st y => <[(x + y)%nat := Z.lxor (lane st (x + y)) D]> st)
                 rows st)
    (seq 0 5) st.

(** Rho and Pi, fused: one carried [last] lane. *)
Definition rhoPiStep (acc : list Z * Z) (i : nat) : list Z * Z :=
  let '(st, last) := acc in
  let j := nth i PI 0%nat in
  let temp := lane st j in
  (<[j := rotl64 last (nth i ROTC 0)]> st, temp).

Definition rhoPi (st : list Z) : list Z :=
  fst (fold_left rhoPiStep (seq 0 24) (st, lane st 1)).

(** Chi: each row is rewritten from a snapshot [t] of itself. *)
Definition chiRow (st : list Z) (y : nat) : list Z :=
  let t := map (fun x => lane st (y + x)) (seq 0 5) in
  fold_left
    (fun st x =>
       <[(y + x)%nat :=
           Z.lxor (lane t x)
                  (Z.land (Z.lnot (lane t ((x + 1) mod 5)))
                          (lane t ((x + 2) mod 5)))]> st)
    (seq 0 5) st.

Definition chi (st : list Z) : list Z := fold_left chiRow rows st.

Definition iota (round : nat) (st : list Z) : list Z :=
  <[0%nat := Z.lxor (lane st 0) (nth round RC 0)]> st.

Definition keccakRound (st : list Z) (round : nat) : list Z :=
  iota round (chi (rhoPi (theta st))).

Definition keccakF (st : list Z) : list Z :=
  fold_left keccakRound (seq 0 24) st.

Definition rate : nat := 136.

(** The padded buffer: [Math.ceil((input.length + 1) / rate) * rate] zero
    bytes, the input copied in, [0x01] after it, [0x80] or-ed into the last
    byte. *)
Definition paddedLength (n : nat) : nat :=
  (((n + 1) + (rate - 1)) / rate * rate)%nat.

Definition setAll (buf input : list Z) : list Z :=
  fst (fold_left (fun '(buf, i) v => (u8set buf i v, S i)) input (buf, 0%nat)).

Definition pad (input : list Z) : list Z :=
  let padded := replicate (paddedLength (length input)) 0 in
  let padded := setAll padded input in
  let padded := u8set padded (length input) 0x01 in
  let last := (length padded - 1)%nat in
  u8set padded last (Z.lor (u8get padded last) 0x80).

(** One 64-bit word of the block at [offset], little-endian. *)
Definition readLane (padded : list Z) (offset i : nat) : Z :=
  fold_left
    (fun lane b =>
       Z.lor lane (Z.shiftl (u8get padded (offset + i * 8 + b))
                            (Z.of_nat (b * 8))))
    (seq 0 8) 0.

Definition absorbBlock (padded : list Z) (st : list Z) (offset : nat)
  : list Z :=
  fold_left
    (fun st i => <[i := Z.lxor (lane st i) (readLane padded offset i)]> st)
    (seq 0 (rate / 8)) st.

Definition offsets (padded : list Z) : list nat :=
  map (fun k => (k * rate)%nat) (seq 0 (length padded / rate)).

Definition absorb (padded : list Z) (st : list Z) : list Z :=
  fold_left (fun st offset => keccakF (absorbBlock padded st offset))
            (offsets padded) st.

Definition squeeze (st : list Z) : list Z :=
  fold_left
    (fun output i =>
       fold_left
         (fun output b =>
            u8set output (i * 8 + b)
                  (Z.land (Z.shiftr (lane st i) (Z.of_nat (b * 8))) 0xff))
         (seq 0 8) output)
    (seq 0 4) (replicate 32 0).

Definition keccak256 (input : list Z) : list Z :=
  squeeze (absorb (pad input) (replicate 25 0)).

Definition keccak256Bytes (bytes : list Z) : string :=
  hexOfBytes (keccak256 bytes).

(** [keccak256Hex] on ASCII text, which [TextEncoder] encodes one byte a
    character. *)
Definition keccak256Hex (input : string) : string :=
  hexOfBytes (keccak256 (encodeAscii input)).

End Keccak.

(** ** modules/address.ts *)

Module Address.
Import JS Keccak.

(** [hashNibble >= 8], where a NaN nibble compares false. *)
Definition nibbleGe8 (hashNibble : option Z) : bool :=
  match hashNibble with
  | Some n => 8 <=? n
  | None => false
  end.

(** One turn of the casing loop.  [hex[i]] is [undefined] past the end of
    [hex]: calling [toUpperCase] on it throws, appending it yields the text
    "undefined". *)
Definition checksumStep (hex hashHex : string) (acc : outcome string) (i : nat)
  : outcome string :=
  match acc with
  | Thrown e => Thrown e
  | Returned checksummed =>
      let hashNibble :=
        match String.get i hashHex with
        | Some c => parseHexDigit c
        | None => None
        end in
      if nibbleGe8 hashNibble then
        match String.get i hex with
        | Some c => Returned (checksummed ++ String (toUpperCase c) EmptyString)
        | None => Thrown TypeError
        end
      else
        match String.get i hex with
        | Some c => Returned (checksummed ++ String c EmptyString)
        | None => Returned (checksummed ++ "undefined")
        end
  end%string.

Definition toChecksumAddress (bytes : list Z) : outcome string :=
  let hex := hexOfBytes bytes in
  let hashInput := encodeAscii hex in
  let hash := keccak256 hashInput in
  let hashHex := hexOfBytes hash in
  fold_left (checksumStep hex hashHex) (seq 0 40) (Returned "0x"%string).

End Address.

(** ** core/prng.ts *)

Module PRNG.
Import JS.

(** Methods run in a state-and-exception monad over the object they
    mutate. *)
Definition M (S A : Type) : Type := S -> outcome A * S.

Definition ret {S A} (a : A) : M S A := fun s => (Returned a, s).

Definition bind {S A B} (m : M S A) (k : A -> M S B) : M S B :=
  fun s =>
    match m s with
    | (Returned a, s') => k a s'
    | (Thrown e, s') => (Thrown e, s')
    end.

Notation "x <- m ;; k" := (bind m (fun x => k))
  (at level 100, m at next level, right associativity).

(** [for (...) body] over the listed counter values. *)
Fixpoint forEach {S A} (body : A -> M S unit) (xs : list A) : M S unit :=
  match xs with
  | [] => ret tt
  | x :: xs' => _ <- body x ;; forEach body xs'
  end.

(** A loop over the listed counter values that threads local variables. *)
Fixpoint foldM {S A V} (body : V -> A -> M S V) (xs : list A) (v : V)
  : M S V :=
  match xs with
  | [] => ret v
  | x :: xs' => v' <- body v x ;; foldM body xs' v'
  end.

(** A loop that threads local variables [v] through [n] turns. *)
Fixpoint repeatM {S V} (n : nat) (body : V -> M S V) (v : V) : M S V :=
  match n with
  | O => ret v
  | S n' => v' <- body v ;; repeatM n' body v'
  end.

(** The engine owns one field, [state]. *)
Definition create (seed : Z) : Z := bitor seed 0.

Definition seed (value : Z) : M Z unit := fun _ => (Returned tt, bitor value 0).

Definition next : M Z Q := fun state =>
  let state := bitor state 0 in
  let state := bitor (state + 0x6d2b79f5) 0 in
  let t := imul (bitxor state (ushr state 15)) (bitor 1 state) in
  let t := bitxor (t + imul (bitxor t (ushr t 7)) (bitor 61 t)) t in
  (Returned (ushr (bitxor t (ushr t 14)) 0 # 4294967296), state).

(** The numerator of the value [next] returns. *)
Definition nextWord (register : Z) : Z :=
  let state := bitor (bitor register 0 + 0x6d2b79f5) 0 in
  let t := imul (bitxor state (ushr state 15)) (bitor 1 state) in
  let t := bitxor (t + imul (bitxor t (ushr t 7)) (bitor 61 t)) t in
  ushr (bitxor t (ushr t 14)) 0.

(** [int (min, max)] on integers.  The arithmetic is exact: so is the
    source's double arithmetic when [min] and [max] are within [2^53] of 0
    and [max - min + 1] is at most [2^21], since the product of a multiple
    of [2^-32] below 1 with such a range fits 53 bits.  [Double.int] below
    is the same method on doubles. *)
Definition int (min max : Z) : M Z Z :=
  x <- next ;;
  ret (Qfloor (x * inject_Z (max - min + 1)) + min).


(** The operations on doubles that round: the four arithmetic operations
    and the functions of [Math] that the samplers call, with [Math.PI].
    What they return depends on IEEE rounding and on the platform, so the
    samplers take them as a library; every statement about a sampler holds
    for every library, the one of the platform included. *)
Record MathLib : Type := {
  fadd : number -> number -> number;
  fsub : number -> number -> number;
  fmul : number -> number -> number;
  fdiv : number -> number -> number;
  sqrt : number -> number;
  log : number -> number;
  cos : number -> number;
  exp : number -> number;
  pow : number -> number -> number;
  PI : number
}.

Section Doubles.

Variable Math : MathLib.

Local Notation "x ⊕ y" := (fadd Math x y) (at level 50, left associativity).
Local Notation "x ⊖ y" := (fsub Math x y) (at level 50, left associativity).
Local Notation "x ⊗ y" := (fmul Math x y) (at level 40, left associativity).
Local Notation "x ⊘ y" := (fdiv Math x y) (at level 40, left associativity).

Definition float (min max : number) : M Z number :=
  x <- next ;;
  ret (Fin x ⊗ (max ⊖ min) ⊕ min).

Definition gaussian (mean stddev : number) : M Z number :=
  u1 <- next ;;
  u2 <- next ;;
  let z :=
    sqrt Math (Fin (- (2)) ⊗ log Math (Fin u1))
    ⊗ cos Math (Fin 2 ⊗ PI Math ⊗ Fin u2) in
  ret (z ⊗ stddev ⊕ mean).

Definition powerLaw (min max alpha : number) : M Z number :=
  u <- next ;;
  let minA := pow Math min (Fin 1 ⊖ alpha) in
  let maxA := pow Math max (Fin 1 ⊖ alpha) in
  ret (pow Math (minA ⊕ Fin u ⊗ (maxA ⊖ minA)) (Fin 1 ⊘ (Fin 1 ⊖ alpha))).

End Doubles.

(** [chance (probability)]: [next () < probability]. *)
Definition chance (probability : Q) : M Z bool :=
  x <- next ;;
  ret (negb (Qle_bool probability x)).

(** [bigint (bytes)]: one byte a turn, most significant first. *)
Definition bigint (bytes : Z) : M Z Z :=
  foldM (fun result (_ : nat) =>
           b <- int 0 255 ;;
           ret (Z.lor (Z.shiftl result 8) b))
        (seq 0 (Z.to_nat bytes)) 0.

(** [hex (bytes)]: two characters a turn. *)
Definition hex (bytes : Z) : M Z string :=
  foldM (fun result (_ : nat) =>
           b <- int 0 255 ;;
           ret (result ++ hex2 b)%string)
        (seq 0 (Z.to_nat bytes)) EmptyString.

(** The scan of [weighted]: [n] turns are left, [i] is the counter and
    [random] the running value, [None] once a missing weight has made it
    NaN.  A NaN compares false, so the scan then runs to the fallback.
    Weights are rationals and their sums are exact, as the source's are
    for integer weights whose sum is at most [2^21]. *)
Fixpoint weightedScan {T} (items : list (option T)) (weights : list Q)
         (random : option Q) (i n : nat) : option T :=
  match n with
  | O => aget items (Z.of_nat (length items) - 1)
  | S n' =>
      let random :=
        match random, weights !! i with
        | Some r, Some w => Some (r - w)%Q
        | _, _ => None
        end in
      if match random with Some r => Qle_bool r 0 | None => false end
      then aget items (Z.of_nat i)
      else weightedScan items weights random (S i) n'
  end.

Definition weighted {T} (items : list (option T)) (weights : list Q)
  : M Z (option T) :=
  let totalWeight := fold_left Qplus weights 0%Q in
  x <- next ;;
  let random := (x * totalWeight)%Q in
  ret (weightedScan items weights (Some random) 0 (length items)).

(** Arrays reached through a reference live in a heap next to the engine. *)
Section Arrays.
Context {T : Type}.

Record World : Type := {
  rng : Z;
  heap : gmap nat (list (option T))
}.

(** A method of the engine, run on the engine of the world. *)
Definition onRng {A} (m : M Z A) : M World A :=
  fun w =>
    let '(r, s) := m (rng w) in
    (r, {| rng := s; heap := heap w |}).

Definition readArray (arr : nat) : M World (list (option T)) :=
  fun w =>
    match heap w !! arr with
    | Some items => (Returned items, w)
    | None => (Thrown TypeError, w)
    end.

Definition writeArray (arr : nat) (items : list (option T)) : M World unit :=
  fun w => (Returned tt, {| rng := rng w; heap := <[arr := items]> (heap w) |}).




(** [[arr[i], arr[j]] = [arr[j], arr[i]]]: both reads, then both stores. *)
Definition swap (items : list (option T)) (i j : Z) : list (option T) :=
  let a := aget items j in
  let b := aget items i in
  aset (aset items i a) j b.

Definition shuffleStep (arr : nat) (i : Z) : M World unit :=
  j <- onRng (int 0 i) ;;
  items <- readArray arr ;;
  writeArray arr (swap items i j).

(** The counter values [length - 1, ..., 1]. *)
Definition countdown (len : nat) : list Z :=
  map Z.of_nat (rev (seq 1 (len - 1))).

Definition shuffle (arr : nat) : M World nat :=
  items <- readArray arr ;;
  _ <- forEach (shuffleStep arr) (countdown (length items)) ;;
  ret arr.

End Arrays.
Arguments World T : clear implicits.

End PRNG.

(** ** core/prng.ts on doubles *)

(** [next] and [int] once more, on IEEE binary64 numbers: the primitive
    floats, whose operations round as those of the source do.  This is the
    method on all doubles, beyond the integers on which [PRNG.int] is
    exact. *)
Module Double.
Import PrimFloat.
Local Open Scope float_scope.

(** A non-negative integer below [2^53] as a double. *)
Definition ofInteger (k : Z) : float := of_uint63 (Uint63.of_Z k).


(** [Math.floor]: below [2^52] in size, adding and subtracting [2^52]
    rounds to an integer, which is then corrected downwards; a larger
    double is an integer, and NaN and the infinities are returned as they
    are. *)
Definition floor (x : float) : float :=
  if abs x <? 0x1p52 then
    let r := (abs x + 0x1p52) - 0x1p52 in
    if r =? abs x then x
    else if 0 <=? x then (if x <? r then r - 1 else r)
    else (if r <? abs x then - (r + 1) else - r)
  else x.

Definition next (register : Z) : float * Z :=
  (ofInteger (PRNG.nextWord register) / 4294967296, snd (PRNG.next register)).

Definition int (min max : float) (register : Z) : float * Z :=
  let '(x, register') := next register in
  (floor (x * (max - min + 1)) + min, register').

End Double.

(** ** modules/dex.ts *)

Module Dex.
Import JS PRNG.

Record OHLCVCandle : Type := {
  timestamp : Z;
  open : number;
  high : number;
  low : number;
  close : number;
  volume : number
}.

Inductive Interval : Type := I1m | I5m | I15m | I1h | I4h | I1d.

Record CandleOpts : Type := {
  startPrice : option number;
  interval : option Interval;
  volatility : option number;
  drift : option number
}.

Definition intervals (i : Interval) : Z :=
  match i with
  | I1m => 60
  | I5m => 300
  | I15m => 900
  | I1h => 3600
  | I4h => 14400
  | I1d => 86400
  end.

(** [opts?.field ?? fallback], where the fallback draws from the engine. *)
Definition orDraw (opts : option CandleOpts)
           (field : CandleOpts -> option number) (fallback : M Z number)
  : M Z number :=
  match opts ≫= field with
  | Some v => ret v
  | None => fallback
  end.

(** The multiple of [10^-digits] nearest to [x], ties away from zero. *)
Definition roundHalfAway (x : Q) : Z :=
  if Qle_bool 0 x then Qfloor (x + (1 # 2)) else - Qfloor (- x + (1 # 2)).

Definition nearestDecimal (digits : nat) (x : Q) : Q :=
  roundHalfAway (x * inject_Z (10 ^ Z.of_nat digits))
  # Z.to_pos (10 ^ Z.of_nat digits).

(** [parseFloat (x.toFixed (digits))].  [toFixed] prints the nearest
    decimal, with a minus sign when [x] is negative, and [parseFloat] reads
    it back: the result is given as the decimal itself, which stands for
    the double nearest to it.  A negative [x] that prints as zero reads
    back as the negative zero; NaN and the infinities print and read back
    as themselves.  (From [10^21] on [toFixed] prints [x] itself, and so
    does the nearest decimal, a double that large being an integer.) *)
Definition toFixed (digits : nat) (x : number) : number :=
  match x with
  | Fin q =>
      let r := nearestDecimal digits q in
      if (Qnum r =? 0) && negb (Qle_bool 0 q) then NegZero else Fin r
  | NegZero => Fin 0
  | Infinity s => Infinity s
  | NaN => NaN
  end.

Section Candles.

Variable Math : MathLib.

Local Notation "x ⊕ y" := (fadd Math x y) (at level 50, left associativity).
Local Notation "x ⊖ y" := (fsub Math x y) (at level 50, left associativity).
Local Notation "x ⊗ y" := (fmul Math x y) (at level 40, left associativity).
Local Notation "x ⊘ y" := (fdiv Math x y) (at level 40, left associativity).

(** The price after one tick: the GBM update, then the floor. *)
Definition tickPrice (drift volatility : number) (ticks : Z)
           (current : number) : M Z number :=
  let dt := Fin 1 ⊘ Fin (inject_Z ticks) in
  g <- gaussian Math (Fin 0) (Fin 1) ;;
  let dW := g ⊗ sqrt Math dt in
  let current :=
    current
    ⊗ exp Math ((drift ⊖ Fin (1 # 2) ⊗ volatility ⊗ volatility) ⊗ dt
                ⊕ volatility ⊗ dW) in
  ret (mathMax current (Fin (1 # 10000))).

(** One turn of the inner loop on the locals [high], [low], [current]. *)
Definition tickStep (drift volatility : number) (ticks : Z)
           (v : number * number * number) : M Z (number * number * number) :=
  let '(high, low, current) := v in
  current <- tickPrice drift volatility ticks current ;;
  ret (mathMax high current, mathMin low current, current).

(** One turn of the outer loop on the locals [price] and [candles]. *)
Definition candleStep (drift volatility : number)
           (startTime intervalSec : Z) (v : number * list OHLCVCandle) (i : Z)
  : M Z (number * list OHLCVCandle) :=
  let '(price, candles) := v in
  let open := price in
  ticks <- int 10 50 ;;
  w <- repeatM (Z.to_nat ticks) (tickStep drift volatility ticks)
               (open, open, open) ;;
  let '(high, low, current) := w in
  let close := current in
  let priceChange := mathAbs (close ⊖ open) ⊘ open in
  baseVolume <- powerLaw Math (Fin 1000) (Fin 10000000) (Fin (13 # 10)) ;;
  let volume := baseVolume ⊗ (Fin 1 ⊕ priceChange ⊗ Fin 10) in
  ret (close,
       candles ++ [ {| timestamp := startTime + i * intervalSec;
                       open := toFixed 8 open;
                       high := toFixed 8 high;
                       low := toFixed 8 low;
                       close := toFixed 8 close;
                       volume := toFixed 2 volume |} ]).

(** [candles(count, opts)]; [nowMs] is the value of [Date.now()]. *)
Definition candles (nowMs : Z) (count : Z) (opts : option CandleOpts)
  : M Z (list OHLCVCandle) :=
  startPrice <- orDraw opts startPrice
                       (float Math (Fin (1 # 2)) (Fin 5000)) ;;
  volatility <- orDraw opts volatility
                       (float Math (Fin (1 # 100)) (Fin (8 # 100))) ;;
  drift <- orDraw opts drift
                  (float Math (Fin (- (1 # 1000))) (Fin (1 # 1000))) ;;
  let intervalSec := intervals (default I1h (opts ≫= interval)) in
  let now := nowMs / 1000 in
  let startTime := now - count * intervalSec in
  r <- foldM (candleStep drift volatility startTime intervalSec)
             (map Z.of_nat (seq 0 (Z.to_nat count))) (startPrice, []) ;;
  ret (snd r).

End Candles.

End Dex.

(** ** modules/address.ts: the generators *)

Module AddressModule.
Import JS PRNG.

(** A call that throws or returns without touching the engine. *)
Definition ofOutcome {S A} (o : outcome A) : M S A := fun s => (o, s).

(** [new Uint8Array (n)] filled by [bytes[i] = this.rng.int (0, 255)]. *)
Definition fillBytes (n : nat) : M Z (list Z) :=
  foldM (fun bytes i =>
           b <- int 0 255 ;;
           ret (u8set bytes i b))
        (seq 0 n) (replicate n 0).

Definition wallet : M Z string :=
  bytes <- fillBytes 20 ;;
  ofOutcome (Address.toChecksumAddress bytes).

Definition contract : M Z string := wallet.

Definition ALPHABET : string :=
  "123456789ABCDEFGHJKLMNPQRSTUVWXYZabcdefghijkmnopqrstuvwxyz".

(** The [while (num > 0n)] loop.  [/] and [%] on [bigint] truncate toward
    zero.  Each turn divides [num] by 58, so [fuel] turns are enough when
    [fuel] exceeds the binary logarithm of [num]. *)
Fixpoint base58Digits (fuel : nat) (num : Z) (encoded : string) : string :=
  match fuel with
  | O => encoded
  | S fuel' =>
      if 0 <? num then
        let remainder := Z.rem num 58 in
        let num := Z.quot num 58 in
        let encoded :=
          match String.get (Z.to_nat remainder) ALPHABET with
          | Some c => String c encoded
          | None => ("undefined" ++ encoded)%string
          end in
        base58Digits fuel' num encoded
      else encoded
  end.

(** The loop over the leading zero bytes, left at the first other byte. *)
Fixpoint leadingOnes (bytes : list Z) (encoded : string) : string :=
  match bytes with
  | [] => encoded
  | byte :: rest =>
      if byte =? 0 then leadingOnes rest (String "1" encoded) else encoded
  end.

Definition base58Encode (bytes : list Z) : string :=
  let num := fold_left (fun num byte => num * 256 + byte) bytes 0 in
  let encoded := base58Digits (S (Z.to_nat (Z.log2 num))) num EmptyString in
  leadingOnes bytes encoded.

Definition solana : M Z string :=
  bytes <- fillBytes 32 ;;
  ret (base58Encode bytes).

(** [isSolana] is the family of the active chain. *)
Definition zero (isSolana : bool) : string :=
  if isSolana then "11111111111111111111111111111111"
  else "0x0000000000000000000000000000000000000000".

Definition dead (isSolana : bool) : M Z string :=
  if isSolana then ret "1nc1nerator11111111111111111111111111111111"%string
  else
    c <- chance (1 # 2) ;;
    ret (if c then "0x000000000000000000000000000000000000dEaD"
         else "0x0000000000000000000000000000000000000000")%string.

Definition any (isSolana : bool) : M Z string :=
  if isSolana then solana else wallet.

End AddressModule.

(** ** Reference definitions, in the words of the specification *)

Module Spec.
Import JS.

(** Truncation of an addition or a multiplication to 32 bits. *)
Definition trunc32 (x : Z) : Z := x mod 2 ^ 32.

(** The Mulberry32 output for a register value: add [0x6D2B79F5], then the
    xor, shift and multiply steps on unsigned 32-bit words. *)
Definition mulberry32 (register : Z) : Z :=
  let s := trunc32 (register + 0x6D2B79F5) in
  let t := trunc32 (Z.lxor s (Z.shiftr s 15) * Z.lor 1 s) in
  let t := Z.lxor (trunc32 (t + trunc32 (Z.lxor t (Z.shiftr t 7) * Z.lor 61 t)))
                  t in
  Z.lxor t (Z.shiftr t 14).

(** The 20 bytes of the EIP-55 test vector. *)
Definition eip55Bytes : list Z :=
  [ 0x5a; 0xae; 0xb6; 0x05; 0x3f; 0x3e; 0x94; 0xc9; 0xb9; 0xa0;
    0x9f; 0x33; 0x66; 0x94; 0x35; 0xe7; 0xef; 0x1b; 0xea; 0xed ].

(** Lower-case hexadecimal, two characters a byte. *)
Definition hexAlphabet : string := "0123456789abcdef".

Definition hexChar (d : Z) : ascii :=
  default "?"%char (String.get (Z.to_nat d) hexAlphabet).

Definition lowerHex (bytes : list Z) : list ascii :=
  flat_map (fun b => [hexChar (b / 16); hexChar (b mod 16)]) bytes.

Definition upperCase (c : ascii) : ascii :=
  if Ascii.eqb c "a" then "A" else if Ascii.eqb c "b" then "B"
  else if Ascii.eqb c "c" then "C" else if Ascii.eqb c "d" then "D"
  else if Ascii.eqb c "e" then "E" else if Ascii.eqb c "f" then "F"
  else c.

(** Nibble [i] of a digest: byte [i / 2], high half when [i] is even. *)
Definition nibble (digest : list Z) (i : nat) : Z :=
  let byte := nth (i / 2) digest 0 in
  if Nat.even i then byte / 16 else byte mod 16.

(** The forty cased characters of a 20-byte value. *)
Definition checksumCase (bytes : list Z) : list ascii :=
  let hex := lowerHex bytes in
  let digest :=
    Keccak.keccak256 (map (fun c => Z.of_nat (nat_of_ascii c)) hex) in
  map (fun i =>
         let c := nth i hex "?"%char in
         if 8 <=? nibble digest i then upperCase c else c)
      (seq 0 40).

(** Unsigned 64-bit words and bytes. *)
Definition in64 (v : Z) : Prop := 0 <= v < 2 ^ 64.
Definition isByte (v : Z) : Prop := 0 <= v < 256.

(** A well-formed permutation state: 25 lanes, each an unsigned 64-bit
    word. *)
Definition lanesOk (st : list Z) : Prop :=
  length st = 25%nat /\ Forall in64 st.

(** The states a digest computation passes through, next to the state it
    ends in: after each step of each round of each absorbed block. *)
Definition roundTrace (st : list Z) (round : nat) : list (list Z) :=
  let s1 := Keccak.theta st in
  let s2 := Keccak.rhoPi s1 in
  let s3 := Keccak.chi s2 in
  let s4 := Keccak.iota round s3 in
  [s1; s2; s3; s4].

Definition permutationTraced (st : list Z) (rounds : list nat)
  : list Z * list (list Z) :=
  fold_left
    (fun acc r =>
       (Keccak.keccakRound (fst acc) r, snd acc ++ roundTrace (fst acc) r))
    rounds (st, []).

Definition absorbTraced (padded st : list Z) (offs : list nat)
  : list Z * list (list Z) :=
  fold_left
    (fun acc offset =>
       (fst (permutationTraced (Keccak.absorbBlock padded (fst acc) offset)
                               (seq 0 24)),
        snd acc
        ++ Keccak.absorbBlock padded (fst acc) offset
        :: snd (permutationTraced (Keccak.absorbBlock padded (fst acc) offset)
                                  (seq 0 24))))
    offs (st, []).

Definition keccakTraced (input : list Z) : list Z * list (list Z) :=
  absorbTraced (Keccak.pad input) (replicate 25 0)
               (Keccak.offsets (Keccak.pad input)).

(** Every state of a traced run is well formed. *)
Definition tracedOk (acc : list Z * list (list Z)) : Prop :=
  lanesOk (fst acc) /\ Forall lanesOk (snd acc).

(** Order on numbers: [leq a b] is [a <= b] of the source, which fails
    when either is NaN. *)
Definition leq (a b : number) : Prop := lessEq a b = true.

(** The sub-step prices of one candle: the values [current] takes in the
    [n] turns of the inner loop. *)
Fixpoint tickPrices (Math : PRNG.MathLib) (drift volatility : number)
         (ticks : Z) (n : nat) (current : number) : PRNG.M Z (list number) :=
  match n with
  | O => PRNG.ret []
  | S n' =>
      PRNG.bind (Dex.tickPrice Math drift volatility ticks current)
        (fun p =>
           PRNG.bind (tickPrices Math drift volatility ticks n' p)
             (fun ps => PRNG.ret (p :: ps)))
  end.

(** The ordering of the four prices of a candle. *)
Definition candleOrdered (c : Dex.OHLCVCandle) : Prop :=
  leq (Dex.low c) (Dex.open c) /\ leq (Dex.open c) (Dex.high c)
  /\ leq (Dex.low c) (Dex.close c) /\ leq (Dex.close c) (Dex.high c)
  /\ leq (Dex.low c) (mathMin (Dex.open c) (Dex.close c))
  /\ leq (mathMax (Dex.open c) (Dex.close c)) (Dex.high c).

(** [h] is the largest and [l] the smallest of the prices [ps]. *)
Definition extrema (h l : number) (ps : list number) : Prop :=
  In h ps /\ In l ps /\ Forall (fun p => leq l p /\ leq p h) ps.

(** A candle built from the sub-step prices of one turn of the outer loop:
    it opens at [price], closes at the last sub-step price, and its [high]
    and [low] are the running [Math.max] and [Math.min] of the sub-step
    prices, the opening price included; the four are stored rounded to
    eight decimals.  Unless a sub-step price is NaN, the running maximum
    and minimum are the largest and the smallest sub-step price, the
    stored [high] and [low] are the largest and the smallest of the rounded
    sub-step prices, and the stored prices are ordered. *)
Definition candleOfTicks (Math : PRNG.MathLib) (drift volatility : number)
           (c : Dex.OHLCVCandle) : Prop :=
  exists (price : number) (register ticks : Z) (ps : list number)
         (r1 r2 : Z),
    PRNG.int 10 50 register = (JS.Returned ticks, r1)
    /\ tickPrices Math drift volatility ticks (Z.to_nat ticks) price r1
       = (JS.Returned ps, r2)
    /\ length ps = Z.to_nat ticks
    /\ Dex.open c = Dex.toFixed 8 price
    /\ Dex.close c = Dex.toFixed 8 (List.last ps price)
    /\ Dex.high c = Dex.toFixed 8 (fold_left mathMax ps price)
    /\ Dex.low c = Dex.toFixed 8 (fold_left mathMin ps price)
    /\ (In NaN (price :: ps)
        \/ (extrema (fold_left mathMax ps price) (fold_left mathMin ps price)
                    (price :: ps)
            /\ extrema (Dex.high c) (Dex.low c)
                       (map (Dex.toFixed 8) (price :: ps))
            /\ candleOrdered c)).

(** The element at a position of an array. *)
Definition itemAt {T} (items : list (option T)) (p : nat) : option T :=
  mjoin (items !! p).

(** A run from [w] to [w'] that leaves every array but [arr] as it was. *)
Definition sameElsewhere {T} (arr : nat) (w w' : PRNG.World T) : Prop :=
  forall l, l <> arr -> PRNG.heap w' !! l = PRNG.heap w !! l.

(** A world with one array of five numbers at reference 7. *)
Definition sampleItems : list (option Z) :=
  [Some 1; Some 2; Some 3; Some 4; Some 5].

Definition sampleWorld : PRNG.World Z :=
  {| PRNG.rng := 42; PRNG.heap := {[ 7%nat := sampleItems ]} |}.

End Spec.

(** ** Vocabulary of the further properties *)

Module Props.
Import JS.

(** A signed 32-bit integer. *)
Definition int32 (v : Z) : Prop := - 2 ^ 31 <= v < 2 ^ 31.

(** The register after [n] calls of [next]. *)
Fixpoint registerAfter (n : nat) (register : Z) : Z :=
  match n with
  | O => register
  | S n' => registerAfter n' (snd (PRNG.next register))
  end.

(** [n] successive draws of [int (0, 255)]. *)
Fixpoint byteDraws (n : nat) : PRNG.M Z (list Z) :=
  match n with
  | O => PRNG.ret []
  | S n' =>
      PRNG.bind (PRNG.int 0 255)
        (fun b => PRNG.bind (byteDraws n') (fun bs => PRNG.ret (b :: bs)))
  end.

(** The number a byte sequence denotes, most significant byte first. *)
Definition bigEndian (bytes : list Z) : Z :=
  fold_left (fun n b => n * 256 + b) bytes 0.

(** The number a hexadecimal text denotes; [None] if a character is not a
    hexadecimal digit. *)
Definition parseHex (s : string) : option Z :=
  fold_left
    (fun acc c =>
       match acc, parseHexDigit c with
       | Some n, Some d => Some (n * 16 + d)
       | _, _ => None
       end)
    (list_ascii_of_string s) (Some 0).

(** The characters [0-9a-f]. *)
Definition isLowerHexDigit (c : ascii) : Prop :=
  exists d, 0 <= d < 16 /\ c = Spec.hexChar d.

(** [c.toLowerCase ()] on one ASCII character. *)
Definition lowerCase (c : ascii) : ascii :=
  let n := nat_of_ascii c in
  if ((65 <=? n) && (n <=? 90))%nat then ascii_of_nat (n + 32) else c.

(** The sum of the first [k] weights, as [reduce] adds them. *)
Definition cumulative (weights : list Q) (k : nat) : Q :=
  fold_left Qplus (take k weights) 0%Q.

(** A non-empty array with its weights. *)
Definition sampleWeights : list Z := [1; 2; 3].
Definition sampleChoices : list (option Z) := [Some 10; Some 20; Some 30].

(** The place of a character in a text, as [indexOf] finds it. *)
Fixpoint indexOf (c : ascii) (s : string) : option nat :=
  match s with
  | EmptyString => None
  | String c' s' =>
      if Ascii.eqb c c' then Some O else option_map S (indexOf c s')
  end.

(** The number a base-58 text denotes after the digits read so far denote
    [n]; [None] if a character is not in the alphabet. *)
Fixpoint base58ValueFrom (s : string) (n : Z) : option Z :=
  match s with
  | EmptyString => Some n
  | String c s' =>
      match indexOf c AddressModule.ALPHABET with
      | Some d => base58ValueFrom s' (n * 58 + Z.of_nat d)
      | None => None
      end
  end.

Definition base58Value (s : string) : option Z := base58ValueFrom s 0.

(** The number of zero bytes a byte sequence starts with. *)
Fixpoint leadingZeros (bytes : list Z) : nat :=
  match bytes with
  | [] => O
  | byte :: rest => if byte =? 0 then S (leadingZeros rest) else O
  end.

(** The text of [n] characters [1]. *)
Fixpoint ones (n : nat) : string :=
  match n with
  | O => EmptyString
  | S n' => String "1" (ones n')
  end.

(** The bytes the burn addresses stand for. *)
Definition burnBytes : list Z := replicate 18 0 ++ [0xde; 0xad].
Definition incineratorBytes : list Z :=
  [0; 51; 144; 114; 141; 52; 17; 96; 121; 189; 201; 17; 191; 255; 0; 219;
   212; 77; 46; 205; 204; 247; 156; 166; 225; 0; 56; 225; 0; 0; 0; 0].

(** A stand-in for the library of rounded operations: arithmetic that is
    exact on finite numbers and gives NaN elsewhere, and rational stand-ins
    for the functions of [Math].  As [Math.exp] does, its [exp] returns 1
    at 0. *)
Definition exactly (f : Q -> Q -> Q) (a b : number) : number :=
  match a, b with
  | (Fin _ | NegZero), (Fin _ | NegZero) => Fin (f (valueOf a) (valueOf b))
  | _, _ => NaN
  end.

Definition sampleMath : PRNG.MathLib :=
  {| PRNG.fadd := exactly Qplus;
     PRNG.fsub := exactly Qminus;
     PRNG.fmul := exactly Qmult;
     PRNG.fdiv := exactly Qdiv;
     PRNG.sqrt := fun x => x;
     PRNG.log := fun x => exactly Qminus x (Fin 1);
     PRNG.cos := fun _ => Fin 1;
     PRNG.exp := fun x => exactly Qplus (Fin 1) x;
     PRNG.pow := fun x _ => x;
     PRNG.PI := Fin (355 # 113) |}.

(** Options for a flat price path: no drift and no volatility, from the
    start price [1 + 2^-30], a double with more than eight decimals. *)
Definition flatStart : number := Fin (1073741825 # 1073741824).
Definition flatOpts : Dex.CandleOpts :=
  {| Dex.startPrice := Some flatStart;
     Dex.interval := None;
     Dex.volatility := Some (Fin 0);
     Dex.drift := Some (Fin 0) |}.

(** The sub-step prices of the first candle of a run. *)
Definition firstTicks (Math : PRNG.MathLib) (start drift volatility : number)
  : PRNG.M Z (list number) :=
  PRNG.bind (PRNG.int 10 50)
    (fun ticks =>
       Spec.tickPrices Math drift volatility ticks (Z.to_nat ticks) start).

(** Integer weights of an array, as numbers. *)
Definition integerWeights (ws : list Z) : list Q := map inject_Z ws.

(** A byte sequence with leading zero bytes. *)
Definition sampleBytes : list Z := [0; 0; 1; 2].

(** A buffer of 32 bytes and a state whose lanes are packed from it. *)
Definition sampleBuffer : list Z := map Z.of_nat (seq 1 32).
Definition sampleState : list Z :=
  map (Keccak.readLane sampleBuffer 0) (seq 0 25).

End Props.
(** * Proofs *)

(** ** Truncation to a power of two and the bitwise operations *)

Module BitFacts.

(** Compare two integers bit by bit, below and above a width. *)
Ltac by_bits width :=
  let i := fresh "i" in
  let Hi := fresh "Hi" in
  apply Z.bits_inj'; intros i Hi;
  destruct (Z.lt_ge_cases i width);
  [ rewrite ?Z.mod_pow2_bits_low by lia
  | rewrite ?Z.mod_pow2_bits_high by lia ];
  rewrite ?Z.lxor_spec, ?Z.lor_spec, ?Z.land_spec;
  [ rewrite ?Z.mod_pow2_bits_low by lia
  | rewrite ?Z.mod_pow2_bits_high by lia ].

Section Width.
Variable n : Z.
Hypothesis Hn : 0 <= n.

Lemma mod_pow2_lxor a b :
  Z.lxor a b mod 2 ^ n = Z.lxor (a mod 2 ^ n) (b mod 2 ^ n).
Proof. by_bits n; reflexivity. Qed.

Lemma mod_pow2_lor a b :
  Z.lor a b mod 2 ^ n = Z.lor (a mod 2 ^ n) (b mod 2 ^ n).
Proof. by_bits n; reflexivity. Qed.

(** A conjunction with a truncated word is truncated, whatever the sign of
    the other operand. *)
Lemma mod_pow2_land_r a b :
  Z.land a (b mod 2 ^ n) mod 2 ^ n = Z.land a (b mod 2 ^ n).
Proof. by_bits n; [ reflexivity | now rewrite andb_false_r ]. Qed.

Lemma mod_pow2_fixed a : 0 <= a < 2 ^ n <-> a mod 2 ^ n = a.
Proof.
  split.
  - apply Z.mod_small.
  - intros <-. apply Z.mod_pos_bound. now apply Z.pow_pos_nonneg.
Qed.

End Width.
End BitFacts.

(** ** 32-bit arithmetic *)

Module Int32Facts.
Import JS BitFacts.

Lemma ToInt32_range x : - 2 ^ 31 <= ToInt32 x < 2 ^ 31.
Proof. unfold ToInt32. pose proof (Z.mod_pos_bound (x + 2 ^ 31) (2 ^ 32)). lia. Qed.

Lemma ToUint32_range x : 0 <= ToUint32 x < 2 ^ 32.
Proof. unfold ToUint32. apply Z.mod_pos_bound. lia. Qed.

Lemma ToUint32_ToInt32 x : ToUint32 (ToInt32 x) = ToUint32 x.
Proof.
  unfold ToUint32, ToInt32.
  rewrite Zminus_mod_idemp_l. f_equal. lia.
Qed.

Lemma ToUint32_small x : 0 <= x < 2 ^ 32 -> ToUint32 x = x.
Proof. intros H. unfold ToUint32. apply Z.mod_small. exact H. Qed.

Lemma mod32_lxor a b :
  Z.lxor a b mod 2 ^ 32 = Z.lxor (a mod 2 ^ 32) (b mod 2 ^ 32).
Proof. apply mod_pow2_lxor. lia. Qed.

Lemma mod32_lor a b :
  Z.lor a b mod 2 ^ 32 = Z.lor (a mod 2 ^ 32) (b mod 2 ^ 32).
Proof. apply mod_pow2_lor. lia. Qed.

Lemma ToUint32_bitxor a b :
  ToUint32 (bitxor a b) = Z.lxor (ToUint32 a) (ToUint32 b).
Proof.
  unfold bitxor. unfold ToUint32 at 1. rewrite mod32_lxor.
  fold (ToUint32 (ToInt32 a)). fold (ToUint32 (ToInt32 b)).
  now rewrite !ToUint32_ToInt32.
Qed.

Lemma ToUint32_bitor a b :
  ToUint32 (bitor a b) = Z.lor (ToUint32 a) (ToUint32 b).
Proof.
  unfold bitor. unfold ToUint32 at 1. rewrite mod32_lor.
  fold (ToUint32 (ToInt32 a)). fold (ToUint32 (ToInt32 b)).
  now rewrite !ToUint32_ToInt32.
Qed.

Lemma ToUint32_imul a b :
  ToUint32 (imul a b) = (ToUint32 a * ToUint32 b) mod 2 ^ 32.
Proof. unfold imul. now rewrite ToUint32_ToInt32. Qed.

Lemma ToUint32_add a b :
  ToUint32 (a + b) = (ToUint32 a + ToUint32 b) mod 2 ^ 32.
Proof. unfold ToUint32. apply Zplus_mod. Qed.

Lemma ushr_spec a n : 0 <= n < 32 -> ushr a n = Z.shiftr (ToUint32 a) n.
Proof. intros H. unfold ushr. now rewrite Z.mod_small. Qed.

Lemma shiftr_range x n : 0 <= n -> 0 <= x < 2 ^ 32 -> 0 <= Z.shiftr x n < 2 ^ 32.
Proof.
  intros Hn [H0 H1]. rewrite Z.shiftr_div_pow2 by exact Hn.
  assert (0 < 2 ^ n) by (apply Z.pow_pos_nonneg; lia).
  split.
  - apply Z.div_pos; lia.
  - apply Z.le_lt_trans with x; [ | exact H1 ].
    apply Z.div_le_upper_bound; nia.
Qed.

Lemma ushr_range a n : 0 <= ushr a n < 2 ^ 32.
Proof.
  unfold ushr. apply shiftr_range.
  - apply Z.mod_pos_bound. lia.
  - apply ToUint32_range.
Qed.

End Int32Facts.

(** ** Folds and their invariants *)

Module FoldFacts.

(** Invariants of folds. *)
Lemma fold_left_preserves {A B} (P : A -> Prop) (f : A -> B -> A)
      (l : list B) :
  (forall a b, b ∈ l -> P a -> P (f a b)) ->
  forall a, P a -> P (fold_left f l a).
Proof.
  induction l as [ | b l IH ]; intros Hf a Ha; cbn [fold_left]; [ exact Ha | ].
  apply IH.
  - intros a' b' Hb'. apply Hf. now right.
  - apply Hf; [ left | exact Ha ].
Qed.

(** A fold that carries a log next to its state runs through the states of
    the plain fold. *)
Lemma fst_fold_left_logged {A B C} (g : A -> C -> A) (h : A -> B -> C -> B)
      (l : list C) : forall acc : A * B,
  fst (fold_left (fun acc c => (g (fst acc) c, h (fst acc) (snd acc) c)) l acc)
  = fold_left g l (fst acc).
Proof.
  induction l as [ | c l IH ]; intros acc; [ reflexivity | ].
  cbn [fold_left]. rewrite IH. reflexivity.
Qed.

Lemma fold_left_ext_eq {A C} (g g' : A -> C -> A) (l : list C) :
  (forall a c, g a c = g' a c) ->
  forall a, fold_left g l a = fold_left g' l a.
Proof.
  intros Hg. induction l as [ | c l IH ]; intros a; [ reflexivity | ].
  cbn [fold_left]. rewrite Hg. apply IH.
Qed.

Lemma fold_left_logged_ok {A B C} (P : A -> Prop) (Q : B -> Prop)
      (g : A -> C -> A) (h : A -> B -> C -> B) (l : list C) :
  (forall a c, P a -> P (g a c)) ->
  (forall a b c, P a -> Q b -> Q (h a b c)) ->
  forall acc : A * B,
    P (fst acc) -> Q (snd acc) ->
    P (fst (fold_left (fun acc c => (g (fst acc) c, h (fst acc) (snd acc) c))
                      l acc))
    /\ Q (snd (fold_left (fun acc c => (g (fst acc) c, h (fst acc) (snd acc) c))
                         l acc)).
Proof.
  intros Hg Hh. induction l as [ | c l IH ]; intros acc HP HQ;
    [ now split | ].
  cbn [fold_left]. apply IH; cbn [fst snd]; auto.
Qed.

(** The length of the log when every turn appends the same number of
    entries. *)
Lemma snd_fold_left_logged_length {A B C} (g : A -> C -> A)
      (t : A -> C -> list B) (k : nat) (l : list C) :
  (forall a c, length (t a c) = k) ->
  forall acc : A * list B,
    length (snd (fold_left
                   (fun acc c => (g (fst acc) c, snd acc ++ t (fst acc) c))
                   l acc))
    = (length (snd acc) + k * length l)%nat.
Proof.
  intros Ht. induction l as [ | c l IH ]; intros acc.
  - cbn [fold_left length]. lia.
  - cbn [fold_left]. rewrite IH. cbn [fst snd length].
    rewrite length_app, Ht. lia.
Qed.

End FoldFacts.

(** ** The engine: [next] and [int] *)

Module EngineProofs.
Import JS PRNG Int32Facts.

Lemma bitor_0_r x : bitor x 0 = ToInt32 x.
Proof. unfold bitor. change (ToInt32 0) with 0. apply Z.lor_0_r. Qed.

Lemma ToUint32_ushr a n : ToUint32 (ushr a n) = ushr a n.
Proof. apply ToUint32_small, ushr_range. Qed.

Lemma ToUint32_idem a : ToUint32 (ToUint32 a) = ToUint32 a.
Proof. apply ToUint32_small, ToUint32_range. Qed.

(** The register after the additive step, seen as an unsigned word. *)
Lemma ToUint32_advance register :
  ToUint32 (bitor (bitor register 0 + 0x6d2b79f5) 0)
  = Spec.trunc32 (register + 0x6D2B79F5).
Proof.
  rewrite !bitor_0_r, ToUint32_ToInt32.
  rewrite ToUint32_add, ToUint32_ToInt32, <- ToUint32_add.
  reflexivity.
Qed.

Lemma next_eq register :
  next register
  = (Returned (nextWord register # 4294967296),
     bitor (bitor register 0 + 0x6d2b79f5) 0).
Proof. unfold next, nextWord. cbv zeta. exact eq_refl. Qed.

Lemma nextWord_range register : 0 <= nextWord register < 2 ^ 32.
Proof. apply ushr_range. Qed.

Lemma nextWord_mulberry32 register :
  nextWord register = Spec.mulberry32 register.
Proof.
  unfold nextWord, Spec.mulberry32.
  set (state := bitor (bitor register 0 + 0x6d2b79f5) 0).
  assert (Hs : ToUint32 state = Spec.trunc32 (register + 0x6D2B79F5))
    by apply ToUint32_advance.
  set (s := Spec.trunc32 (register + 0x6D2B79F5)) in *.
  set (t1 := imul (bitxor state (ushr state 15)) (bitor 1 state)).
  assert (Ht1 : ToUint32 t1
                = Spec.trunc32 (Z.lxor s (Z.shiftr s 15) * Z.lor 1 s)).
  { unfold t1. rewrite ToUint32_imul, ToUint32_bitxor, ToUint32_bitor.
    rewrite ToUint32_ushr, ushr_spec by lia. rewrite Hs.
    reflexivity. }
  set (u1 := Spec.trunc32 (Z.lxor s (Z.shiftr s 15) * Z.lor 1 s)) in *.
  set (t2 := bitxor (t1 + imul (bitxor t1 (ushr t1 7)) (bitor 61 t1)) t1).
  assert (Ht2 : ToUint32 t2
                = Z.lxor (Spec.trunc32
                            (u1 + Spec.trunc32
                                    (Z.lxor u1 (Z.shiftr u1 7) * Z.lor 61 u1)))
                         u1).
  { unfold t2. rewrite ToUint32_bitxor, ToUint32_add, ToUint32_imul.
    rewrite ToUint32_bitxor, ToUint32_bitor, ToUint32_ushr.
    rewrite ushr_spec by lia. rewrite Ht1. reflexivity. }
  rewrite ushr_spec by lia. rewrite Z.shiftr_0_r.
  rewrite ToUint32_bitxor, ToUint32_ushr, ushr_spec by lia.
  rewrite Ht2. reflexivity.
Qed.

Lemma next_value_bounds register :
  (0 <= nextWord register # 4294967296 < 1)%Q.
Proof.
  pose proof (nextWord_range register) as H.
  unfold Qle, Qlt. simpl. lia.
Qed.

(** [floor] of a draw scaled by [n]. *)
Lemma Qfloor_scaled k n :
  Qfloor ((k # 4294967296) * inject_Z n) = k * n / 2 ^ 32.
Proof. unfold Qfloor, Qmult, inject_Z. simpl Qnum. simpl Qden. reflexivity. Qed.

Lemma scaled_floor_range k n :
  0 <= k < 2 ^ 32 -> 0 <= n -> 0 <= k * n / 2 ^ 32 <= Z.max 0 (n - 1).
Proof.
  intros Hk Hn. split.
  - apply Z.div_pos; nia.
  - destruct (Z.eq_dec n 0) as [-> | Hne].
    + rewrite Z.mul_0_r. reflexivity.
    + assert (k * n / 2 ^ 32 < n); [ | lia ].
      apply Z.div_lt_upper_bound; nia.
Qed.

Lemma int_eq min max register :
  int min max register
  = (Returned (nextWord register * (max - min + 1) / 2 ^ 32 + min),
     snd (next register)).
Proof.
  unfold int, bind, ret. rewrite next_eq. cbv beta iota.
  rewrite Qfloor_scaled. reflexivity.
Qed.

Lemma bind_returned {S A B} (m : M S A) (k : A -> M S B) s a s' :
  m s = (Returned a, s') -> bind m k s = k a s'.
Proof. intros H. unfold bind. now rewrite H. Qed.

(** Every draw returns. *)
Lemma next_returns register :
  exists x, next register = (Returned x, snd (next register)).
Proof. exists (nextWord register # 4294967296). now rewrite next_eq. Qed.

Lemma float_returns Math min max register :
  exists v, float Math min max register = (Returned v, snd (next register)).
Proof.
  destruct (next_returns register) as [x Hx].
  eexists. unfold float. rewrite (bind_returned _ _ _ _ _ Hx). reflexivity.
Qed.

Lemma gaussian_returns Math mean stddev register :
  exists v,
    gaussian Math mean stddev register
    = (Returned v, snd (next (snd (next register)))).
Proof.
  destruct (next_returns register) as [u1 H1].
  destruct (next_returns (snd (next register))) as [u2 H2].
  eexists. unfold gaussian.
  rewrite (bind_returned _ _ _ _ _ H1), (bind_returned _ _ _ _ _ H2).
  reflexivity.
Qed.

Lemma powerLaw_returns Math min max alpha register :
  exists v, powerLaw Math min max alpha register = (Returned v, snd (next register)).
Proof.
  destruct (next_returns register) as [u Hu].
  eexists. unfold powerLaw. rewrite (bind_returned _ _ _ _ _ Hu).
  reflexivity.
Qed.

(** On the ranges the sources draw from, the method on doubles and the
    method on integers return the same integer; checked on the first
    thousand registers. *)
Lemma int_on_doubles_sample :
  forallb
    (fun r =>
       forallb
         (fun range =>
            match int (fst range) (snd range) r with
            | (Returned v, r') =>
                PrimFloat.eqb
                  (fst (Double.int (Double.ofInteger (fst range))
                                   (Double.ofInteger (snd range)) r))
                  (Double.ofInteger v)
                && (snd (Double.int (Double.ofInteger (fst range))
                                    (Double.ofInteger (snd range)) r) =? r')
            | (Thrown _, _) => false
            end)
         [(0, 255); (10, 50); (15, 30); (100000, 350000); (0, 2 ^ 21 - 1)])
    (map Z.of_nat (seq 0 1000))
  = true.
Proof. vm_compute. reflexivity. Qed.

End EngineProofs.

(** ** Arrays: [pickMultiple] and [shuffle] *)

Module ArrayProofs.
Import JS PRNG Spec Int32Facts EngineProofs.

Section WithT.
Context {T : Type}.
Implicit Types (items copy result : list (option T)) (w : World T).

Lemma aget_nat items (p : nat) : aget items (Z.of_nat p) = itemAt items p.
Proof.
  unfold aget, itemAt.
  destruct (Z.ltb_spec (Z.of_nat p) 0) as [H | _]; [ lia | ].
  now rewrite Nat2Z.id.
Qed.


(** The index drawn for a non-empty array is a position of it. *)
Lemma int_index_range (n : nat) register :
  (0 < n)%nat ->
  exists i : nat,
    (i < n)%nat
    /\ int 0 (Z.of_nat n - 1) register = (Returned (Z.of_nat i), snd (next register)).
Proof.
  intros Hn. rewrite int_eq.
  pose proof (scaled_floor_range (nextWord register) (Z.of_nat n - 1 - 0 + 1)
                (nextWord_range register)) as H.
  set (v := nextWord register * (Z.of_nat n - 1 - 0 + 1) / 2 ^ 32) in *.
  exists (Z.to_nat v). split; [ lia | ].
  rewrite Z2Nat.id by lia. now rewrite Z.add_0_r.
Qed.





(** Exchanging two elements of a list permutes it. *)
Lemma insert_head_Permutation {A} (l : list A) (j : nat) (x y : A) :
  l !! j = Some y -> y :: <[j := x]> l ≡ₚ x :: l.
Proof.
  revert j. induction l as [ | a l IH ]; intros [ | j ] Hj; simpl in *;
    try discriminate.
  - injection Hj as ->. apply perm_swap.
  - rewrite (perm_swap a y), (perm_swap a x). now rewrite IH.
Qed.

Lemma exchange_Permutation {A} (l : list A) (i j : nat) (x y : A) :
  l !! i = Some x -> l !! j = Some y ->
  <[j := x]> (<[i := y]> l) ≡ₚ l.
Proof.
  revert i j. induction l as [ | a l IH ]; intros [ | i ] [ | j ] Hi Hj;
    simpl in *; try discriminate.
  - injection Hi as ->. injection Hj as ->. reflexivity.
  - injection Hi as ->. now apply insert_head_Permutation.
  - injection Hj as ->. now apply insert_head_Permutation.
  - now rewrite IH.
Qed.

Lemma aset_nat items (i : nat) v :
  (i < length items)%nat -> aset items (Z.of_nat i) v = <[i := v]> items.
Proof.
  intros Hi. unfold aset.
  destruct (Z.ltb_spec (Z.of_nat i) 0) as [H | _]; [ lia | ].
  destruct (Z.ltb_spec (Z.of_nat i) (Z.of_nat (length items))) as [_ | H];
    [ | lia ].
  now rewrite Nat2Z.id.
Qed.

Lemma swap_Permutation items (i j : nat) :
  (i < length items)%nat -> (j < length items)%nat ->
  swap items (Z.of_nat i) (Z.of_nat j) ≡ₚ items.
Proof.
  intros Hi Hj. unfold swap.
  destruct (lookup_lt_is_Some_2 items i Hi) as [x Hx].
  destruct (lookup_lt_is_Some_2 items j Hj) as [y Hy].
  rewrite !aget_nat. unfold itemAt. rewrite Hx, Hy. simpl.
  rewrite (aset_nat items i) by exact Hi.
  rewrite aset_nat by (rewrite length_insert; exact Hj).
  now apply exchange_Permutation.
Qed.

Lemma shuffleStep_permutes (arr : nat) (i : nat) w cur :
  heap w !! arr = Some cur ->
  (i < length cur)%nat ->
  exists w' cur',
    shuffleStep arr (Z.of_nat i) w = (Returned tt, w')
    /\ heap w' !! arr = Some cur'
    /\ cur' ≡ₚ cur
    /\ sameElsewhere arr w w'.
Proof.
  intros Harr Hi.
  destruct (int_index_range (S i) (rng w)) as (j & Hj & Hint); [ lia | ].
  replace (Z.of_nat (S i) - 1) with (Z.of_nat i) in Hint by lia.
  exists {| rng := snd (next (rng w));
            heap := <[arr := swap cur (Z.of_nat i) (Z.of_nat j)]> (heap w) |},
         (swap cur (Z.of_nat i) (Z.of_nat j)).
  split; [ | split; [ | split ] ].
  - unfold shuffleStep.
    erewrite bind_returned by (unfold onRng; rewrite Hint; reflexivity).
    erewrite bind_returned
      by (unfold readArray; simpl; rewrite Harr; reflexivity).
    reflexivity.
  - simpl. apply lookup_insert_eq.
  - apply swap_Permutation; lia.
  - intros l Hl. simpl. apply lookup_insert_ne. congruence.
Qed.

Lemma forEach_shuffleStep (arr : nat) (idxs : list nat) :
  forall w cur,
    heap w !! arr = Some cur ->
    Forall (fun i => i < length cur)%nat idxs ->
    exists w' cur',
      forEach (shuffleStep arr) (map Z.of_nat idxs) w = (Returned tt, w')
      /\ heap w' !! arr = Some cur'
      /\ cur' ≡ₚ cur
      /\ sameElsewhere arr w w'.
Proof.
  induction idxs as [ | i idxs IH ]; intros w cur Harr Hall.
  - exists w, cur. repeat split; try done.
  - apply Forall_cons in Hall as [Hi Hall].
    destruct (shuffleStep_permutes arr i w cur Harr Hi) as
        (w1 & cur1 & Hstep & Harr1 & Hperm1 & Hsame1).
    destruct (IH w1 cur1 Harr1) as (w' & cur' & Hrun & Harr' & Hperm' & Hsame').
    { rewrite (Permutation_length Hperm1). exact Hall. }
    exists w', cur'. split; [ | split; [ exact Harr' | split ] ].
    + cbn [map forEach]. now rewrite (bind_returned _ _ _ _ _ Hstep).
    + now rewrite Hperm'.
    + intros l Hl. rewrite Hsame' by exact Hl. now apply Hsame1.
Qed.

Lemma countdown_eq (len : nat) :
  countdown len = map Z.of_nat (rev (seq 1 (len - 1))).
Proof. reflexivity. Qed.

End WithT.
End ArrayProofs.

(** ** The permutation: lanesOk stay unsigned 64-bit words *)

Module KeccakProofs.
Import JS Keccak Spec BitFacts FoldFacts.

Lemma in64_mod v : in64 v <-> v mod 2 ^ 64 = v.
Proof. apply mod_pow2_fixed. lia. Qed.

Lemma lxor_in64 a b : in64 a -> in64 b -> in64 (Z.lxor a b).
Proof.
  rewrite !in64_mod. intros Ha Hb.
  rewrite mod_pow2_lxor by lia. now rewrite Ha, Hb.
Qed.

Lemma lor_in64 a b : in64 a -> in64 b -> in64 (Z.lor a b).
Proof.
  rewrite !in64_mod. intros Ha Hb.
  rewrite mod_pow2_lor by lia. now rewrite Ha, Hb.
Qed.

(** A conjunction with an unsigned word is one, whatever the sign of the
    other operand: this is what bounds Chi and [rotl64]. *)
Lemma land_in64_r a b : in64 b -> in64 (Z.land a b).
Proof.
  rewrite !in64_mod. intros Hb.
  rewrite <- Hb. apply mod_pow2_land_r. lia.
Qed.

Lemma rotl64_in64 x n : in64 (rotl64 x n).
Proof. unfold rotl64. apply land_in64_r. unfold in64. lia. Qed.

Lemma in64_0 : in64 0.
Proof. unfold in64. lia. Qed.

Lemma lane_in64 st i : Forall in64 st -> in64 (lane st i).
Proof.
  intros H. unfold lane.
  destruct (nth_in_or_default i st 0) as [Hin | ->]; [ | apply in64_0 ].
  rewrite Forall_forall in H. apply H. now apply list_elem_of_In.
Qed.

Lemma RC_in64 round : in64 (nth round RC 0).
Proof.
  change (nth round RC 0) with (lane RC round). apply lane_in64.
  unfold RC, in64. repeat (constructor; [ lia | ]). constructor.
Qed.

Lemma lanes_insert st i v : lanesOk st -> in64 v -> lanesOk (<[i := v]> st).
Proof.
  intros [Hlen Hall] Hv. split.
  - now rewrite length_insert.
  - now apply Forall_insert.
Qed.

Lemma lanes_forall st : lanesOk st -> Forall in64 st.
Proof. now intros [_ H]. Qed.

Create HintDb lanes.
#[local] Hint Resolve in64_0 rotl64_in64 lxor_in64 lor_in64 land_in64_r
  lane_in64 lanes_insert lanes_forall RC_in64 : lanes.

Lemma map_lane_in64 st (f : nat -> nat) (idxs : list nat) :
  Forall in64 st -> Forall in64 (map (fun x => lane st (f x)) idxs).
Proof.
  intros H. apply Forall_forall. intros v Hv.
  apply list_elem_of_In, in_map_iff in Hv as (x & <- & _).
  now apply lane_in64.
Qed.

Lemma thetaC_in64 st : Forall in64 st -> Forall in64 (thetaC st).
Proof.
  intros H. apply Forall_forall. intros v Hv.
  apply list_elem_of_In, in_map_iff in Hv as (x & <- & _).
  repeat apply lxor_in64; now apply lane_in64.
Qed.

Lemma theta_lanes st : lanesOk st -> lanesOk (theta st).
Proof.
  intros Hst. unfold theta.
  apply fold_left_preserves; [ | exact Hst ].
  intros st1 x _ Hst1.
  apply fold_left_preserves; [ | exact Hst1 ].
  intros st2 y _ Hst2. apply lanes_insert; [ exact Hst2 | ].
  apply lxor_in64; [ apply lane_in64, Hst2 | ].
  unfold thetaD. apply lxor_in64; [ | apply rotl64_in64 ].
  apply lane_in64, thetaC_in64, Hst.
Qed.

Lemma rhoPi_lanes st : lanesOk st -> lanesOk (rhoPi st).
Proof.
  intros Hst. unfold rhoPi.
  apply (fold_left_preserves (fun acc => lanesOk (fst acc)) rhoPiStep);
    [ | exact Hst ].
  intros [st1 last] i _ Hst1. cbn [rhoPiStep fst snd] in *.
  apply lanes_insert; [ exact Hst1 | apply rotl64_in64 ].
Qed.

Lemma chiRow_lanes st y : lanesOk st -> lanesOk (chiRow st y).
Proof.
  intros Hst. unfold chiRow.
  apply fold_left_preserves; [ | exact Hst ].
  intros st1 x _ Hst1.
  pose proof (map_lane_in64 st (fun x => (y + x)%nat) (seq 0 5) (proj2 Hst))
    as Ht.
  auto with lanes.
Qed.

Lemma chi_lanes st : lanesOk st -> lanesOk (chi st).
Proof.
  intros Hst. unfold chi.
  apply fold_left_preserves; [ | exact Hst ].
  intros st1 y _. apply chiRow_lanes.
Qed.

Lemma iota_lanes round st : lanesOk st -> lanesOk (iota round st).
Proof.
  intros Hst. unfold iota. auto with lanes.
Qed.

Lemma keccakRound_lanes st round : lanesOk st -> lanesOk (keccakRound st round).
Proof.
  intros Hst. unfold keccakRound.
  now apply iota_lanes, chi_lanes, rhoPi_lanes, theta_lanes.
Qed.

Lemma keccakF_lanes st : lanesOk st -> lanesOk (keccakF st).
Proof.
  intros Hst. unfold keccakF.
  apply fold_left_preserves; [ | exact Hst ].
  intros st1 r _. apply keccakRound_lanes.
Qed.

Lemma keccakF_length st : length st = 25%nat -> Forall in64 st ->
  length (keccakF st) = 25%nat.
Proof. intros H1 H2. now apply keccakF_lanes. Qed.

(** Buffers hold bytes. *)
Lemma isByte_mod v : isByte (v mod 256).
Proof. unfold isByte. apply Z.mod_pos_bound. lia. Qed.

Lemma u8set_bytes buf i v : Forall isByte buf -> Forall isByte (u8set buf i v).
Proof. intros H. unfold u8set. apply Forall_insert; [ exact H | apply isByte_mod ]. Qed.

Lemma u8set_length buf i v : length (u8set buf i v) = length buf.
Proof. unfold u8set. apply length_insert. Qed.

Lemma u8get_byte buf i : Forall isByte buf -> isByte (u8get buf i).
Proof.
  intros H. unfold u8get.
  destruct (nth_in_or_default i buf 0) as [Hin | ->]; [ | unfold isByte; lia ].
  rewrite Forall_forall in H. apply H. now apply list_elem_of_In.
Qed.

Lemma replicate_bytes n : Forall isByte (replicate n 0).
Proof. apply Forall_replicate. unfold isByte. lia. Qed.

Lemma pad_bytes input : Forall isByte (pad input).
Proof.
  unfold pad. apply u8set_bytes, u8set_bytes. unfold setAll.
  apply (fold_left_preserves (fun acc : list Z * nat => Forall isByte (fst acc))).
  - intros [buf i] v _ Hbuf. cbn [fst snd] in *. now apply u8set_bytes.
  - cbn [fst]. apply replicate_bytes.
Qed.

Lemma shifted_byte_in64 v (b : nat) :
  isByte v -> (b < 8)%nat -> in64 (Z.shiftl v (Z.of_nat (b * 8))).
Proof.
  unfold isByte, in64. intros Hv Hb.
  rewrite Z.shiftl_mul_pow2 by lia.
  assert (0 < 2 ^ Z.of_nat (b * 8)) by (apply Z.pow_pos_nonneg; lia).
  assert (2 ^ Z.of_nat (b * 8) <= 2 ^ 56) by (apply Z.pow_le_mono_r; lia).
  change (2 ^ 64) with (256 * 2 ^ 56). nia.
Qed.

Lemma readLane_in64 padded offset i :
  Forall isByte padded -> in64 (readLane padded offset i).
Proof.
  intros Hp. unfold readLane.
  apply fold_left_preserves; [ | apply in64_0 ].
  intros acc b Hb Hacc. apply elem_of_seq in Hb.
  apply lor_in64; [ exact Hacc | ].
  apply shifted_byte_in64; [ now apply u8get_byte | lia ].
Qed.

Lemma absorbBlock_lanes padded st offset :
  Forall isByte padded -> lanesOk st -> lanesOk (absorbBlock padded st offset).
Proof.
  intros Hp Hst. unfold absorbBlock.
  apply fold_left_preserves; [ | exact Hst ].
  intros st1 i _ Hst1. apply lanes_insert; [ exact Hst1 | ].
  apply lxor_in64; [ apply lane_in64, Hst1 | now apply readLane_in64 ].
Qed.

Lemma initial_lanes : lanesOk (replicate 25 0).
Proof.
  split; [ apply length_replicate | ].
  apply Forall_replicate, in64_0.
Qed.

(** The traced runs pass through the states of the plain runs. *)
Lemma permutationTraced_keccakF st :
  fst (permutationTraced st (seq 0 24)) = keccakF st.
Proof.
  exact (fst_fold_left_logged keccakRound
           (fun st trace r => trace ++ roundTrace st r) (seq 0 24) (st, [])).
Qed.

Lemma keccakTraced_absorb input :
  fst (keccakTraced input) = absorb (pad input) (replicate 25 0).
Proof.
  unfold keccakTraced, absorbTraced, absorb.
  rewrite (fst_fold_left_logged
             (fun st offset =>
                fst (permutationTraced (absorbBlock (pad input) st offset)
                                       (seq 0 24)))
             (fun st trace offset =>
                trace ++ absorbBlock (pad input) st offset
                      :: snd (permutationTraced
                                (absorbBlock (pad input) st offset) (seq 0 24)))
             (offsets (pad input)) (replicate 25 0, [])).
  apply fold_left_ext_eq. intros st offset. apply permutationTraced_keccakF.
Qed.

(** Every state of a traced run is well formed. *)
Lemma roundTrace_lanes st round :
  lanesOk st -> Forall lanesOk (roundTrace st round).
Proof.
  intros Hst.
  pose proof (theta_lanes st Hst) as H1.
  pose proof (rhoPi_lanes _ H1) as H2.
  pose proof (chi_lanes _ H2) as H3.
  pose proof (iota_lanes round _ H3) as H4.
  exact (Forall_cons_2 _ _ _ H1
           (Forall_cons_2 _ _ _ H2
              (Forall_cons_2 _ _ _ H3
                 (Forall_cons_2 _ _ _ H4 (Forall_nil_2 _))))).
Qed.

Lemma permutationTraced_ok st rounds :
  lanesOk st -> tracedOk (permutationTraced st rounds).
Proof.
  intros Hst.
  apply (fold_left_logged_ok lanesOk (Forall lanesOk) keccakRound
           (fun st trace r => trace ++ roundTrace st r) rounds).
  - intros a r. apply keccakRound_lanes.
  - intros a b r Ha Hb. apply Forall_app_2; [ exact Hb | ].
    now apply roundTrace_lanes.
  - exact Hst.
  - apply Forall_nil_2.
Qed.

Lemma absorbTraced_ok padded st offs :
  Forall isByte padded -> lanesOk st ->
  tracedOk (absorbTraced padded st offs).
Proof.
  intros Hp Hst.
  apply (fold_left_logged_ok lanesOk (Forall lanesOk)
           (fun st offset =>
              fst (permutationTraced (absorbBlock padded st offset) (seq 0 24)))
           (fun st trace offset =>
              trace ++ absorbBlock padded st offset
                    :: snd (permutationTraced (absorbBlock padded st offset)
                                              (seq 0 24)))
           offs).
  - intros a o Ha.
    apply (permutationTraced_ok _ (seq 0 24) (absorbBlock_lanes padded a o Hp Ha)).
  - intros a b o Ha Hb.
    pose proof (absorbBlock_lanes padded a o Hp Ha) as Hab.
    apply Forall_app_2; [ exact Hb | ].
    apply Forall_cons_2; [ exact Hab | ].
    apply (permutationTraced_ok _ (seq 0 24) Hab).
  - exact Hst.
  - apply Forall_nil_2.
Qed.

(** The length of the log: four states a round, 97 a block. *)
Lemma permutationTraced_length st rounds :
  length (snd (permutationTraced st rounds)) = (4 * length rounds)%nat.
Proof.
  exact (snd_fold_left_logged_length keccakRound roundTrace 4 rounds
           (fun a c => eq_refl) (st, [])).
Qed.

Lemma absorbTraced_step_length padded (a : list Z) (c : nat) :
  length (absorbBlock padded a c
          :: snd (permutationTraced (absorbBlock padded a c) (seq 0 24)))
  = 97%nat.
Proof. rewrite length_cons, permutationTraced_length. reflexivity. Qed.

Lemma absorbTraced_length padded st offs :
  length (snd (absorbTraced padded st offs)) = (97 * length offs)%nat.
Proof.
  unfold absorbTraced.
  rewrite (snd_fold_left_logged_length
             (fun st offset =>
                fst (permutationTraced (absorbBlock padded st offset)
                                       (seq 0 24)))
             (fun st offset =>
                absorbBlock padded st offset
                :: snd (permutationTraced (absorbBlock padded st offset)
                                          (seq 0 24)))
             97 offs (absorbTraced_step_length padded) (st, [])).
  reflexivity.
Qed.

Lemma setAll_length input : forall buf, length (setAll buf input) = length buf.
Proof.
  intros buf. unfold setAll.
  apply (fold_left_preserves
           (fun acc : list Z * nat => length (fst acc) = length buf)).
  - intros [b i] v _ Hb. cbn [fst] in *. now rewrite u8set_length.
  - reflexivity.
Qed.

Lemma pad_length input : length (pad input) = paddedLength (length input).
Proof.
  unfold pad. rewrite !u8set_length, setAll_length. apply length_replicate.
Qed.

Lemma offsets_length input :
  length (offsets (pad input)) = S (length input / rate)
  /\ length (pad input) = (S (length input / rate) * rate)%nat.
Proof.
  assert (H : (paddedLength (length input) = S (length input / rate) * rate)%nat).
  { unfold paddedLength, rate.
    replace (length input + 1 + (136 - 1))%nat
      with (length input + 1 * 136)%nat by lia.
    rewrite Nat.div_add by lia. f_equal. lia. }
  split.
  - unfold offsets. rewrite length_map, length_seq, pad_length, H.
    apply Nat.div_mul. unfold rate. lia.
  - now rewrite pad_length.
Qed.

(** The digest: 32 bytes. *)
Lemma squeeze_bytes st :
  length (squeeze st) = 32%nat /\ Forall isByte (squeeze st).
Proof.
  unfold squeeze.
  apply (fold_left_preserves
           (fun out => length out = 32%nat /\ Forall isByte out)).
  - intros out i _ Hout.
    apply (fold_left_preserves
             (fun out => length out = 32%nat /\ Forall isByte out));
      [ | exact Hout ].
    intros out1 b _ [Hlen Hall]. split.
    + now rewrite u8set_length.
    + now apply u8set_bytes.
  - split; [ apply length_replicate | apply replicate_bytes ].
Qed.

End KeccakProofs.

(** ** Hexadecimal text and the checksum casing *)

Module AddressProofs.
Import JS Keccak Address Spec FoldFacts KeccakProofs.
Local Open Scope string_scope.
Local Open Scope Z_scope.

Lemma append_nil (s : string) : ("" ++ s)%string = s.
Proof. reflexivity. Qed.

Lemma append_cons c (s1 s2 : string) :
  (String c s1 ++ s2)%string = String c (s1 ++ s2).
Proof. reflexivity. Qed.

Lemma append_assoc (s1 s2 s3 : string) :
  ((s1 ++ s2) ++ s3 = s1 ++ (s2 ++ s3))%string.
Proof.
  induction s1 as [ | c s1 IH ]; [ reflexivity | ].
  rewrite !append_cons. now rewrite IH.
Qed.

Lemma append_empty_r (s : string) : (s ++ "")%string = s.
Proof.
  induction s as [ | c s IH ]; [ reflexivity | ].
  rewrite append_cons. now rewrite IH.
Qed.

Lemma get_lookup (s : string) (i : nat) :
  String.get i s = list_ascii_of_string s !! i.
Proof.
  revert i. induction s as [ | c s IH ]; intros [ | i ]; simpl; try reflexivity.
  apply IH.
Qed.

(** A property of every byte, checked on the 256 of them. *)
Lemma forall_bytes (P : Z -> bool) :
  forallb (fun n => P (Z.of_nat n)) (seq 0 256) = true ->
  forall b, isByte b -> P b = true.
Proof.
  intros H b Hb. rewrite forallb_forall in H.
  specialize (H (Z.to_nat b)). rewrite Z2Nat.id in H by (unfold isByte in Hb; lia).
  apply H, in_seq. unfold isByte in Hb. lia.
Qed.

Lemma hex2_byte b :
  isByte b ->
  hex2 b = String (hexdigit (b / 16)) (String (hexdigit (b mod 16)) "").
Proof.
  intros Hb. apply String.eqb_eq.
  apply (forall_bytes
           (fun b => String.eqb (hex2 b)
                       (String (hexdigit (b / 16))
                               (String (hexdigit (b mod 16)) ""))));
    [ vm_compute; reflexivity | exact Hb ].
Qed.

(** A property of every nibble, checked on the 16 of them. *)
Lemma forall_nibbles (P : Z -> bool) :
  forallb (fun n => P (Z.of_nat n)) (seq 0 16) = true ->
  forall d, 0 <= d < 16 -> P d = true.
Proof.
  intros H d Hd. rewrite forallb_forall in H.
  specialize (H (Z.to_nat d)). rewrite Z2Nat.id in H by lia.
  apply H, in_seq. lia.
Qed.

Lemma hexdigit_hexChar d : 0 <= d < 16 -> hexdigit d = hexChar d.
Proof.
  intros Hd. apply Ascii.eqb_eq.
  apply (forall_nibbles (fun d => Ascii.eqb (hexdigit d) (hexChar d)));
    [ vm_compute; reflexivity | exact Hd ].
Qed.

Lemma parseHexDigit_hexChar d :
  0 <= d < 16 -> parseHexDigit (hexChar d) = Some d.
Proof.
  intros Hd.
  assert (H : (match parseHexDigit (hexChar d) with
               | Some n => (n =? d)%Z
               | None => false
               end) = true).
  { apply (forall_nibbles
             (fun d => match parseHexDigit (hexChar d) with
                       | Some n => (n =? d)%Z
                       | None => false
                       end)); [ vm_compute; reflexivity | exact Hd ]. }
  destruct (parseHexDigit (hexChar d)) as [ n | ]; [ | discriminate H ].
  apply Z.eqb_eq in H. now subst.
Qed.

Lemma toUpperCase_hexChar d :
  0 <= d < 16 -> toUpperCase (hexChar d) = upperCase (hexChar d).
Proof.
  intros Hd. apply Ascii.eqb_eq.
  apply (forall_nibbles
           (fun d => Ascii.eqb (toUpperCase (hexChar d)) (upperCase (hexChar d))));
    [ vm_compute; reflexivity | exact Hd ].
Qed.

Lemma nibble_parts b : isByte b -> 0 <= b / 16 < 16 /\ 0 <= b mod 16 < 16.
Proof.
  unfold isByte. intros Hb. split.
  - split; [ apply Z.div_pos; lia | apply Z.div_lt_upper_bound; lia ].
  - apply Z.mod_pos_bound. lia.
Qed.

(** The hex dump of the source is the lower-case encoding. *)
Lemma hexOfBytes_lowerHex bytes :
  Forall isByte bytes ->
  list_ascii_of_string (hexOfBytes bytes) = lowerHex bytes.
Proof.
  induction 1 as [ | b bytes Hb _ IH ]; [ reflexivity | ].
  cbn [hexOfBytes fold_right lowerHex flat_map].
  fold (hexOfBytes bytes). fold (lowerHex bytes).
  rewrite hex2_byte by exact Hb.
  rewrite !append_cons, append_nil.
  cbn [list_ascii_of_string app]. rewrite IH.
  destruct (nibble_parts b Hb) as [Hhi Hlo].
  now rewrite !hexdigit_hexChar.
Qed.

Lemma lowerHex_length bytes : length (lowerHex bytes) = (2 * length bytes)%nat.
Proof. induction bytes as [ | b bytes IH ]; simpl; [ reflexivity | rewrite IH; lia ]. Qed.

Lemma nibble_cons_SS b bytes i :
  nibble (b :: bytes) (S (S i)) = nibble bytes i.
Proof.
  unfold nibble.
  replace (S (S i) / 2)%nat with (S (i / 2)).
  - reflexivity.
  - change (S (S i)) with (1 * 2 + i)%nat. rewrite Nat.add_comm.
    rewrite Nat.div_add by lia. lia.
Qed.

Lemma lowerHex_lookup bytes :
  forall i, (i < 2 * length bytes)%nat ->
            lowerHex bytes !! i = Some (hexChar (nibble bytes i)).
Proof.
  induction bytes as [ | b bytes IH ]; intros i Hi; simpl in Hi; [ lia | ].
  destruct i as [ | [ | i ] ]; try reflexivity.
  rewrite nibble_cons_SS. simpl. apply IH. lia.
Qed.

Lemma nibble_range bytes i :
  Forall isByte bytes -> 0 <= nibble bytes i < 16.
Proof.
  intros H. unfold nibble.
  assert (Hb : isByte (nth (i / 2) bytes 0)) by (apply (u8get_byte bytes), H).
  destruct (nibble_parts _ Hb). now destruct (Nat.even i).
Qed.

(** The character the casing loop appends at position [i]. *)
Lemma checksumStep_spec bytes digest acc i :
  Forall isByte bytes -> Forall isByte digest ->
  (i < 2 * length bytes)%nat -> (i < 2 * length digest)%nat ->
  checksumStep (hexOfBytes bytes) (hexOfBytes digest) (Returned acc) i
  = Returned
      (acc ++ String (let c := nth i (lowerHex bytes) "?"%char in
                      if 8 <=? nibble digest i then upperCase c else c) "").
Proof.
  intros Hbytes Hdigest Hi Hj. unfold checksumStep.
  rewrite !get_lookup, !hexOfBytes_lowerHex by assumption.
  rewrite (lowerHex_lookup digest i Hj), (lowerHex_lookup bytes i Hi).
  rewrite (nth_lookup_Some _ _ _ _ (lowerHex_lookup bytes i Hi)).
  rewrite parseHexDigit_hexChar by now apply nibble_range.
  cbn [nibbleGe8]. cbv zeta.
  destruct (8 <=? nibble digest i); [ | reflexivity ].
  rewrite toUpperCase_hexChar by now apply nibble_range. reflexivity.
Qed.

Lemma checksum_fold bytes digest (idxs : list nat) :
  Forall isByte bytes -> Forall isByte digest ->
  Forall (fun i => i < 2 * length bytes /\ i < 2 * length digest)%nat idxs ->
  forall acc,
    fold_left (checksumStep (hexOfBytes bytes) (hexOfBytes digest)) idxs
              (Returned acc)
    = Returned
        (acc ++ string_of_list_ascii
                  (map (fun i =>
                          let c := nth i (lowerHex bytes) "?"%char in
                          if 8 <=? nibble digest i then upperCase c else c)
                       idxs)).
Proof.
  intros Hbytes Hdigest. induction 1 as [ | i idxs [Hi Hj] _ IH ]; intros acc.
  - cbn [fold_left map string_of_list_ascii]. now rewrite append_empty_r.
  - cbn [fold_left map string_of_list_ascii].
    rewrite checksumStep_spec by assumption. rewrite IH.
    now rewrite append_assoc.
Qed.

Lemma encodeAscii_hexOfBytes bytes :
  Forall isByte bytes ->
  encodeAscii (hexOfBytes bytes)
  = map (fun c => Z.of_nat (nat_of_ascii c)) (lowerHex bytes).
Proof. intros H. unfold encodeAscii. now rewrite hexOfBytes_lowerHex. Qed.

Lemma keccak256_bytes input :
  length (keccak256 input) = 32%nat /\ Forall isByte (keccak256 input).
Proof. apply squeeze_bytes. Qed.

Lemma toChecksumAddress_checksumCase bytes :
  length bytes = 20%nat -> Forall isByte bytes ->
  toChecksumAddress bytes
  = Returned ("0x" ++ string_of_list_ascii (checksumCase bytes)).
Proof.
  intros Hlen Hbytes. unfold toChecksumAddress. cbv zeta.
  destruct (keccak256_bytes (encodeAscii (hexOfBytes bytes))) as [Hdl Hdb].
  rewrite (checksum_fold bytes _ (seq 0 40) Hbytes Hdb).
  - unfold checksumCase. cbv zeta.
    now rewrite encodeAscii_hexOfBytes by exact Hbytes.
  - apply Forall_forall. intros i Hi. apply elem_of_seq in Hi.
    rewrite Hlen, Hdl. lia.
Qed.

(** The casing loop reads its argument only through the hex dump. *)
Lemma toChecksumAddress_hex bytes bytes' :
  hexOfBytes bytes = hexOfBytes bytes' ->
  toChecksumAddress bytes = toChecksumAddress bytes'.
Proof. intros H. unfold toChecksumAddress. now rewrite H. Qed.

End AddressProofs.

(** ** Numbers: order, maximum and minimum *)

Module NumberProofs.
Import JS Spec.
Local Open Scope Q_scope.

Lemma Qle_bool_false x y : Qle_bool x y = false -> y < x.
Proof.
  intros H. apply Qnot_le_lt. rewrite <- Qle_bool_iff. congruence.
Qed.

(** Comparisons of rationals, as hypotheses of [lra]. *)
Ltac qbool :=
  repeat match goal with
         | H : Qle_bool _ _ = true |- _ => apply Qle_bool_iff in H
         | H : Qle_bool _ _ = false |- _ => apply Qle_bool_false in H
         | |- Qle_bool _ _ = true => apply Qle_bool_iff
         end.

(** Case analysis on numbers and on the comparisons of their values. *)
Ltac by_cases :=
  unfold leq, mathMax, mathMin, lessThan, lessEq, isNaN, valueOf in *;
  cbn in *;
  repeat match goal with
         | |- context [Qle_bool ?x ?y] =>
             let E := fresh "E" in destruct (Qle_bool x y) eqn:E; cbn in *
         end;
  qbool;
  try solve [ intuition (try congruence; try lra; try (exfalso; lra)) ].

Lemma leq_notNaN a b : leq a b -> a <> NaN /\ b <> NaN.
Proof. destruct a as [ x | | [] | ], b as [ y | | [] | ]; by_cases. Qed.

Lemma leq_refl a : a <> NaN -> leq a a.
Proof. destruct a as [ x | | [] | ]; by_cases. Qed.

Lemma leq_trans a b c : leq a b -> leq b c -> leq a c.
Proof.
  destruct a as [ x | | [] | ], b as [ y | | [] | ], c as [ z | | [] | ];
    by_cases.
Qed.

Lemma mathMax_NaN a b : mathMax a b = NaN <-> a = NaN \/ b = NaN.
Proof. destruct a as [ x | | [] | ], b as [ y | | [] | ]; by_cases. Qed.

Lemma mathMin_NaN a b : mathMin a b = NaN <-> a = NaN \/ b = NaN.
Proof. destruct a as [ x | | [] | ], b as [ y | | [] | ]; by_cases. Qed.

(** [Math.max] and [Math.min] return one of their arguments, unless one
    is NaN. *)
Lemma mathMax_cases a b :
  a <> NaN -> b <> NaN -> mathMax a b = a \/ mathMax a b = b.
Proof. destruct a as [ x | | [] | ], b as [ y | | [] | ]; by_cases. Qed.

Lemma mathMin_cases a b :
  a <> NaN -> b <> NaN -> mathMin a b = a \/ mathMin a b = b.
Proof. destruct a as [ x | | [] | ], b as [ y | | [] | ]; by_cases. Qed.

Lemma mathMax_upper a b :
  a <> NaN -> b <> NaN -> leq a (mathMax a b) /\ leq b (mathMax a b).
Proof. destruct a as [ x | | [] | ], b as [ y | | [] | ]; by_cases. Qed.

Lemma mathMin_lower a b :
  a <> NaN -> b <> NaN -> leq (mathMin a b) a /\ leq (mathMin a b) b.
Proof. destruct a as [ x | | [] | ], b as [ y | | [] | ]; by_cases. Qed.

Lemma mathMax_lub a b h : leq a h -> leq b h -> leq (mathMax a b) h.
Proof.
  intros Ha Hb.
  destruct (leq_notNaN _ _ Ha) as [Hna _], (leq_notNaN _ _ Hb) as [Hnb _].
  destruct (mathMax_cases a b Hna Hnb) as [-> | ->]; assumption.
Qed.

Lemma mathMin_glb a b l : leq l a -> leq l b -> leq l (mathMin a b).
Proof.
  intros Ha Hb.
  destruct (leq_notNaN _ _ Ha) as [_ Hna], (leq_notNaN _ _ Hb) as [_ Hnb].
  destruct (mathMin_cases a b Hna Hnb) as [-> | ->]; assumption.
Qed.

(** Once NaN, a running maximum or minimum stays NaN. *)
Lemma fold_mathMax_NaN ps : fold_left mathMax ps NaN = NaN.
Proof. induction ps as [ | p ps IH ]; [ reflexivity | exact IH ]. Qed.

Lemma fold_mathMin_NaN ps : fold_left mathMin ps NaN = NaN.
Proof. induction ps as [ | p ps IH ]; [ reflexivity | exact IH ]. Qed.

(** A list of numbers holds NaN or does not. *)
Lemma NaN_dec (ps : list number) : In NaN ps \/ ~ In NaN ps.
Proof.
  induction ps as [ | p ps [ IH | IH ] ]; [ right; intros [] | left | ].
  - now right.
  - destruct p as [ x | | s | ]; [ right | right | right | left; now left ];
      intros [ H | H ]; try discriminate H; contradiction.
Qed.

(** The running maximum is the largest of the start and the prices seen. *)
Lemma running_max ps : forall a,
  ~ In NaN (a :: ps) ->
  In (fold_left mathMax ps a) (a :: ps)
  /\ leq a (fold_left mathMax ps a)
  /\ Forall (fun p => leq p (fold_left mathMax ps a)) ps.
Proof.
  induction ps as [ | p ps IH ]; intros a Hnan; cbn [fold_left].
  - split; [ now left | ].
    split; [ apply leq_refl; intros ->; apply Hnan; now left | constructor ].
  - assert (Ha : a <> NaN) by (intros ->; apply Hnan; now left).
    assert (Hp : p <> NaN) by (intros ->; apply Hnan; right; now left).
    destruct (mathMax_upper a p Ha Hp) as [Hua Hup].
    destruct (IH (mathMax a p)) as (Hin & Hle & Hall).
    { intros [ H | H ]; [ apply mathMax_NaN in H as [ H | H ]; congruence | ].
      apply Hnan. right. now right. }
    split; [ | split ].
    + destruct Hin as [Hin | Hin]; [ | right; now right ].
      rewrite <- Hin. destruct (mathMax_cases a p Ha Hp) as [-> | ->];
        [ now left | right; now left ].
    + eapply leq_trans; eassumption.
    + constructor; [ | exact Hall ]. eapply leq_trans; eassumption.
Qed.

Lemma running_min ps : forall a,
  ~ In NaN (a :: ps) ->
  In (fold_left mathMin ps a) (a :: ps)
  /\ leq (fold_left mathMin ps a) a
  /\ Forall (fun p => leq (fold_left mathMin ps a) p) ps.
Proof.
  induction ps as [ | p ps IH ]; intros a Hnan; cbn [fold_left].
  - split; [ now left | ].
    split; [ apply leq_refl; intros ->; apply Hnan; now left | constructor ].
  - assert (Ha : a <> NaN) by (intros ->; apply Hnan; now left).
    assert (Hp : p <> NaN) by (intros ->; apply Hnan; right; now left).
    destruct (mathMin_lower a p Ha Hp) as [Hla Hlp].
    destruct (IH (mathMin a p)) as (Hin & Hle & Hall).
    { intros [ H | H ]; [ apply mathMin_NaN in H as [ H | H ]; congruence | ].
      apply Hnan. right. now right. }
    split; [ | split ].
    + destruct Hin as [Hin | Hin]; [ | right; now right ].
      rewrite <- Hin. destruct (mathMin_cases a p Ha Hp) as [-> | ->];
        [ now left | right; now left ].
    + eapply leq_trans; eassumption.
    + constructor; [ | exact Hall ]. eapply leq_trans; eassumption.
Qed.

Lemma running_extrema a ps :
  ~ In NaN (a :: ps) ->
  extrema (fold_left mathMax ps a) (fold_left mathMin ps a) (a :: ps).
Proof.
  intros Hnan.
  destruct (running_max ps a Hnan) as (Hin & Hle & Hall).
  destruct (running_min ps a Hnan) as (Hin' & Hle' & Hall').
  split; [ exact Hin | ]. split; [ exact Hin' | ].
  constructor; [ now split | ].
  rewrite Forall_forall in *. intros p Hp.
  split; [ now apply Hall' | now apply Hall ].
Qed.

Lemma extrema_bounds h l ps p :
  extrema h l ps -> In p ps -> leq l p /\ leq p h.
Proof.
  intros (_ & _ & Hall) Hp. rewrite Forall_forall in Hall.
  apply Hall. now apply list_elem_of_In.
Qed.

End NumberProofs.

(** ** The candle generator *)

Module DexProofs.
Import JS PRNG Dex Spec EngineProofs ArrayProofs NumberProofs.
Local Open Scope Q_scope.

Lemma last_nonempty {A} (q : A) ps d d' :
  List.last (q :: ps) d = List.last (q :: ps) d'.
Proof.
  revert q. induction ps as [ | r ps IH ]; intros q; [ reflexivity | ].
  change (List.last (r :: ps) d = List.last (r :: ps) d'). apply IH.
Qed.

Lemma last_cons {A} (p : A) ps d : List.last (p :: ps) d = List.last ps p.
Proof. destruct ps as [ | q ps ]; [ reflexivity | apply (last_nonempty q ps d p) ]. Qed.

Lemma last_In {A} (a : A) ps : In (List.last ps a) (a :: ps).
Proof.
  revert a. induction ps as [ | p ps IH ]; intros a; [ now left | ].
  rewrite last_cons. right. apply IH.
Qed.

(** Rounding to a fixed number of decimals keeps the order. *)
Lemma roundHalfAway_le x y : x <= y -> (roundHalfAway x <= roundHalfAway y)%Z.
Proof.
  intros Hxy. unfold roundHalfAway.
  destruct (Qle_bool 0 x) eqn:Hx, (Qle_bool 0 y) eqn:Hy.
  - apply Qfloor_resp_le. now apply Qplus_le_l.
  - apply Qle_bool_iff in Hx.
    assert (Hy' : 0 <= y) by (eapply Qle_trans; eassumption).
    apply Qle_bool_iff in Hy'. congruence.
  - apply Qle_bool_iff in Hy.
    assert (Hnx : ~ 0 <= x) by (rewrite <- Qle_bool_iff; congruence).
    apply Qnot_le_lt in Hnx.
    assert (H1 : (0 <= Qfloor (- x + (1 # 2)))%Z).
    { change 0%Z with (Qfloor 0). apply Qfloor_resp_le.
      apply Qlt_le_weak in Hnx. apply Qopp_le_compat in Hnx.
      change (- 0) with 0 in Hnx.
      change 0 with (0 + 0). apply Qplus_le_compat; [ exact Hnx | discriminate ]. }
    assert (H2 : (0 <= Qfloor (y + (1 # 2)))%Z).
    { change 0%Z with (Qfloor 0). apply Qfloor_resp_le.
      change 0 with (0 + 0). apply Qplus_le_compat; [ exact Hy | discriminate ]. }
    lia.
  - apply Z.opp_le_mono. rewrite !Z.opp_involutive.
    apply Qfloor_resp_le. apply Qplus_le_l. now apply Qopp_le_compat.
Qed.

Lemma nearestDecimal_le digits x y :
  x <= y -> nearestDecimal digits x <= nearestDecimal digits y.
Proof.
  intros Hxy. unfold nearestDecimal, Qle. cbn [Qnum Qden].
  apply Z.mul_le_mono_nonneg_r; [ lia | ].
  apply roundHalfAway_le. apply Qmult_le_compat_r; [ exact Hxy | ].
  assert (H : (0 <= 10 ^ Z.of_nat digits)%Z) by (apply Z.pow_nonneg; lia).
  unfold Qle, inject_Z. cbn [Qnum Qden]. lia.
Qed.

Lemma nearestDecimal_0 digits : nearestDecimal digits 0 == 0.
Proof.
  unfold nearestDecimal, roundHalfAway.
  assert (H0 : 0 * inject_Z (10 ^ Z.of_nat digits) == 0) by apply Qmult_0_l.
  assert (Hle : Qle_bool 0 (0 * inject_Z (10 ^ Z.of_nat digits)) = true)
    by (apply Qle_bool_iff; rewrite H0; apply Qle_refl).
  rewrite Hle.
  assert (Hf : Qfloor (0 * inject_Z (10 ^ Z.of_nat digits) + (1 # 2)) = 0%Z).
  { rewrite (Qfloor_comp _ (1 # 2)); [ reflexivity | ].
    rewrite H0. reflexivity. }
  rewrite Hf. reflexivity.
Qed.

(** What [toFixed] stores for a finite number: a finite number whose value
    is the nearest decimal. *)
Lemma toFixed_Fin digits q :
  (toFixed digits (Fin q) = NegZero /\ nearestDecimal digits q == 0)
  \/ toFixed digits (Fin q) = Fin (nearestDecimal digits q).
Proof.
  unfold toFixed. cbv zeta.
  destruct (Z.eqb_spec (Qnum (nearestDecimal digits q)) 0) as [Hz | Hz];
    [ | right; reflexivity ].
  destruct (Qle_bool 0 q); [ right; reflexivity | left ].
  split; [ reflexivity | ].
  unfold Qeq. rewrite Hz. reflexivity.
Qed.

Lemma toFixed_NaN digits x : toFixed digits x = NaN -> x = NaN.
Proof.
  destruct x as [ q | | s | ]; try discriminate; [ | reflexivity ].
  destruct (toFixed_Fin digits q) as [[-> _] | ->]; discriminate.
Qed.

Lemma toFixed_leq digits a b :
  leq a b -> leq (toFixed digits a) (toFixed digits b).
Proof.
  pose proof (nearestDecimal_0 digits) as H0.
  destruct a as [ x | | [] | ], b as [ y | | [] | ];
    try (intros H; discriminate H); try (intros _; reflexivity);
    intros H; unfold leq in *; cbn [lessEq valueOf] in H;
    try apply Qle_bool_iff in H;
    try (pose proof (nearestDecimal_le digits _ _ H) as Hd);
    repeat match goal with
           | |- context [toFixed digits (Fin ?q)] =>
               destruct (toFixed_Fin digits q) as [[-> ?] | ->]
           end;
    cbn [toFixed lessEq valueOf implb negb];
    try reflexivity; apply Qle_bool_iff; lra.
Qed.

(** The samplers of the inner loop always return. *)
Lemma tickPrice_returns Math drift volatility ticks current register :
  exists p,
    tickPrice Math drift volatility ticks current register
    = (Returned p, snd (next (snd (next register)))).
Proof.
  destruct (gaussian_returns Math (Fin 0) (Fin 1) register) as [g Hg].
  eexists. unfold tickPrice. rewrite (bind_returned _ _ _ _ _ Hg).
  reflexivity.
Qed.

(** The inner loop follows the sub-step prices and keeps their running
    maximum and minimum. *)
Lemma repeat_tickStep Math drift volatility ticks (n : nat) :
  forall high low current register,
  exists ps register',
    tickPrices Math drift volatility ticks n current register
    = (Returned ps, register')
    /\ repeatM n (tickStep Math drift volatility ticks) (high, low, current)
               register
       = (Returned (fold_left mathMax ps high, fold_left mathMin ps low,
                    List.last ps current), register')
    /\ length ps = n.
Proof.
  induction n as [ | n IH ]; intros high low current register.
  - exists [], register. repeat split.
  - destruct (tickPrice_returns Math drift volatility ticks current register)
      as [p Hp].
    destruct (IH (mathMax high p) (mathMin low p) p
                (snd (next (snd (next register)))))
      as (ps & register' & Hps & Hrun & Hlen).
    exists (p :: ps), register'. split; [ | split ].
    + cbn [tickPrices]. rewrite (bind_returned _ _ _ _ _ Hp).
      rewrite (bind_returned _ _ _ _ _ Hps). reflexivity.
    + cbn [repeatM]. unfold tickStep at 1.
      erewrite bind_returned
        by (rewrite (bind_returned _ _ _ _ _ Hp); reflexivity).
      rewrite Hrun, last_cons. reflexivity.
    + simpl. now rewrite Hlen.
Qed.

Lemma orDraw_returns Math opts field min max register :
  exists v register',
    orDraw opts field (float Math min max) register = (Returned v, register').
Proof.
  unfold orDraw. destruct (opts ≫= field) as [ v | ].
  - exists v, register. reflexivity.
  - destruct (float_returns Math min max register) as [v Hv]. eauto.
Qed.

Lemma int_10_50 register :
  exists ticks,
    int 10 50 register = (Returned ticks, snd (next register))
    /\ (10 <= ticks <= 50)%Z.
Proof.
  rewrite int_eq. eexists. split; [ reflexivity | ].
  pose proof (scaled_floor_range (nextWord register) (50 - 10 + 1)
                (nextWord_range register)) as H.
  lia.
Qed.

(** One turn of the outer loop: the candle it appends. *)
Lemma candleStep_spec Math drift volatility startTime intervalSec
      price cs (i : Z) register :
  exists ticks ps c r1 r2 r3,
    int 10 50 register = (Returned ticks, r1)
    /\ (10 <= ticks <= 50)%Z
    /\ tickPrices Math drift volatility ticks (Z.to_nat ticks) price r1
       = (Returned ps, r2)
    /\ length ps = Z.to_nat ticks
    /\ candleStep Math drift volatility startTime intervalSec (price, cs) i
                  register
       = (Returned (List.last ps price, cs ++ [c]), r3)
    /\ timestamp c = (startTime + i * intervalSec)%Z
    /\ open c = toFixed 8 price
    /\ close c = toFixed 8 (List.last ps price)
    /\ high c = toFixed 8 (fold_left mathMax ps price)
    /\ low c = toFixed 8 (fold_left mathMin ps price).
Proof.
  destruct (int_10_50 register) as (ticks & Hint & Hticks).
  destruct (repeat_tickStep Math drift volatility ticks (Z.to_nat ticks)
              price price price (snd (next register)))
    as (ps & r2 & Hps & Hrun & Hlen).
  destruct (powerLaw_returns Math (Fin 1000) (Fin 10000000) (Fin (13 # 10)) r2)
    as [bv Hbv].
  eexists ticks, ps, _, (snd (next register)), r2, (snd (next r2)).
  split; [ exact Hint | ]. split; [ exact Hticks | ].
  split; [ exact Hps | ]. split; [ exact Hlen | ].
  split.
  { unfold candleStep.
    rewrite (bind_returned _ _ _ _ _ Hint).
    rewrite (bind_returned _ _ _ _ _ Hrun). cbv iota beta zeta.
    rewrite (bind_returned _ _ _ _ _ Hbv). reflexivity. }
  repeat split.
Qed.

(** Rounded extrema are the extrema of the rounded prices. *)
Lemma extrema_toFixed digits h l ps :
  extrema h l ps ->
  extrema (toFixed digits h) (toFixed digits l) (map (toFixed digits) ps).
Proof.
  intros (Hh & Hl & Hall).
  split; [ now apply in_map | ]. split; [ now apply in_map | ].
  rewrite Forall_forall in *. intros q Hq.
  apply list_elem_of_In, in_map_iff in Hq as (p & <- & Hp).
  apply list_elem_of_In, Hall in Hp as [H1 H2].
  split; now apply toFixed_leq.
Qed.

Lemma candle_of_extrema (c : OHLCVCandle) o cl h l :
  leq l o -> leq o h -> leq l cl -> leq cl h ->
  open c = toFixed 8 o -> close c = toFixed 8 cl ->
  high c = toFixed 8 h -> low c = toFixed 8 l ->
  candleOrdered c.
Proof.
  intros Hlo Hoh Hlc Hch Ho Hc Hh Hl.
  unfold candleOrdered. rewrite Ho, Hc, Hh, Hl.
  pose proof (toFixed_leq 8 _ _ Hlo). pose proof (toFixed_leq 8 _ _ Hoh).
  pose proof (toFixed_leq 8 _ _ Hlc). pose proof (toFixed_leq 8 _ _ Hch).
  repeat (split; [ assumption | ]).
  split; [ now apply mathMin_glb | now apply mathMax_lub ].
Qed.

Lemma candleStep_ok Math drift volatility startTime intervalSec
      price cs (i : Z) register :
  Forall (candleOfTicks Math drift volatility) cs ->
  exists price' cs' register',
    candleStep Math drift volatility startTime intervalSec (price, cs) i
               register
    = (Returned (price', cs'), register')
    /\ Forall (candleOfTicks Math drift volatility) cs'
    /\ length cs' = S (length cs).
Proof.
  intros Hcs.
  destruct (candleStep_spec Math drift volatility startTime intervalSec
              price cs i register)
    as (ticks & ps & c & r1 & r2 & r3 & Hint & _ & Hps & Hlen & Hstep & _
        & Ho & Hc & Hh & Hl).
  exists (List.last ps price), (cs ++ [c]), r3.
  split; [ exact Hstep | ].
  split; [ | rewrite length_app; simpl; lia ].
  apply Forall_app_2; [ exact Hcs | ].
  apply Forall_cons_2; [ | apply Forall_nil_2 ].
  exists price, register, ticks, ps, r1, r2.
  repeat (split; [ assumption | ]).
  destruct (NaN_dec (price :: ps)) as [Hnan | Hnan]; [ now left | right ].
  pose proof (running_extrema price ps Hnan) as Hext.
  split; [ exact Hext | ].
  split; [ rewrite Hh, Hl; now apply extrema_toFixed | ].
  destruct (extrema_bounds _ _ _ price Hext) as [H1 H2]; [ now left | ].
  destruct (extrema_bounds _ _ _ (List.last ps price) Hext) as [H3 H4];
    [ apply last_In | ].
  exact (candle_of_extrema c _ _ _ _ H1 H2 H3 H4 Ho Hc Hh Hl).
Qed.

Lemma foldM_candleStep Math drift volatility startTime intervalSec
      (idxs : list Z) :
  forall price cs register,
    Forall (candleOfTicks Math drift volatility) cs ->
    exists price' cs' register',
      foldM (candleStep Math drift volatility startTime intervalSec) idxs
            (price, cs) register
      = (Returned (price', cs'), register')
      /\ Forall (candleOfTicks Math drift volatility) cs'
      /\ length cs' = (length cs + length idxs)%nat.
Proof.
  induction idxs as [ | i idxs IH ]; intros price cs register Hcs.
  - exists price, cs, register. repeat split; [ exact Hcs | simpl; lia ].
  - destruct (candleStep_ok Math drift volatility startTime intervalSec
                price cs i register Hcs)
      as (price1 & cs1 & r1 & Hstep & Hcs1 & Hlen1).
    destruct (IH price1 cs1 r1 Hcs1) as (price' & cs' & r' & Hrun & Hcs' & Hlen').
    exists price', cs', r'. split; [ | split; [ exact Hcs' | simpl; lia ] ].
    cbn [foldM]. now rewrite (bind_returned _ _ _ _ _ Hstep).
Qed.

Lemma candles_run Math nowMs count opts register :
  exists cs register' drift volatility,
    candles Math nowMs count opts register = (Returned cs, register')
    /\ length cs = Z.to_nat count
    /\ Forall (candleOfTicks Math drift volatility) cs.
Proof.
  destruct (orDraw_returns Math opts startPrice (Fin (1 # 2)) (Fin 5000)
              register)
    as (sp & r1 & Hsp).
  destruct (orDraw_returns Math opts Dex.volatility (Fin (1 # 100))
              (Fin (8 # 100)) r1)
    as (vol & r2 & Hvol).
  destruct (orDraw_returns Math opts Dex.drift (Fin (- (1 # 1000)))
              (Fin (1 # 1000)) r2)
    as (dr & r3 & Hdr).
  destruct (foldM_candleStep Math dr vol
              (nowMs / 1000
               - count * intervals (default I1h (opts ≫= interval)))%Z
              (intervals (default I1h (opts ≫= interval)))
              (map Z.of_nat (seq 0 (Z.to_nat count))) sp [] r3)
    as (price' & cs & r' & Hrun & Hcs & Hlen); [ constructor | ].
  exists cs, r', dr, vol. split; [ | split; [ | exact Hcs ] ].
  - unfold candles.
    rewrite (bind_returned _ _ _ _ _ Hsp).
    rewrite (bind_returned _ _ _ _ _ Hvol).
    rewrite (bind_returned _ _ _ _ _ Hdr). cbv zeta.
    rewrite (bind_returned _ _ _ _ _ Hrun). reflexivity.
  - rewrite Hlen, length_map, length_seq. reflexivity.
Qed.

End DexProofs.

Module EngineClaims.
Import JS PRNG Int32Facts EngineProofs.

(** C3.  For every register value, [next] returns [k / 2^32] for a natural
    number [k] below [2^32], so a value in the half-open interval from 0
    to 1, and [k] is the unsigned 32-bit word of the Mulberry32 formula
    computed with every addition and multiplication truncated to 32 bits. *)
Theorem next_is_mulberry32 (register : Z) :
  exists k : Z,
    fst (next register) = Returned (k # 4294967296)
    /\ 0 <= k < 2 ^ 32
    /\ (0 <= k # 4294967296 < 1)%Q
    /\ k = Spec.mulberry32 register.
Proof.
  exists (nextWord register). rewrite next_eq. split; [ reflexivity | ].
  split; [ apply nextWord_range | ].
  split; [ apply next_value_bounds | apply nextWord_mulberry32 ].
Qed.






(** C5, as the code has it.  [powerLaw] checks nothing and never fails:
    for all arguments it first draws [u = next ()], so the register
    advances by one step, and then returns what the inverse-CDF formula
    gives in double arithmetic at [u], a number that may be an infinity or
    NaN. *)
Theorem powerLaw_always_draws (Math : MathLib) (min max alpha : number)
        (register : Z) :
  exists (u : Q) (register' : Z),
    next register = (Returned u, register')
    /\ powerLaw Math min max alpha register
       = (Returned
            (pow Math
                 (fadd Math
                    (pow Math min (fsub Math (Fin 1) alpha))
                    (fmul Math (Fin u)
                       (fsub Math (pow Math max (fsub Math (Fin 1) alpha))
                                  (pow Math min (fsub Math (Fin 1) alpha)))))
                 (fdiv Math (Fin 1) (fsub Math (Fin 1) alpha))),
          register').
Proof.
  destruct (next_returns register) as [u Hu].
  exists u, (snd (next register)). split; [ exact Hu | ].
  unfold powerLaw. now rewrite (bind_returned _ _ _ _ _ Hu).
Qed.

(** C5, as stated, fails at [alpha = 1], at [min = 0] and at [max < min]:
    no such call fails, and the call leaves the register advanced. *)
Lemma powerLaw_never_rejects :
  ~ (exists Math e s,
        powerLaw Math (Fin 1) (Fin 2) (Fin 1) 0 = (Thrown e, s))
  /\ ~ (exists Math e s,
           powerLaw Math (Fin 0) (Fin 2) (Fin (3 # 2)) 0 = (Thrown e, s))
  /\ ~ (exists Math e s,
           powerLaw Math (Fin 2) (Fin 1) (Fin (3 # 2)) 0 = (Thrown e, s))
  /\ ~ (exists Math, snd (powerLaw Math (Fin 1) (Fin 2) (Fin 1) 0) = 0).
Proof.
  assert (Hnext : snd (next 0) = 1831565813) by (vm_compute; reflexivity).
  repeat split.
  1-3: intros (Math & e & s & H);
    match type of H with
    | powerLaw ?m ?a ?b ?c ?r = _ =>
        destruct (powerLaw_returns m a b c r) as [v Hv]
    end;
    rewrite Hv in H; discriminate H.
  intros (Math & H).
  destruct (powerLaw_returns Math (Fin 1) (Fin 2) (Fin 1) 0) as [v Hv].
  rewrite Hv in H. cbn [snd] in H. rewrite Hnext in H. discriminate H.
Qed.

End EngineClaims.

Module ArrayClaims.
Import JS PRNG Spec Int32Facts EngineProofs ArrayProofs.



(** C10.  [shuffle] returns the array object it was given; afterwards that
    array holds a permutation of what it held before, and every other array
    is as it was.  On an array of length 0 or 1 the call changes nothing:
    not the array, and not the register. *)
Theorem shuffle_permutes {T : Type} (arr : nat) (items : list (option T))
        (w : World T) :
  heap w !! arr = Some items ->
  exists (w' : World T) (items' : list (option T)),
    shuffle arr w = (Returned arr, w')
    /\ heap w' !! arr = Some items'
    /\ items' ≡ₚ items
    /\ sameElsewhere arr w w'
    /\ ((1 < length items)%nat \/ w' = w).
Proof.
  intros Harr.
  destruct (forEach_shuffleStep arr (rev (seq 1 (length items - 1))) w items
              Harr) as (w' & items' & Hrun & Harr' & Hperm & Hsame).
  { apply Forall_forall. intros i Hi.
    apply list_elem_of_In in Hi. rewrite <- in_rev in Hi.
    apply in_seq in Hi. lia. }
  exists w', items'.
  assert (Hshuffle : shuffle arr w = (Returned arr, w')).
  { unfold shuffle.
    erewrite bind_returned by (unfold readArray; rewrite Harr; reflexivity).
    rewrite countdown_eq.
    now rewrite (bind_returned _ _ _ _ _ Hrun). }
  repeat (split; [ assumption | ]).
  destruct (decide (1 < length items)%nat) as [Hlen | Hlen]; [ now left | ].
  right.
  replace (length items - 1)%nat with 0%nat in Hrun by lia.
  simpl in Hrun. unfold ret in Hrun. congruence.
Qed.

Lemma shuffle_permutes_witness :
  heap sampleWorld !! 7%nat = Some sampleItems
  /\ exists (w' : World Z) (items' : list (option Z)),
       shuffle 7 sampleWorld = (Returned 7%nat, w')
       /\ heap w' !! 7%nat = Some items'
       /\ items' ≡ₚ sampleItems
       /\ sameElsewhere 7 sampleWorld w'
       /\ ((1 < length sampleItems)%nat \/ w' = sampleWorld).
Proof.
  assert (H : heap sampleWorld !! 7%nat = Some sampleItems)
    by (vm_compute; reflexivity).
  split; [ exact H | exact (shuffle_permutes 7 sampleItems sampleWorld H) ].
Defined.

End ArrayClaims.

Module DexClaims.
Import JS PRNG Dex Spec Props DexProofs.
Local Open Scope Q_scope.

(** C8, as the code has it.  Every run of [candles] returns [count]
    candles, and each comes from the sub-step prices of one turn of the
    outer loop: it opens at the price before the turn and closes at the
    last sub-step price, its [high] and [low] are the running [Math.max]
    and [Math.min] of the sub-step prices, the opening price counted as
    the first, and the four are stored rounded to eight decimals.  Unless
    a sub-step price is NaN, the running maximum and minimum are the
    largest and the smallest sub-step price, the stored [high] and [low]
    are the largest and the smallest of the rounded sub-step prices, and
    [low <= open <= high], [low <= close <= high],
    [low <= min (open, close)] and [max (open, close) <= high] hold of the
    stored prices. *)
Theorem candles_ordered (Math : MathLib) (nowMs count : Z)
        (opts : option CandleOpts) (register : Z) :
  exists (cs : list OHLCVCandle) (register' : Z) (drift volatility : number),
    candles Math nowMs count opts register = (Returned cs, register')
    /\ length cs = Z.to_nat count
    /\ Forall (candleOfTicks Math drift volatility) cs.
Proof. exact (candles_run Math nowMs count opts register). Qed.

(** C8, as stated, fails: the stored [high] is the rounded maximum, not
    the maximum.  On a flat path from the start price [1 + 2^-30] every
    sub-step price is the start price, and the candle stores 1 as its
    [high] and as its [low]: a [high] below every sub-step price. *)
Lemma candles_store_rounded_extrema :
  exists (c : OHLCVCandle) (register' : Z) (ps : list number) (r : Z),
    candles sampleMath 0%Z 1%Z (Some flatOpts) 42%Z
    = (Returned [c], register')
    /\ firstTicks sampleMath flatStart (Fin 0) (Fin 0) 42%Z = (Returned ps, r)
    /\ forallb (fun p => lessEq flatStart p && lessEq p flatStart) ps = true
    /\ high c = Fin (100000000 # 100000000)
    /\ low c = Fin (100000000 # 100000000)
    /\ forallb (fun p => lessThan (high c) p) (flatStart :: ps) = true.
Proof.
  eexists _, _, _, _.
  split; [ vm_compute; reflexivity | ].
  split; [ vm_compute; reflexivity | ].
  repeat split; vm_compute; reflexivity.
Qed.

End DexClaims.

Module KeccakClaims.
Import JS Keccak Spec FoldFacts KeccakProofs.

(** C9.  In every digest computation, every state the permutation passes
    through (97 for each 136-byte block: one after the absorption of the
    block and one after Theta, Rho and Pi, Chi and Iota of each of the 24
    rounds) has 25 lanes, each a non-negative integer below [2^64]; the
    digest is read off the last of these states and has exactly 32 bytes,
    each from 0 to 255. *)
Theorem keccak256_lanes_in_range (input : list Z) :
  length (snd (keccakTraced input)) = (97 * S (length input / 136))%nat
  /\ Forall lanesOk (snd (keccakTraced input))
  /\ keccak256 input = squeeze (fst (keccakTraced input))
  /\ lanesOk (fst (keccakTraced input))
  /\ length (keccak256 input) = 32%nat
  /\ Forall (fun b => 0 <= b <= 255) (keccak256 input).
Proof.
  destruct (absorbTraced_ok (pad input) (replicate 25 0) (offsets (pad input))
              (pad_bytes input) initial_lanes) as [Hlast Htrace].
  split.
  { unfold keccakTraced. rewrite absorbTraced_length.
    now rewrite (proj1 (offsets_length input)). }
  split; [ exact Htrace | ].
  split; [ unfold keccak256; now rewrite keccakTraced_absorb | ].
  split; [ exact Hlast | ].
  destruct (squeeze_bytes (absorb (pad input) (replicate 25 0))) as [Hlen Hall].
  split; [ exact Hlen | ].
  unfold keccak256. eapply Forall_impl; [ exact Hall | ].
  unfold isByte. intros b Hb. cbv beta in Hb. lia.
Qed.

End KeccakClaims.

Module DigestClaims.
Import JS Keccak Address Spec KeccakProofs AddressProofs.
Local Open Scope string_scope.
Local Open Scope Z_scope.

(** C1, as the code has it.  The digest of the empty input has 32 bytes
    and reads c5d2...a470 in lower-case hexadecimal, 64 characters ending
    in a zero; the digest of the three bytes of "abc" reads 4e03...6c45. *)
Theorem keccak256_known_answers :
  length (keccak256 []) = 32%nat
  /\ keccak256Bytes []
     = "c5d2460186f7233c927e7db2dcc703c0e500b653ca82273b7bfad8045d85a470"
  /\ keccak256Hex ""
     = "c5d2460186f7233c927e7db2dcc703c0e500b653ca82273b7bfad8045d85a470"
  /\ encodeAscii "abc" = [97; 98; 99]
  /\ keccak256Bytes [97; 98; 99]
     = "4e03657aea45a94fc7d47ba826c8d667c0d1e6e33a64a036ec44f58fa12d6c45".
Proof. repeat split; vm_compute; reflexivity. Qed.

(** C1, as stated, fails: the quoted digest of the empty input has 63
    characters, and the hex dump of 32 bytes has 64. *)
Lemma keccak256_empty_digest_is_not_the_quoted_one :
  keccak256Bytes []
  <> "c5d2460186f7233c927e7db2dcc703c0e500b653ca82273b7bfad8045d85a47"
  /\ String.length
       "c5d2460186f7233c927e7db2dcc703c0e500b653ca82273b7bfad8045d85a47"
     = 63%nat
  /\ String.length (keccak256Bytes []) = 64%nat.
Proof.
  split; [ | split; vm_compute; reflexivity ].
  apply String.eqb_neq. vm_compute. reflexivity.
Qed.

(** C2, as the code has it.  For 20 bytes, [toChecksumAddress] dumps them
    as 40 lower-case hex characters, hashes the character codes of that
    text, and returns "0x" followed by the 40 characters, each upper-cased
    exactly when its digest nibble is 8 or more.  The bytes that dump as
    5aaeb6053f3e94c9b9a09f33669435e7ef1beaed come out as
    5aAeb6053F3E94C9b9A09f33669435E7Ef1BeAed. *)
Theorem toChecksumAddress_eip55 (bytes : list Z) :
  length bytes = 20%nat ->
  Forall isByte bytes ->
  list_ascii_of_string (hexOfBytes bytes) = lowerHex bytes
  /\ length (lowerHex bytes) = 40%nat
  /\ toChecksumAddress bytes
     = Returned ("0x" ++ string_of_list_ascii (checksumCase bytes))
  /\ (hexOfBytes bytes = "5aaeb6053f3e94c9b9a09f33669435e7ef1beaed" ->
      toChecksumAddress bytes
      = Returned "0x5aAeb6053F3E94C9b9A09f33669435E7Ef1BeAed").
Proof.
  intros Hlen Hbytes.
  split; [ now apply hexOfBytes_lowerHex | ].
  split; [ rewrite lowerHex_length, Hlen; reflexivity | ].
  split; [ now apply toChecksumAddress_checksumCase | ].
  intros Hhex.
  rewrite (toChecksumAddress_hex bytes eip55Bytes)
    by (rewrite Hhex; vm_compute; reflexivity).
  vm_compute. reflexivity.
Qed.

Lemma toChecksumAddress_eip55_witness :
  length eip55Bytes = 20%nat
  /\ Forall isByte eip55Bytes
  /\ hexOfBytes eip55Bytes = "5aaeb6053f3e94c9b9a09f33669435e7ef1beaed"
  /\ toChecksumAddress eip55Bytes
     = Returned "0x5aAeb6053F3E94C9b9A09f33669435E7Ef1BeAed".
Proof.
  assert (Hlen : length eip55Bytes = 20%nat) by reflexivity.
  assert (Hbytes : Forall isByte eip55Bytes)
    by (unfold eip55Bytes, isByte; repeat (constructor; [ lia | ]); constructor).
  assert (Hhex : hexOfBytes eip55Bytes
                 = "5aaeb6053f3e94c9b9a09f33669435e7ef1beaed")
    by (vm_compute; reflexivity).
  split; [ exact Hlen | ]. split; [ exact Hbytes | ]. split; [ exact Hhex | ].
  exact (proj2 (proj2 (proj2 (toChecksumAddress_eip55 eip55Bytes Hlen Hbytes)))
               Hhex).
Defined.

(** C2, as stated, fails on its test vector: the result differs from the
    quoted casing, with the prefix and without it. *)
Lemma toChecksumAddress_is_not_the_quoted_casing :
  toChecksumAddress eip55Bytes
  <> Returned "5aAeb6053F3e94C9b9A09f33669435E7Ef1BeAeD"
  /\ toChecksumAddress eip55Bytes
     <> Returned "0x5aAeb6053F3e94C9b9A09f33669435E7Ef1BeAeD".
Proof.
  assert (H : toChecksumAddress eip55Bytes
              = Returned "0x5aAeb6053F3E94C9b9A09f33669435E7Ef1BeAed")
    by (vm_compute; reflexivity).
  rewrite H. split; intros Heq; discriminate Heq.
Qed.

End DigestClaims.

(** * Further properties *)

(** ** The engine *)

Module EngineExtraProofs.
Import JS PRNG Props Int32Facts EngineProofs.

Lemma ToInt32_congr a b : a mod 2 ^ 32 = b mod 2 ^ 32 -> ToInt32 a = ToInt32 b.
Proof.
  intros H. unfold ToInt32.
  rewrite (Zplus_mod a), (Zplus_mod b), H. reflexivity.
Qed.

Lemma ToInt32_mod a : ToInt32 a mod 2 ^ 32 = a mod 2 ^ 32.
Proof. apply ToUint32_ToInt32. Qed.

Lemma ToInt32_int32 a : int32 a -> ToInt32 a = a.
Proof.
  unfold int32, ToInt32. intros H. rewrite Z.mod_small; lia.
Qed.

Lemma ToInt32_is_int32 a : int32 (ToInt32 a).
Proof. apply ToInt32_range. Qed.

Lemma ToInt32_add_l a b : ToInt32 (ToInt32 a + b) = ToInt32 (a + b).
Proof.
  apply ToInt32_congr.
  rewrite Zplus_mod, ToInt32_mod, <- Zplus_mod. reflexivity.
Qed.

Lemma register_after_next register :
  snd (next register) = ToInt32 (register + 0x6d2b79f5).
Proof.
  rewrite next_eq. cbn [snd]. rewrite !bitor_0_r. apply ToInt32_add_l.
Qed.

Lemma registerAfter_S n register :
  registerAfter (S n) register
  = registerAfter n (ToInt32 (register + 0x6d2b79f5)).
Proof. cbn [registerAfter]. now rewrite register_after_next. Qed.

Lemma registerAfter_formula n : forall register,
  ToInt32 (registerAfter n register)
  = ToInt32 (register + Z.of_nat n * 0x6d2b79f5).
Proof.
  induction n as [ | n IH ]; intros register.
  - cbn [registerAfter]. f_equal. lia.
  - rewrite registerAfter_S, IH, ToInt32_add_l. f_equal. lia.
Qed.

Lemma registerAfter_int32 n : forall register,
  int32 register -> int32 (registerAfter n register).
Proof.
  induction n as [ | n IH ]; intros register H; [ exact H | ].
  rewrite registerAfter_S. apply IH, ToInt32_is_int32.
Qed.

(** The increment is odd, so it is a unit modulo [2^32]: its inverse is
    3696798301. *)
Lemma increment_unit n : (2 ^ 32 | n * 0x6d2b79f5) -> (2 ^ 32 | n).
Proof.
  intros [q Hq]. exists (q * 3696798301 - n * 1576479847). lia.
Qed.

Lemma mod_eq_divide a b :
  a mod 2 ^ 32 = b mod 2 ^ 32 <-> (2 ^ 32 | a - b).
Proof.
  split.
  - intros H. apply Z.mod_divide; [ lia | ].
    rewrite Zminus_mod, H, Z.sub_diag. reflexivity.
  - intros [k Hk]. replace a with (b + k * 2 ^ 32) by lia.
    apply Z_mod_plus_full.
Qed.

(** The draws of a sampler. *)
Lemma next_unit_interval register :
  exists x, next register = (Returned x, snd (next register))
            /\ (0 <= x < 1)%Q.
Proof.
  exists (nextWord register # 4294967296). split.
  - now rewrite next_eq.
  - apply next_value_bounds.
Qed.



Lemma int_byte register :
  exists b, int 0 255 register = (Returned b, snd (next register))
            /\ Spec.isByte b.
Proof.
  rewrite int_eq. eexists. split; [ reflexivity | ].
  pose proof (scaled_floor_range (nextWord register) (255 - 0 + 1)
                (nextWord_range register)) as H.
  unfold Spec.isByte. lia.
Qed.

Lemma byteDraws_run n : forall register,
  exists bs,
    byteDraws n register = (Returned bs, registerAfter n register)
    /\ length bs = n
    /\ Forall Spec.isByte bs.
Proof.
  induction n as [ | n IH ]; intros register.
  - exists []. repeat split. constructor.
  - destruct (int_byte register) as (b & Hb & Hbyte).
    destruct (IH (snd (next register))) as (bs & Hbs & Hlen & Hall).
    exists (b :: bs). split; [ | split ].
    + cbn [byteDraws registerAfter].
      rewrite (bind_returned _ _ _ _ _ Hb), (bind_returned _ _ _ _ _ Hbs).
      reflexivity.
    + cbn [length]. now rewrite Hlen.
    + now constructor.
Qed.

(** A loop that draws one byte a turn and folds it into its local. *)
Lemma foldM_byteDraws {V} (f : V -> Z -> V) (idxs : list nat) :
  forall (v : V) register bs register',
    byteDraws (length idxs) register = (Returned bs, register') ->
    foldM (fun v (_ : nat) => b <- int 0 255 ;; ret (f v b)) idxs v register
    = (Returned (fold_left f bs v), register').
Proof.
  induction idxs as [ | i idxs IH ]; intros v register bs register' Hbs.
  - cbn [length byteDraws] in Hbs. unfold ret in Hbs.
    injection Hbs as <- <-. reflexivity.
  - cbn [length byteDraws] in Hbs.
    destruct (int_byte register) as (b & Hb & _).
    rewrite (bind_returned _ _ _ _ _ Hb) in Hbs.
    destruct (byteDraws_run (length idxs) (snd (next register)))
      as (bs' & Hbs' & _ & _).
    rewrite (bind_returned _ _ _ _ _ Hbs') in Hbs.
    unfold ret in Hbs. injection Hbs as <- <-.
    cbn [foldM fold_left].
    erewrite bind_returned
      by (rewrite (bind_returned _ _ _ _ _ Hb); reflexivity).
    now apply IH.
Qed.

Lemma hex_bytes (bytes : Z) register :
  exists bs,
    byteDraws (Z.to_nat bytes) register
    = (Returned bs, registerAfter (Z.to_nat bytes) register)
    /\ length bs = Z.to_nat bytes
    /\ Forall Spec.isByte bs
    /\ hex bytes register
       = (Returned (fold_left (fun s b => (s ++ hex2 b)%string) bs EmptyString),
          registerAfter (Z.to_nat bytes) register)
    /\ bigint bytes register
       = (Returned (fold_left (fun n b => Z.lor (Z.shiftl n 8) b) bs 0),
          registerAfter (Z.to_nat bytes) register).
Proof.
  destruct (byteDraws_run (Z.to_nat bytes) register) as (bs & Hbs & Hlen & Hall).
  exists bs. repeat (split; [ assumption | ]).
  assert (Hseq : length (seq 0 (Z.to_nat bytes)) = Z.to_nat bytes)
    by apply length_seq.
  rewrite <- Hseq in Hbs at 1.
  split.
  - unfold hex.
    apply (foldM_byteDraws (fun s b => (s ++ hex2 b)%string) _ _ _ _ _ Hbs).
  - unfold bigint.
    apply (foldM_byteDraws (fun n b => Z.lor (Z.shiftl n 8) b) _ _ _ _ _ Hbs).
Qed.

(** Shifting in a byte is multiplying by 256 and adding it. *)
Lemma lor_shiftl_byte n b :
  Spec.isByte b -> Z.lor (Z.shiftl n 8) b = n * 256 + b.
Proof.
  unfold Spec.isByte. intros Hb.
  rewrite Z.shiftl_mul_pow2 by lia. change (2 ^ 8) with 256.
  rewrite <- Z.lxor_lor, <- Z.add_nocarry_lxor; try reflexivity.
  all: apply Z.bits_inj'; intros i Hi; rewrite Z.land_spec, Z.bits_0;
    destruct (Z.lt_ge_cases i 8) as [Hlt | Hge].
  all: try (change 256 with (2 ^ 8); rewrite Z.mul_pow2_bits_low by lia;
            reflexivity).
  all: replace b with (b mod 2 ^ 8) by (apply Z.mod_small; lia);
    rewrite Z.mod_pow2_bits_high by lia; apply andb_false_r.
Qed.

Lemma fold_lor_bigEndian bs : forall n,
  Forall Spec.isByte bs ->
  fold_left (fun n b => Z.lor (Z.shiftl n 8) b) bs n
  = fold_left (fun n b => n * 256 + b) bs n.
Proof.
  induction bs as [ | b bs IH ]; intros n Hall; [ reflexivity | ].
  apply Forall_cons in Hall as [Hb Hall].
  cbn [fold_left]. rewrite lor_shiftl_byte by exact Hb. now apply IH.
Qed.

Lemma fold_bigEndian_range bs : forall n k,
  Forall Spec.isByte bs -> 0 <= k -> 0 <= n < 256 ^ k ->
  0 <= fold_left (fun n b => n * 256 + b) bs n < 256 ^ (k + Z.of_nat (length bs)).
Proof.
  induction bs as [ | b bs IH ]; intros n k Hall Hk Hn.
  - cbn [fold_left length]. now rewrite Z.add_0_r.
  - apply Forall_cons in Hall as [Hb Hall]. unfold Spec.isByte in Hb.
    cbn [fold_left length].
    replace (k + Z.of_nat (S (length bs)))
      with ((k + 1) + Z.of_nat (length bs)) by lia.
    apply IH; [ exact Hall | lia | ].
    rewrite Z.pow_add_r by lia. change (256 ^ 1) with 256. nia.
Qed.


Lemma nextWord_congr a b : ToInt32 a = ToInt32 b -> nextWord a = nextWord b.
Proof.
  intros H. unfold nextWord. rewrite (bitor_0_r a), (bitor_0_r b), H.
  reflexivity.
Qed.

Lemma next_congr a b : ToInt32 a = ToInt32 b -> next a = next b.
Proof.
  intros H. rewrite !next_eq, (nextWord_congr a b H).
  rewrite (bitor_0_r a), (bitor_0_r b), H. reflexivity.
Qed.

Lemma chance_eq probability register :
  exists x,
    next register = (Returned x, snd (next register))
    /\ (0 <= x < 1)%Q
    /\ chance probability register
       = (Returned (negb (Qle_bool probability x)), snd (next register)).
Proof.
  destruct (next_unit_interval register) as (x & Hx & Hrange).
  exists x. split; [ exact Hx | ]. split; [ exact Hrange | ].
  unfold chance. now rewrite (bind_returned _ _ _ _ _ Hx).
Qed.

(** The scan of [weighted] ends on an element of a non-empty array. *)
Lemma weightedScan_item {T} (items : list (option T)) (weights : list Q)
      (n : nat) : forall (random : option Q) (i : nat),
  items <> [] -> (i + n = length items)%nat ->
  exists j, (j < length items)%nat
            /\ weightedScan items weights random i n
               = aget items (Z.of_nat j).
Proof.
  induction n as [ | n IH ]; intros random i Hne Hlen.
  - exists (length items - 1)%nat.
    assert (0 < length items)%nat by (destruct items; [ congruence | cbn; lia ]).
    split; [ lia | ]. cbn [weightedScan]. f_equal. lia.
  - cbn [weightedScan].
    destruct (match match random with
                    | Some r => match weights !! i with
                                | Some w => Some (r - w)%Q
                                | None => None
                                end
                    | None => None
                    end with
              | Some r => Qle_bool r 0
              | None => false
              end).
    + exists i. split; [ lia | reflexivity ].
    + apply IH; [ exact Hne | lia ].
Qed.


(** Cumulative weights. *)
Lemma cumulative_S (weights : list Q) (k : nat) (w : Q) :
  weights !! k = Some w ->
  cumulative weights (S k) = (cumulative weights k + w)%Q.
Proof.
  intros H. unfold cumulative.
  rewrite (take_S_r _ _ _ H), fold_left_app. reflexivity.
Qed.

Lemma cumulative_all (weights : list Q) :
  cumulative weights (length weights) = fold_left Qplus weights 0%Q.
Proof. unfold cumulative. now rewrite firstn_all. Qed.

Lemma fold_Qplus_nonneg (weights : list Q) : forall acc : Q,
  Forall (fun w => 0 <= w)%Q weights -> (0 <= acc)%Q ->
  (0 <= fold_left Qplus weights acc)%Q.
Proof.
  induction weights as [ | w weights IH ]; intros acc Hall Hacc;
    [ exact Hacc | ].
  apply Forall_cons in Hall as [Hw Hall]. cbn [fold_left].
  apply IH; [ exact Hall | lra ].
Qed.

(** With a weight for every item, the scan stops at the first index where
    the cumulative weight reaches the target. *)
Lemma weightedScan_cumulative {T} (items : list (option T))
      (weights : list Q) (target : Q) (n : nat) : forall (r : Q) (i : nat),
  length weights = length items ->
  (i + n = length items)%nat ->
  (0 < length items)%nat ->
  (target <= cumulative weights (length weights))%Q ->
  (r == target - cumulative weights i)%Q ->
  (forall k, (k < i)%nat -> cumulative weights (S k) < target)%Q ->
  exists j,
    (j < length items)%nat
    /\ weightedScan items weights (Some r) i n = aget items (Z.of_nat j)
    /\ (target <= cumulative weights (S j))%Q
    /\ (forall k, (k < j)%nat -> cumulative weights (S k) < target)%Q.
Proof.
  induction n as [ | n IH ]; intros r i Hlen Hin Hpos Htot Hr Hbelow.
  - exfalso.
    assert (Hi : i = S (length items - 1)) by lia.
    specialize (Hbelow (length items - 1)%nat ltac:(lia)).
    rewrite <- Hi in Hbelow.
    replace i with (length weights) in Hbelow by lia. lra.
  - destruct (lookup_lt_is_Some_2 weights i) as [w Hw]; [ lia | ].
    pose proof (cumulative_S weights i w Hw) as HS.
    cbn [weightedScan]. rewrite Hw.
    destruct (Qle_bool (r - w) 0) eqn:E.
    + exists i. split; [ lia | ]. split; [ reflexivity | ].
      apply Qle_bool_iff in E. split; [ rewrite HS; lra | exact Hbelow ].
    + assert (Hgt : (0 < r - w)%Q).
      { apply Qnot_le_lt. intros Hle. apply Qle_bool_iff in Hle. congruence. }
      apply IH; try assumption; [ lia | rewrite HS; lra | ].
      intros k Hk. destruct (decide (k = i)) as [-> | Hne].
      * rewrite HS. lra.
      * apply Hbelow. lia.
Qed.

(** With one non-negative weight an item, the scan stops at the first
    index where the cumulative weight reaches the target. *)
Lemma weighted_first_reached {T : Type} (items : list (option T))
      (weights : list Q) (register : Z) :
  items <> [] ->
  length weights = length items ->
  Forall (fun w => 0 <= w)%Q weights ->
  exists (x : Q) (j : nat),
    next register = (Returned x, snd (next register))
    /\ (j < length items)%nat
    /\ weighted items weights register
       = (Returned (Spec.itemAt items j), snd (next register))
    /\ (x * fold_left Qplus weights 0 <= cumulative weights (S j))%Q
    /\ (forall k, (k < j)%nat ->
                  cumulative weights (S k) < x * fold_left Qplus weights 0)%Q.
Proof.
  intros Hne Hlen Hall.
  destruct (next_unit_interval register) as (x & Hx & Hx0 & Hx1).
  assert (Hpos : (0 < length items)%nat)
    by (destruct items; [ congruence | cbn; lia ]).
  pose proof (fold_Qplus_nonneg weights 0 Hall ltac:(lra)) as Htot.
  destruct (weightedScan_cumulative items weights
              (x * fold_left Qplus weights 0)%Q (length items)
              (x * fold_left Qplus weights 0)%Q 0 Hlen eq_refl Hpos)
    as (j & Hj & Hscan & Hreach & Hbelow).
  - rewrite cumulative_all.
    assert (H : (x * fold_left Qplus weights 0
                 <= 1 * fold_left Qplus weights 0)%Q)
      by (apply Qmult_le_compat_r; [ lra | exact Htot ]).
    lra.
  - change (cumulative weights 0) with 0%Q. lra.
  - intros k Hk. lia.
  - exists x, j. split; [ exact Hx | ]. split; [ exact Hj | ].
    split; [ | split; assumption ].
    unfold weighted. rewrite (bind_returned _ _ _ _ _ Hx).
    unfold ret. rewrite Hscan, ArrayProofs.aget_nat. reflexivity.
Qed.

End EngineExtraProofs.

Module HexTextProofs.
Import JS PRNG Props Spec AddressProofs KeccakProofs EngineProofs
       EngineExtraProofs.
Local Open Scope string_scope.
Local Open Scope Z_scope.

Lemma string_length_list (s : string) :
  String.length s = length (list_ascii_of_string s).
Proof. induction s as [ | c s IH ]; [ reflexivity | ]. cbn. now rewrite IH. Qed.

Lemma hexOfBytes_cons b bs : hexOfBytes (b :: bs) = hex2 b ++ hexOfBytes bs.
Proof. reflexivity. Qed.

Lemma fold_hex2_hexOfBytes bs : forall acc,
  fold_left (fun s b => s ++ hex2 b) bs acc = acc ++ hexOfBytes bs.
Proof.
  induction bs as [ | b bs IH ]; intros acc; cbn [fold_left].
  - change (hexOfBytes []) with "". now rewrite append_empty_r.
  - rewrite IH, hexOfBytes_cons. apply append_assoc.
Qed.

Lemma hexOfBytes_length bs :
  Forall isByte bs -> String.length (hexOfBytes bs) = (2 * length bs)%nat.
Proof.
  intros H. rewrite string_length_list, hexOfBytes_lowerHex by exact H.
  apply lowerHex_length.
Qed.

Lemma lowerHex_digits bs :
  Forall isByte bs -> Forall isLowerHexDigit (lowerHex bs).
Proof.
  induction 1 as [ | b bs Hb _ IH ]; [ constructor | ].
  destruct (nibble_parts b Hb) as [Hhi Hlo].
  cbn [lowerHex flat_map app]. fold (lowerHex bs).
  constructor; [ now exists (b / 16) | ].
  constructor; [ now exists (b mod 16) | exact IH ].
Qed.

Lemma parseHex_lowerHex bs : forall n,
  Forall isByte bs ->
  fold_left
    (fun acc c =>
       match acc, parseHexDigit c with
       | Some n, Some d => Some (n * 16 + d)
       | _, _ => None
       end)
    (lowerHex bs) (Some n)
  = Some (fold_left (fun n b => n * 256 + b) bs n).
Proof.
  induction bs as [ | b bs IH ]; intros n Hall; [ reflexivity | ].
  apply Forall_cons in Hall as [Hb Hall].
  destruct (nibble_parts b Hb) as [Hhi Hlo].
  cbn [lowerHex flat_map app fold_left]. fold (lowerHex bs).
  rewrite !parseHexDigit_hexChar by assumption.
  rewrite IH by exact Hall. do 2 f_equal.
  pose proof (Z.div_mod b 16). lia.
Qed.

Lemma parseHex_hexOfBytes bs :
  Forall isByte bs -> parseHex (hexOfBytes bs) = Some (bigEndian bs).
Proof.
  intros H. unfold parseHex, bigEndian.
  rewrite hexOfBytes_lowerHex by exact H. now apply parseHex_lowerHex.
Qed.

End HexTextProofs.

Module EngineExtras.
Import JS PRNG Props Spec Int32Facts EngineProofs EngineExtraProofs
       HexTextProofs.

(** X1.  The register is a signed 32-bit integer from the construction of
    the engine on: the constructor and [seed] truncate their argument to
    32 bits, and [next] leaves a 32-bit register whatever it found. *)
Theorem register_is_int32 (value register : Z) (n : nat) :
  int32 (create value)
  /\ int32 (snd (seed value register))
  /\ int32 (snd (next register))
  /\ int32 (registerAfter (S n) register).
Proof.
  split; [ unfold create; rewrite bitor_0_r; apply ToInt32_is_int32 | ].
  split; [ unfold seed; cbn [snd]; rewrite bitor_0_r;
           apply ToInt32_is_int32 | ].
  split; [ rewrite register_after_next; apply ToInt32_is_int32 | ].
  rewrite registerAfter_S. apply registerAfter_int32, ToInt32_is_int32.
Qed.

(** X2.  Two seeds construct the same engine exactly when they agree
    modulo [2^32]; a seed that is a signed 32-bit integer is kept as it
    is, and [next] on a raw seed is [next] on the constructed engine. *)
Theorem seeds_modulo_2_32 (a b : Z) :
  (create a = create b <-> a mod 2 ^ 32 = b mod 2 ^ 32)
  /\ create (create a) = create a
  /\ next (create a) = next a.
Proof.
  unfold create. rewrite !bitor_0_r. split; [ split | split ].
  - intros H. rewrite <- (ToInt32_mod a), <- (ToInt32_mod b), H. reflexivity.
  - apply ToInt32_congr.
  - apply ToInt32_int32, ToInt32_is_int32.
  - apply next_congr. apply ToInt32_int32, ToInt32_is_int32.
Qed.

(** X3.  From a 32-bit register, [n] calls of [next] leave the register at
    [register + n * 0x6d2b79f5] truncated to 32 bits, and the register is
    back at its start exactly when [n] is a multiple of [2^32]: the engine
    passes through all [2^32] registers before it repeats. *)
Theorem register_period (n : nat) (register : Z) :
  int32 register ->
  registerAfter n register = ToInt32 (register + Z.of_nat n * 0x6d2b79f5)
  /\ (registerAfter n register = register <-> Z.of_nat n mod 2 ^ 32 = 0).
Proof.
  intros Hr.
  assert (Hf : registerAfter n register
               = ToInt32 (register + Z.of_nat n * 0x6d2b79f5)).
  { rewrite <- registerAfter_formula.
    symmetry. now apply ToInt32_int32, registerAfter_int32. }
  split; [ exact Hf | ].
  rewrite Hf. rewrite <- (ToInt32_int32 register Hr) at 2.
  rewrite Z.mod_divide by lia.
  split.
  - intros H. apply increment_unit.
    replace (Z.of_nat n * 0x6d2b79f5)
      with (register + Z.of_nat n * 0x6d2b79f5 - register) by lia.
    apply mod_eq_divide.
    rewrite <- (ToInt32_mod (register + _)), <- (ToInt32_mod register), H.
    reflexivity.
  - intros H. apply ToInt32_congr, mod_eq_divide.
    replace (register + Z.of_nat n * 0x6d2b79f5 - register)
      with (Z.of_nat n * 0x6d2b79f5) by lia.
    now apply Z.divide_mul_l.
Qed.

Lemma register_period_witness :
  int32 42
  /\ registerAfter 3 42 = ToInt32 (42 + Z.of_nat 3 * 0x6d2b79f5)
  /\ (registerAfter 3 42 = 42 <-> Z.of_nat 3 mod 2 ^ 32 = 0).
Proof.
  assert (H : int32 42) by (unfold int32; lia).
  split; [ exact H | exact (register_period 3 42 H) ].
Defined.

(** X5.  [chance] does not clamp: a probability of 0 or less always gives
    [false], a probability of 1 or more always gives [true], and either
    way one draw is made. *)
Theorem chance_degenerate (probability : Q) (register : Z) :
  (probability <= 0 \/ 1 <= probability)%Q ->
  chance probability register
  = (Returned (Qle_bool 1 probability), snd (next register)).
Proof.
  intros H.
  destruct (chance_eq probability register) as (x & _ & [Hx0 Hx1] & ->).
  do 2 f_equal.
  destruct H as [H | H].
  - assert (H1 : Qle_bool probability x = true)
      by (apply Qle_bool_iff; lra).
    assert (H2 : Qle_bool 1 probability = false).
    { destruct (Qle_bool 1 probability) eqn:E; [ | reflexivity ].
      apply Qle_bool_iff in E. lra. }
    now rewrite H1, H2.
  - assert (H1 : Qle_bool probability x = false).
    { destruct (Qle_bool probability x) eqn:E; [ | reflexivity ].
      apply Qle_bool_iff in E. lra. }
    assert (H2 : Qle_bool 1 probability = true) by now apply Qle_bool_iff.
    now rewrite H1, H2.
Qed.

Lemma chance_degenerate_witness :
  (0 <= 0 \/ 1 <= 0)%Q
  /\ (- (1) <= 0 \/ 1 <= - (1))%Q
  /\ (2 <= 0 \/ 1 <= 2)%Q
  /\ chance 0 42 = (Returned false, snd (next 42))
  /\ chance (- (1)) 42 = (Returned false, snd (next 42))
  /\ chance 2 42 = (Returned true, snd (next 42)).
Proof.
  assert (H0 : (0 <= 0 \/ 1 <= 0)%Q) by (left; discriminate).
  assert (H1 : (- (1) <= 0 \/ 1 <= - (1))%Q) by (left; discriminate).
  assert (H2 : (2 <= 0 \/ 1 <= 2)%Q) by (right; discriminate).
  split; [ exact H0 | ]. split; [ exact H1 | ]. split; [ exact H2 | ].
  split; [ exact (chance_degenerate 0 42 H0) | ].
  split; [ exact (chance_degenerate (- (1)) 42 H1)
         | exact (chance_degenerate 2 42 H2) ].
Defined.

(** X6.  [hex (bytes)] returns [2 * bytes] characters, each one of
    [0-9a-f], after [bytes] draws; for [bytes <= 0] it returns the empty
    text and draws nothing. *)
Theorem hex_text (bytes register : Z) :
  exists s : string,
    hex bytes register = (Returned s, registerAfter (Z.to_nat bytes) register)
    /\ String.length s = (2 * Z.to_nat bytes)%nat
    /\ Forall isLowerHexDigit (list_ascii_of_string s).
Proof.
  destruct (hex_bytes bytes register) as (bs & _ & Hlen & Hall & Hhex & _).
  exists (hexOfBytes bs). split; [ | split ].
  - rewrite Hhex, fold_hex2_hexOfBytes. reflexivity.
  - rewrite hexOfBytes_length by exact Hall. now rewrite Hlen.
  - rewrite AddressProofs.hexOfBytes_lowerHex by exact Hall.
    now apply lowerHex_digits.
Qed.

(** X7.  [bigint (bytes)] returns a non-negative integer below
    [256 ^ bytes] after [bytes] draws, and 0 for [bytes <= 0]. *)
Theorem bigint_range (bytes register : Z) :
  exists v : Z,
    bigint bytes register
    = (Returned v, registerAfter (Z.to_nat bytes) register)
    /\ 0 <= v < 256 ^ Z.max 0 bytes.
Proof.
  destruct (hex_bytes bytes register) as (bs & _ & Hlen & Hall & _ & Hbig).
  eexists. split; [ exact Hbig | ].
  rewrite fold_lor_bigEndian by exact Hall.
  replace (Z.max 0 bytes) with (0 + Z.of_nat (length bs)) by lia.
  apply fold_bigEndian_range; [ exact Hall | lia | lia ].
Qed.

(** X8.  From the same register, [hex (bytes)] is the hexadecimal notation
    of [bigint (bytes)]: both draw the same bytes, most significant
    first. *)
Theorem hex_denotes_bigint (bytes register : Z) :
  exists (s : string) (v register' : Z),
    hex bytes register = (Returned s, register')
    /\ bigint bytes register = (Returned v, register')
    /\ parseHex s = Some v.
Proof.
  destruct (hex_bytes bytes register) as (bs & _ & Hlen & Hall & Hhex & Hbig).
  exists (hexOfBytes bs), (bigEndian bs),
         (registerAfter (Z.to_nat bytes) register).
  split; [ rewrite Hhex, fold_hex2_hexOfBytes; reflexivity | ].
  split; [ rewrite Hbig, fold_lor_bigEndian by exact Hall; reflexivity | ].
  now apply parseHex_hexOfBytes.
Qed.

(** X9.  [weighted] never fails and makes one draw.  On a non-empty array
    it returns one of its elements, whatever the weights, missing weights
    included; on the empty array it returns [undefined]. *)
Theorem weighted_returns_item {T : Type} (items : list (option T))
        (weights : list Q) (register : Z) :
  exists v : option T,
    weighted items weights register = (Returned v, snd (next register))
    /\ ((items = [] /\ v = None)
        \/ exists j, (j < length items)%nat /\ items !! j = Some v).
Proof.
  destruct (next_returns register) as [x Hx].
  eexists. split.
  { unfold weighted. rewrite (bind_returned _ _ _ _ _ Hx). reflexivity. }
  destruct items as [ | it items ].
  - left. split; reflexivity.
  - right.
    destruct (weightedScan_item (it :: items) weights (length (it :: items))
                (Some (x * fold_left Qplus weights 0)%Q) 0)
      as (j & Hj & ->); [ discriminate | reflexivity | ].
    exists j. split; [ exact Hj | ].
    rewrite ArrayProofs.aget_nat. unfold itemAt.
    destruct (lookup_lt_is_Some_2 (it :: items) j Hj) as [v Hv].
    now rewrite Hv.
Qed.


(** X10.  With one weight for each item of a non-empty array, the
    weights being non-negative integers whose sum is at most [2^21],
    [weighted] draws [x], takes [x * sum (weights)] as its target and
    returns the item at the first index where the cumulative weight reaches
    the target; the fallback to the last item is not taken.  On such
    weights every step of the source's double arithmetic is exact. *)
Theorem weighted_cumulative {T : Type} (items : list (option T))
        (ws : list Z) (register : Z) :
  items <> [] ->
  length ws = length items ->
  Forall (fun w => 0 <= w) ws ->
  fold_right Z.add 0 ws <= 2 ^ 21 ->
  exists (x : Q) (j : nat),
    next register = (Returned x, snd (next register))
    /\ (j < length items)%nat
    /\ weighted items (integerWeights ws) register
       = (Returned (itemAt items j), snd (next register))
    /\ (x * fold_left Qplus (integerWeights ws) 0
        <= cumulative (integerWeights ws) (S j))%Q
    /\ (forall k, (k < j)%nat ->
                  cumulative (integerWeights ws) (S k)
                  < x * fold_left Qplus (integerWeights ws) 0)%Q.
Proof.
  intros Hne Hlen Hall _.
  apply weighted_first_reached; [ exact Hne | | ].
  - unfold integerWeights. now rewrite length_map.
  - unfold integerWeights. apply Forall_map.
    eapply Forall_impl; [ exact Hall | ].
    intros w Hw. cbv beta in Hw. unfold Qle. cbn. lia.
Qed.

Lemma weighted_cumulative_witness :
  sampleChoices <> []
  /\ length sampleWeights = length sampleChoices
  /\ Forall (fun w => 0 <= w) sampleWeights
  /\ fold_right Z.add 0 sampleWeights <= 2 ^ 21
  /\ exists (x : Q) (j : nat),
       next 42 = (Returned x, snd (next 42))
       /\ (j < length sampleChoices)%nat
       /\ weighted sampleChoices (integerWeights sampleWeights) 42
          = (Returned (itemAt sampleChoices j), snd (next 42))
       /\ (x * fold_left Qplus (integerWeights sampleWeights) 0
           <= cumulative (integerWeights sampleWeights) (S j))%Q
       /\ (forall k, (k < j)%nat ->
                     cumulative (integerWeights sampleWeights) (S k)
                     < x * fold_left Qplus (integerWeights sampleWeights) 0)%Q.
Proof.
  assert (H1 : sampleChoices <> []) by discriminate.
  assert (H2 : length sampleWeights = length sampleChoices) by reflexivity.
  assert (H3 : Forall (fun w => 0 <= w) sampleWeights)
    by (repeat (constructor; [ lia | ]); constructor).
  assert (H4 : fold_right Z.add 0 sampleWeights <= 2 ^ 21)
    by (vm_compute; discriminate).
  split; [ exact H1 | ]. split; [ exact H2 | ]. split; [ exact H3 | ].
  split; [ exact H4 | ].
  exact (weighted_cumulative sampleChoices sampleWeights 42 H1 H2 H3 H4).
Defined.

End EngineExtras.

(** ** The sponge *)

Module KeccakExtraProofs.
Import JS Keccak Spec Props BitFacts FoldFacts KeccakProofs.

Lemma u8set_app_head (pre rest : list Z) (x v : Z) :
  u8set (pre ++ x :: rest) (length pre) v = pre ++ v mod 256 :: rest.
Proof.
  unfold u8set. replace (length pre) with (length pre + 0)%nat at 1 by lia.
  apply (insert_app_r pre (x :: rest) 0).
Qed.

(** Copying the input into a zeroed buffer. *)
Lemma setAll_fold (input : list Z) : forall (pre : list Z) (m : nat),
  (length input <= m)%nat ->
  fst (fold_left (fun '(buf, i) v => (u8set buf i v, S i)) input
                 (pre ++ replicate m 0, length pre))
  = pre ++ map (fun v => v mod 256) input
        ++ replicate (m - length input) 0.
Proof.
  induction input as [ | v input IH ]; intros pre m Hm.
  - cbn [fold_left fst map length app]. now rewrite Nat.sub_0_r.
  - cbn [length] in Hm. destruct m as [ | m ]; [ lia | ].
    cbn [fold_left replicate]. rewrite u8set_app_head.
    replace (S (length pre)) with (length (pre ++ [v mod 256]))
      by (rewrite length_app; cbn; lia).
    replace (pre ++ v mod 256 :: replicate m 0)
      with ((pre ++ [v mod 256]) ++ replicate m 0)
      by (now rewrite <- app_assoc).
    rewrite IH by lia. rewrite <- app_assoc. reflexivity.
Qed.

Lemma setAll_replicate (input : list Z) (m : nat) :
  (length input <= m)%nat ->
  setAll (replicate m 0) input
  = map (fun v => v mod 256) input ++ replicate (m - length input) 0.
Proof.
  intros Hm. unfold setAll. apply (setAll_fold input [] m Hm).
Qed.

Lemma map_mod_bytes (input : list Z) :
  Forall isByte input -> map (fun v => v mod 256) input = input.
Proof.
  induction 1 as [ | v input Hv _ IH ]; [ reflexivity | ].
  cbn [map]. rewrite IH. f_equal. apply Z.mod_small. exact Hv.
Qed.

Lemma paddedLength_eq (n : nat) :
  paddedLength n = (n + (136 - n mod 136))%nat.
Proof.
  unfold paddedLength, rate.
  replace (n + 1 + (136 - 1))%nat with (n + 1 * 136)%nat by lia.
  rewrite Nat.div_add by lia.
  pose proof (Nat.div_mod_eq n 136). pose proof (Nat.mod_upper_bound n 136).
  lia.
Qed.

(** The padded buffer, for a gap of [S p] bytes after the input. *)
Lemma pad_gap (input : list Z) (p : nat) :
  Forall isByte input ->
  paddedLength (length input) = (length input + S p)%nat ->
  pad input
  = input ++ match p with
             | O => [0x81]
             | S q => [0x01] ++ replicate q 0 ++ [0x80]
             end.
Proof.
  intros Hin Hp. unfold pad. rewrite Hp.
  rewrite setAll_replicate by lia. rewrite map_mod_bytes by exact Hin.
  replace (length input + S p - length input)%nat with (S p) by lia.
  cbn [replicate].
  rewrite u8set_app_head. change (1 mod 256) with 1.
  assert (Hlen : length (input ++ 1 :: replicate p 0)
                 = (length input + S p)%nat)
    by (rewrite length_app; cbn [length]; rewrite length_replicate; lia).
  rewrite Hlen.
  replace (length input + S p - 1)%nat with (length input + p)%nat by lia.
  unfold u8set, u8get. rewrite insert_app_r. f_equal.
  rewrite app_nth2_plus.
  destruct p as [ | q ]; [ reflexivity | ].
  assert (Hq : forall (q : nat) (x : Z),
             <[q := x]> (replicate (S q) 0) = replicate q 0 ++ [x]).
  { clear. induction q as [ | q IH ]; intros x; [ reflexivity | ].
    transitivity (0 :: <[q := x]> (replicate (S q) 0)); [ reflexivity | ].
    rewrite IH. reflexivity. }
  assert (Hn : nth q (replicate (S q) 0) 0 = 0).
  { apply nth_lookup_Some with (d := 0). apply lookup_replicate_2. lia. }
  transitivity
    (1 :: <[q := Z.lor (nth q (replicate (S q) 0) 0) 128 mod 256]>
            (replicate (S q) 0)); [ reflexivity | ].
  rewrite Hq, Hn. reflexivity.
Qed.


(** Bits of unsigned words. *)
Lemma in64_high_bits x k : in64 x -> 64 <= k -> Z.testbit x k = false.
Proof.
  intros Hx Hk. apply in64_mod in Hx. rewrite <- Hx.
  apply Z.mod_pow2_bits_high. lia.
Qed.

Lemma byte_high_bits v k : isByte v -> 8 <= k -> Z.testbit v k = false.
Proof.
  intros Hv Hk. replace v with (v mod 2 ^ 8) by (apply Z.mod_small; exact Hv).
  apply Z.mod_pow2_bits_high. lia.
Qed.

Lemma rotl64_testbit x n i :
  in64 x -> 0 <= n <= 64 -> 0 <= i < 64 ->
  Z.testbit (rotl64 x n) i = Z.testbit x ((i - n) mod 64).
Proof.
  intros Hx Hn Hi. unfold rotl64.
  change 0xffffffffffffffff with (Z.ones 64).
  rewrite Z.land_spec, Z.ones_spec_low, andb_true_r by lia.
  rewrite Z.lor_spec, Z.shiftl_spec, Z.shiftr_spec by lia.
  destruct (Z.lt_ge_cases i n) as [Hlt | Hge].
  - rewrite (Z.testbit_neg_r x (i - n)) by lia. cbn [orb].
    f_equal.
    replace (i - n) with (i + (64 - n) + (- 1) * 64) by lia.
    rewrite Z_mod_plus_full. symmetry. apply Z.mod_small. lia.
  - rewrite (in64_high_bits x (i + (64 - n))) by (assumption || lia).
    rewrite orb_false_r. f_equal. symmetry. apply Z.mod_small. lia.
Qed.

Lemma rotl64_inverse x n :
  in64 x -> 0 <= n <= 64 -> rotl64 (rotl64 x n) (64 - n) = x.
Proof.
  intros Hx Hn. apply Z.bits_inj'. intros i Hi.
  destruct (Z.lt_ge_cases i 64) as [Hlt | Hge].
  - rewrite rotl64_testbit by (apply rotl64_in64 || lia).
    rewrite rotl64_testbit;
      [ | exact Hx | lia | apply Z.mod_pos_bound; lia ].
    f_equal. rewrite Zminus_mod_idemp_l.
    replace (i - (64 - n) - n) with (i + (- 1) * 64) by lia.
    rewrite Z_mod_plus_full. apply Z.mod_small. lia.
  - rewrite !in64_high_bits by (apply rotl64_in64 || assumption || lia).
    reflexivity.
Qed.

(** A fold of disjunctions, bit by bit. *)
Lemma fold_lor_testbit (f : nat -> Z) (idxs : list nat) : forall acc k,
  Z.testbit (fold_left (fun lane b => Z.lor lane (f b)) idxs acc) k
  = Z.testbit acc k || existsb (fun b => Z.testbit (f b) k) idxs.
Proof.
  induction idxs as [ | b idxs IH ]; intros acc k; cbn [fold_left existsb].
  - now rewrite orb_false_r.
  - rewrite IH, Z.lor_spec. now rewrite orb_assoc.
Qed.

Lemma existsb_only (f : nat -> bool) (q : nat) (idxs : list nat) :
  In q idxs -> (forall b, In b idxs -> b <> q -> f b = false) ->
  existsb f idxs = f q.
Proof.
  induction idxs as [ | b idxs IH ]; intros Hq Hf; [ destruct Hq | ].
  cbn [existsb]. destruct (Nat.eq_dec b q) as [-> | Hne].
  - destruct (f q) eqn:E; [ reflexivity | ]. cbn [orb].
    destruct (existsb f idxs) eqn:Ex; [ | reflexivity ].
    apply existsb_exists in Ex as (b & Hb & Hfb).
    destruct (Nat.eq_dec b q) as [-> | Hbq]; [ congruence | ].
    rewrite Hf in Hfb; [ discriminate | now right | exact Hbq ].
  - rewrite (Hf b) by (now left || exact Hne). cbn [orb].
    apply IH.
    + destruct Hq as [-> | Hq]; [ congruence | exact Hq ].
    + intros c Hc. apply Hf. now right.
Qed.

(** Bit [k] of a packed lane is bit [k mod 8] of byte [k / 8]. *)
Lemma readLane_testbit padded offset i k :
  Forall isByte padded -> 0 <= k < 64 ->
  Z.testbit (readLane padded offset i) k
  = Z.testbit (u8get padded (offset + i * 8 + Z.to_nat (k / 8))) (k mod 8).
Proof.
  intros Hp Hk. unfold readLane.
  rewrite fold_lor_testbit, Z.bits_0. cbn [orb].
  assert (Hq : 0 <= k / 8 < 8)
    by (split; [ apply Z.div_pos; lia | apply Z.div_lt_upper_bound; lia ]).
  pose proof (Z.div_mod k 8 ltac:(lia)) as Hdm.
  pose proof (Z.mod_pos_bound k 8 ltac:(lia)) as Hr.
  rewrite (existsb_only _ (Z.to_nat (k / 8))).
  - rewrite Z.shiftl_spec by lia. f_equal. lia.
  - apply in_seq. lia.
  - intros b Hb Hne. apply in_seq in Hb.
    rewrite Z.shiftl_spec by lia.
    destruct (Z.lt_ge_cases (k - Z.of_nat (b * 8)) 0) as [Hneg | Hpos].
    + now apply Z.testbit_neg_r.
    + apply byte_high_bits; [ now apply u8get_byte | lia ].
Qed.

(** Unpacking byte [b] of a packed lane gives the byte back. *)
Lemma readLane_byte padded offset i (b : nat) :
  Forall isByte padded -> (b < 8)%nat ->
  Z.land (Z.shiftr (readLane padded offset i) (Z.of_nat (b * 8))) 0xff
  = u8get padded (offset + i * 8 + b).
Proof.
  intros Hp Hb. apply Z.bits_inj'. intros j Hj.
  change 0xff with (Z.ones 8).
  rewrite Z.land_spec, Z.shiftr_spec by lia.
  destruct (Z.lt_ge_cases j 8) as [Hlt | Hge].
  - rewrite Z.ones_spec_low, andb_true_r by lia.
    rewrite readLane_testbit by (assumption || lia).
    replace ((j + Z.of_nat (b * 8)) / 8) with (Z.of_nat b)
      by (apply (Z.div_unique _ 8 (Z.of_nat b) j); lia).
    replace ((j + Z.of_nat (b * 8)) mod 8) with j
      by (apply (Z.mod_unique _ 8 (Z.of_nat b) j); lia).
    now rewrite Nat2Z.id.
  - rewrite Z.ones_spec_high, andb_false_r by lia.
    symmetry. apply byte_high_bits; [ now apply u8get_byte | lia ].
Qed.

(** The digest bytes, one by one. *)
Lemma squeeze_eq st :
  squeeze st
  = map (fun k =>
           Z.land (Z.shiftr (lane st (k / 8)) (Z.of_nat (k mod 8 * 8))) 0xff
           mod 256)
        (seq 0 32).
Proof. cbv -[Z.land Z.shiftr lane Z.modulo]. reflexivity. Qed.


Lemma nth_map_seq (f : nat -> Z) (n k : nat) (d : Z) :
  (k < n)%nat -> nth k (map f (seq 0 n)) d = f k.
Proof.
  intros Hk. apply nth_lookup_Some.
  change (map f (seq 0 n)) with (f <$> seq 0 n).
  rewrite list_lookup_fmap, lookup_seq_lt by exact Hk. reflexivity.
Qed.

Lemma squeeze_nth st (k : nat) :
  (k < 32)%nat ->
  u8get (squeeze st) k
  = Z.land (Z.shiftr (lane st (k / 8)) (Z.of_nat (k mod 8 * 8))) 0xff.
Proof.
  intros Hk. unfold u8get. rewrite squeeze_eq.
  rewrite nth_map_seq by exact Hk.
  apply Z.mod_small.
  change 0xff with (Z.ones 8). rewrite Z.land_ones by lia.
  apply Z.mod_pos_bound. lia.
Qed.

End KeccakExtraProofs.

Module KeccakExtras.
Import JS Keccak Spec Props BitFacts FoldFacts KeccakProofs AddressProofs
       HexTextProofs KeccakExtraProofs.

(** X11.  The padded buffer is the input followed by [0x01], zeros and
    [0x80], or by the one byte [0x81] when a single byte is missing to a
    full block; its length is the next multiple of 136 above the length of
    the input. *)
Theorem pad_structure (input : list Z) :
  Forall isByte input ->
  pad input
  = input ++ match (135 - length input mod 136)%nat with
             | O => [0x81]
             | S q => [0x01] ++ replicate q 0 ++ [0x80]
             end
  /\ length (pad input) = ((length input / 136 + 1) * 136)%nat.
Proof.
  intros Hin.
  pose proof (Nat.mod_upper_bound (length input) 136 ltac:(lia)) as Hmod.
  pose proof (Nat.div_mod_eq (length input) 136) as Hdiv.
  split.
  - apply pad_gap; [ exact Hin | ]. rewrite paddedLength_eq. lia.
  - rewrite pad_length, paddedLength_eq. lia.
Qed.

Lemma pad_structure_witness :
  Forall isByte [97; 98; 99]
  /\ pad [97; 98; 99]
     = [97; 98; 99] ++ match (135 - length [97; 98; 99] mod 136)%nat with
                       | O => [0x81]
                       | S q => [0x01] ++ replicate q 0 ++ [0x80]
                       end
  /\ length (pad [97; 98; 99])
     = ((length [97; 98; 99] / 136 + 1) * 136)%nat.
Proof.
  assert (H : Forall isByte [97; 98; 99])
    by (unfold isByte; repeat (constructor; [ lia | ]); constructor).
  split; [ exact H | exact (pad_structure [97; 98; 99] H) ].
Defined.

(** X12.  [rotl64] is a rotation of the 64 bits of an unsigned word: bit
    [i] of the result is bit [i - n] modulo 64 of the argument, and
    rotating on by [64 - n] gives the argument back. *)
Theorem rotl64_circular (x n i : Z) :
  in64 x -> 0 <= n <= 64 -> 0 <= i < 64 ->
  in64 (rotl64 x n)
  /\ Z.testbit (rotl64 x n) i = Z.testbit x ((i - n) mod 64)
  /\ rotl64 (rotl64 x n) (64 - n) = x.
Proof.
  intros Hx Hn Hi.
  split; [ apply rotl64_in64 | ].
  split; [ now apply rotl64_testbit | now apply rotl64_inverse ].
Qed.

Lemma rotl64_circular_witness :
  in64 0x8000000000000001 /\ 0 <= 1 <= 64 /\ 0 <= 0 < 64
  /\ in64 (rotl64 0x8000000000000001 1)
  /\ Z.testbit (rotl64 0x8000000000000001 1) 0
     = Z.testbit 0x8000000000000001 ((0 - 1) mod 64)
  /\ rotl64 (rotl64 0x8000000000000001 1) (64 - 1) = 0x8000000000000001.
Proof.
  assert (H1 : in64 0x8000000000000001) by (unfold in64; lia).
  assert (H2 : 0 <= 1 <= 64) by lia.
  assert (H3 : 0 <= 0 < 64) by lia.
  split; [ exact H1 | ]. split; [ exact H2 | ]. split; [ exact H3 | ].
  exact (rotl64_circular 0x8000000000000001 1 0 H1 H2 H3).
Defined.

(** X13.  Packing and unpacking agree on the byte order: when the first
    four lanes of a state are the words packed from a buffer of bytes, the
    32 bytes squeezed out of the state are the first 32 bytes of the
    buffer. *)
Theorem squeeze_unpacks_lanes (buf st : list Z) :
  Forall isByte buf ->
  (forall i, (i < 4)%nat -> lane st i = readLane buf 0 i) ->
  squeeze st = map (u8get buf) (seq 0 32).
Proof.
  intros Hbuf Hlanes. rewrite squeeze_eq.
  apply map_ext_in. intros k Hk. apply in_seq in Hk.
  assert (Hq : (k / 8 < 4)%nat) by (apply Nat.Div0.div_lt_upper_bound; lia).
  pose proof (Nat.mod_upper_bound k 8 ltac:(lia)) as Hr.
  rewrite Hlanes by exact Hq.
  rewrite readLane_byte by assumption.
  replace (0 + k / 8 * 8 + k mod 8)%nat with k
    by (pose proof (Nat.div_mod_eq k 8); lia).
  apply Z.mod_small. now apply u8get_byte.
Qed.

Lemma squeeze_unpacks_lanes_witness :
  Forall isByte sampleBuffer
  /\ (forall i, (i < 4)%nat -> lane sampleState i = readLane sampleBuffer 0 i)
  /\ squeeze sampleState = map (u8get sampleBuffer) (seq 0 32).
Proof.
  assert (H1 : Forall isByte sampleBuffer).
  { apply Forall_forall. intros v Hv.
    apply list_elem_of_In, in_map_iff in Hv as (k & <- & Hk).
    apply in_seq in Hk. unfold isByte. lia. }
  assert (H2 : forall i, (i < 4)%nat ->
                         lane sampleState i = readLane sampleBuffer 0 i).
  { intros i Hi. unfold lane, sampleState. apply nth_map_seq. lia. }
  split; [ exact H1 | ]. split; [ exact H2 | ].
  exact (squeeze_unpacks_lanes sampleBuffer sampleState H1 H2).
Defined.

(** X14.  The other way round: packing the squeezed bytes gives back the
    first four lanes of a well-formed state. *)
Theorem squeeze_packs_back (st : list Z) (i : nat) :
  lanesOk st -> (i < 4)%nat ->
  readLane (squeeze st) 0 i = lane st i.
Proof.
  intros Hst Hi. apply Z.bits_inj'. intros k Hk.
  pose proof (lane_in64 st i (proj2 Hst)) as Hlane.
  destruct (Z.lt_ge_cases k 64) as [Hlt | Hge].
  - rewrite readLane_testbit
      by (apply (proj2 (squeeze_bytes st)) || lia).
    assert (Hq : 0 <= k / 8 < 8)
      by (split; [ apply Z.div_pos; lia | apply Z.div_lt_upper_bound; lia ]).
    pose proof (Z.mod_pos_bound k 8 ltac:(lia)) as Hr.
    pose proof (Z.div_mod k 8 ltac:(lia)) as Hdm.
    rewrite squeeze_nth by lia.
    replace ((0 + i * 8 + Z.to_nat (k / 8)) / 8)%nat with i
      by (apply (Nat.div_unique _ 8 i (Z.to_nat (k / 8))); lia).
    replace ((0 + i * 8 + Z.to_nat (k / 8)) mod 8)%nat with (Z.to_nat (k / 8))
      by (apply (Nat.mod_unique _ 8 i (Z.to_nat (k / 8))); lia).
    change 0xff with (Z.ones 8).
    rewrite Z.land_spec, Z.ones_spec_low, andb_true_r by lia.
    rewrite Z.shiftr_spec by lia. f_equal. lia.
  - rewrite (in64_high_bits (lane st i)) by assumption.
    apply in64_high_bits; [ | exact Hge ].
    apply readLane_in64, squeeze_bytes.
Qed.

Lemma squeeze_packs_back_witness :
  lanesOk sampleState /\ (1 < 4)%nat
  /\ readLane (squeeze sampleState) 0 1 = lane sampleState 1.
Proof.
  assert (Hbuf : Forall isByte sampleBuffer).
  { apply Forall_forall. intros v Hv.
    apply list_elem_of_In, in_map_iff in Hv as (k & <- & Hk).
    apply in_seq in Hk. unfold isByte. lia. }
  assert (H1 : lanesOk sampleState).
  { split; [ reflexivity | ]. apply Forall_forall. intros v Hv.
    apply list_elem_of_In, in_map_iff in Hv as (k & <- & _).
    now apply readLane_in64. }
  assert (H2 : (1 < 4)%nat) by lia.
  split; [ exact H1 | ]. split; [ exact H2 | ].
  exact (squeeze_packs_back sampleState 1 H1 H2).
Defined.

(** X15.  For every input, [keccak256Bytes] returns 64 characters of
    [0-9a-f] that denote the digest as a number, most significant byte
    first. *)
Theorem keccak256Bytes_text (bytes : list Z) :
  String.length (keccak256Bytes bytes) = 64%nat
  /\ Forall isLowerHexDigit (list_ascii_of_string (keccak256Bytes bytes))
  /\ parseHex (keccak256Bytes bytes) = Some (bigEndian (keccak256 bytes)).
Proof.
  destruct (keccak256_bytes bytes) as [Hlen Hall]. unfold keccak256Bytes.
  split; [ rewrite hexOfBytes_length by exact Hall; now rewrite Hlen | ].
  split; [ rewrite hexOfBytes_lowerHex by exact Hall;
           now apply lowerHex_digits | ].
  now apply parseHex_hexOfBytes.
Qed.

End KeccakExtras.

(** ** Addresses *)

Module AddressExtraProofs.
Import JS PRNG Keccak Address AddressModule Spec Props FoldFacts KeccakProofs
       AddressProofs EngineProofs EngineExtraProofs HexTextProofs
       KeccakExtraProofs.
Local Open Scope string_scope.
Local Open Scope Z_scope.

Lemma lowerCase_hexChar d :
  0 <= d < 16 ->
  lowerCase (hexChar d) = hexChar d
  /\ lowerCase (upperCase (hexChar d)) = hexChar d.
Proof.
  intros Hd.
  assert (H : Ascii.eqb (lowerCase (hexChar d)) (hexChar d)
              && Ascii.eqb (lowerCase (upperCase (hexChar d))) (hexChar d)
              = true).
  { apply (forall_nibbles
             (fun d => Ascii.eqb (lowerCase (hexChar d)) (hexChar d)
                       && Ascii.eqb (lowerCase (upperCase (hexChar d)))
                                    (hexChar d)));
      [ vm_compute; reflexivity | exact Hd ]. }
  apply andb_true_iff in H as [H1 H2].
  split; now apply Ascii.eqb_eq.
Qed.

Lemma map_nth_seq {A} (l : list A) (d : A) :
  map (fun i => nth i l d) (seq 0 (length l)) = l.
Proof.
  apply list_eq. intros i.
  change (map (fun i => nth i l d) (seq 0 (length l)))
    with ((fun i => nth i l d) <$> seq 0 (length l)).
  rewrite list_lookup_fmap.
  destruct (decide (i < length l)%nat) as [Hlt | Hge].
  - rewrite lookup_seq_lt by exact Hlt. cbn.
    destruct (lookup_lt_is_Some_2 l i Hlt) as [x Hx].
    rewrite Hx. f_equal. now apply nth_lookup_Some.
  - rewrite lookup_seq_ge by lia. cbn. symmetry.
    apply lookup_ge_None. lia.
Qed.

(** The casing changes nothing but the case. *)
Lemma checksumCase_lowerCase bytes :
  length bytes = 20%nat -> Forall isByte bytes ->
  map lowerCase (checksumCase bytes) = lowerHex bytes.
Proof.
  intros Hlen Hbytes. unfold checksumCase. cbv zeta.
  rewrite map_map.
  transitivity (map (fun i => nth i (lowerHex bytes) "?"%char)
                    (seq 0 (length (lowerHex bytes))));
    [ | apply map_nth_seq ].
  rewrite lowerHex_length, Hlen.
  apply map_ext_in. intros i Hi. apply in_seq in Hi.
  rewrite (nth_lookup_Some _ _ _ _
             (lowerHex_lookup bytes i ltac:(rewrite Hlen; lia))).
  destruct (lowerCase_hexChar (nibble bytes i) (nibble_range bytes i Hbytes))
    as [H1 H2].
  destruct (8 <=? _); assumption.
Qed.

Lemma checksumCase_length bytes : length (checksumCase bytes) = 40%nat.
Proof. unfold checksumCase. cbv zeta. now rewrite length_map, length_seq. Qed.

Lemma string_of_list_length (l : list ascii) :
  String.length (string_of_list_ascii l) = length l.
Proof. induction l as [ | c l IH ]; [ reflexivity | ]. cbn. now rewrite IH. Qed.

(** Filling a buffer from the draws. *)
Lemma foldM_indexed_draws {V} (f : V -> nat -> Z -> V) (idxs : list nat) :
  forall (v : V) register bs register',
    byteDraws (length idxs) register = (Returned bs, register') ->
    foldM (fun v i => b <- int 0 255 ;; ret (f v i b)) idxs v register
    = (Returned (fold_left (fun v ib => f v (fst ib) (snd ib))
                           (combine idxs bs) v),
       register').
Proof.
  induction idxs as [ | i idxs IH ]; intros v register bs register' Hbs.
  - cbn [length byteDraws] in Hbs. unfold ret in Hbs.
    injection Hbs as <- <-. reflexivity.
  - cbn [length byteDraws] in Hbs.
    destruct (int_byte register) as (b & Hb & _).
    rewrite (bind_returned _ _ _ _ _ Hb) in Hbs.
    destruct (byteDraws_run (length idxs) (snd (next register)))
      as (bs' & Hbs' & _ & _).
    rewrite (bind_returned _ _ _ _ _ Hbs') in Hbs.
    unfold ret in Hbs. injection Hbs as <- <-.
    cbn [foldM combine fold_left fst snd].
    erewrite bind_returned
      by (rewrite (bind_returned _ _ _ _ _ Hb); reflexivity).
    now apply IH.
Qed.

Lemma fill_fold (bs : list Z) : forall (pre : list Z),
  fold_left (fun buf ib => u8set buf (fst ib) (snd ib))
            (combine (seq (length pre) (length bs)) bs)
            ((pre ++ replicate (length bs) 0)%list)
  = (pre ++ map (fun v => v mod 256) bs)%list.
Proof.
  induction bs as [ | b bs IH ]; intros pre; [ reflexivity | ].
  cbn [length seq combine fold_left fst snd replicate map].
  rewrite u8set_app_head.
  replace (S (length pre)) with (length (pre ++ [b mod 256])%list)
    by (rewrite length_app; cbn; lia).
  replace (pre ++ b mod 256 :: replicate (length bs) 0)%list
    with ((pre ++ [b mod 256]) ++ replicate (length bs) 0)%list
    by (now rewrite <- app_assoc).
  rewrite IH, <- app_assoc. reflexivity.
Qed.

Lemma fillBytes_draws (n : nat) register :
  exists bs,
    byteDraws n register = (Returned bs, registerAfter n register)
    /\ length bs = n
    /\ Forall isByte bs
    /\ fillBytes n register = (Returned bs, registerAfter n register).
Proof.
  destruct (byteDraws_run n register) as (bs & Hbs & Hlen & Hall).
  exists bs. repeat (split; [ assumption | ]).
  unfold fillBytes.
  assert (Hseq : length (seq 0 n) = n) by apply length_seq.
  rewrite <- Hseq in Hbs at 1.
  rewrite (foldM_indexed_draws (fun bytes i b => u8set bytes i b)
             _ _ _ _ _ Hbs).
  do 2 f_equal. rewrite <- Hlen.
  etransitivity; [ exact (fill_fold bs []) | ].
  cbn [app]. now apply map_mod_bytes.
Qed.

End AddressExtraProofs.

Module AddressExtras.
Import JS PRNG Keccak Address AddressModule Spec Props KeccakProofs
       AddressProofs EngineProofs EngineExtraProofs HexTextProofs
       AddressExtraProofs.
Local Open Scope string_scope.
Local Open Scope Z_scope.

(** X16.  The casing of [toChecksumAddress] changes nothing but the case
    of letters: for 20 bytes the result is "0x" and 40 characters which,
    put in lower case, are the hex dump of the bytes. *)
Theorem toChecksumAddress_case_only (bytes : list Z) :
  length bytes = 20%nat ->
  Forall isByte bytes ->
  exists t : list ascii,
    toChecksumAddress bytes = Returned ("0x" ++ string_of_list_ascii t)
    /\ length t = 40%nat
    /\ map lowerCase t = list_ascii_of_string (hexOfBytes bytes).
Proof.
  intros Hlen Hbytes. exists (checksumCase bytes).
  split; [ now apply toChecksumAddress_checksumCase | ].
  split; [ apply checksumCase_length | ].
  rewrite hexOfBytes_lowerHex by exact Hbytes.
  now apply checksumCase_lowerCase.
Qed.

Lemma toChecksumAddress_case_only_witness :
  length eip55Bytes = 20%nat
  /\ Forall isByte eip55Bytes
  /\ exists t : list ascii,
       toChecksumAddress eip55Bytes
       = Returned ("0x" ++ string_of_list_ascii t)
       /\ length t = 40%nat
       /\ map lowerCase t = list_ascii_of_string (hexOfBytes eip55Bytes).
Proof.
  assert (H1 : length eip55Bytes = 20%nat) by reflexivity.
  assert (H2 : Forall isByte eip55Bytes)
    by (unfold eip55Bytes, isByte; repeat (constructor; [ lia | ]);
        constructor).
  split; [ exact H1 | ]. split; [ exact H2 | ].
  exact (toChecksumAddress_case_only eip55Bytes H1 H2).
Defined.

(** X17.  [wallet] never throws.  It draws 20 bytes and returns "0x" and
    the 40 cased characters of those bytes, 42 characters in all; from the
    same register [hex (20)] returns the same bytes in lower case. *)
Theorem wallet_is_checksummed (register : Z) :
  exists (bs : list Z) (t : list ascii),
    wallet register
    = (Returned ("0x" ++ string_of_list_ascii t), registerAfter 20 register)
    /\ t = checksumCase bs
    /\ String.length ("0x" ++ string_of_list_ascii t) = 42%nat
    /\ hex 20 register
       = (Returned (string_of_list_ascii (map lowerCase t)),
          registerAfter 20 register).
Proof.
  destruct (fillBytes_draws 20 register) as (bs & Hbs & Hlen & Hall & Hfill).
  exists bs, (checksumCase bs).
  split.
  { unfold wallet. rewrite (bind_returned _ _ _ _ _ Hfill).
    unfold ofOutcome.
    now rewrite (toChecksumAddress_checksumCase bs Hlen Hall). }
  split; [ reflexivity | ].
  split.
  { rewrite !append_cons, append_nil. cbn [String.length].
    rewrite string_of_list_length.
    now rewrite checksumCase_length. }
  destruct (hex_bytes 20 register) as (bs' & Hbs' & _ & _ & Hhex & _).
  change (Z.to_nat 20) with 20%nat in Hbs', Hhex.
  rewrite Hbs in Hbs'. injection Hbs' as <-.
  rewrite Hhex, fold_hex2_hexOfBytes.
  rewrite (checksumCase_lowerCase bs Hlen Hall).
  rewrite <- (hexOfBytes_lowerHex bs Hall).
  now rewrite string_of_list_ascii_of_string.
Qed.

End AddressExtras.

(** ** Base 58 *)

Module Base58Proofs.
Import JS PRNG AddressModule Spec Props AddressProofs EngineExtraProofs.
Local Open Scope string_scope.
Local Open Scope Z_scope.

Lemma forall_below (k : nat) (P : nat -> bool) :
  forallb P (seq 0 k) = true -> forall d, (d < k)%nat -> P d = true.
Proof.
  intros H d Hd. rewrite forallb_forall in H. apply H, in_seq. lia.
Qed.

(** Every digit has a character; the character has the digit as its place,
    and is [1] only for the digit zero. *)
Lemma alphabet_digit (d : nat) :
  (d < 58)%nat ->
  exists c, String.get d ALPHABET = Some c
            /\ indexOf c ALPHABET = Some d
            /\ (c = "1"%char -> d = O).
Proof.
  intros Hd.
  pose (P := fun d : nat =>
               match String.get d ALPHABET with
               | Some c =>
                   match indexOf c ALPHABET with
                   | Some d' => Nat.eqb d' d
                   | None => false
                   end && (negb (Ascii.eqb c "1") || Nat.eqb d 0)
               | None => false
               end).
  assert (H : P d = true)
    by (apply (forall_below 58 P); [ vm_compute; reflexivity | exact Hd ]).
  unfold P in H.
  destruct (String.get d ALPHABET) as [ c | ]; [ | discriminate H ].
  exists c. split; [ reflexivity | ].
  apply andb_true_iff in H as [H1 H2].
  destruct (indexOf c ALPHABET) as [ d' | ]; [ | discriminate H1 ].
  apply Nat.eqb_eq in H1. subst d'. split; [ reflexivity | ].
  intros ->. cbn in H2. now apply Nat.eqb_eq in H2.
Qed.

Lemma valueFrom_app s : forall t n,
  base58ValueFrom (s ++ t) n
  = match base58ValueFrom s n with
    | Some m => base58ValueFrom t m
    | None => None
    end.
Proof.
  induction s as [ | c s IH ]; intros t n.
  - now rewrite append_nil.
  - rewrite append_cons. cbn [base58ValueFrom].
    destruct (indexOf c ALPHABET); [ apply IH | reflexivity ].
Qed.

Lemma length_append s : forall t,
  String.length (s ++ t) = (String.length s + String.length t)%nat.
Proof.
  induction s as [ | c s IH ]; intros t.
  - now rewrite append_nil.
  - rewrite append_cons. cbn [String.length]. now rewrite IH.
Qed.

(** The conversion loop: with enough turns it writes the digits of [num],
    most significant first and without a leading [1], before the text it
    was given. *)
Lemma base58Digits_spec fuel : forall num acc,
  0 <= num < 2 ^ Z.of_nat fuel ->
  exists ds : string,
    base58Digits fuel num acc = ds ++ acc
    /\ (forall n0,
          base58ValueFrom ds n0
          = Some (n0 * 58 ^ Z.of_nat (String.length ds) + num))
    /\ (num = 0 -> ds = "")
    /\ (0 < num -> exists c rest, ds = String c rest /\ c <> "1"%char)
    /\ num < 58 ^ Z.of_nat (String.length ds)
    /\ (0 < num -> 58 ^ Z.of_nat (String.length ds) <= 58 * num).
Proof.
  induction fuel as [ | fuel IH ]; intros num acc Hnum.
  - change (2 ^ Z.of_nat 0) with 1 in Hnum. assert (num = 0) as -> by lia.
    exists "". cbn [base58Digits String.length base58ValueFrom].
    rewrite append_nil. change (58 ^ Z.of_nat 0) with 1.
    repeat split; intros; try reflexivity; try (f_equal; lia); lia.
  - cbn [base58Digits]. destruct (Z.ltb_spec 0 num) as [Hpos | Hzero].
    + cbv zeta.
      rewrite Z.rem_mod_nonneg, Z.quot_div_nonneg by lia.
      pose proof (Z.mod_pos_bound num 58 ltac:(lia)) as Hr.
      pose proof (Z.div_mod num 58 ltac:(lia)) as Hdm.
      destruct (alphabet_digit (Z.to_nat (num mod 58)) ltac:(lia))
        as (c & Hget & Hidx & Hone).
      rewrite Hget.
      assert (Hq : 0 <= num / 58 < 2 ^ Z.of_nat fuel).
      { split; [ apply Z.div_pos; lia | ].
        apply Z.div_lt_upper_bound; [ lia | ].
        rewrite Nat2Z.inj_succ, Z.pow_succ_r in Hnum by lia.
        pose proof (Z.pow_pos_nonneg 2 (Z.of_nat fuel) ltac:(lia) ltac:(lia)).
        lia. }
      destruct (IH (num / 58) (String c acc) Hq)
        as (ds & Hrun & Hval & Hz & Hnz & Hup & Hlow).
      exists (ds ++ String c "").
      assert (Hlen : Z.of_nat (String.length (ds ++ String c ""))
                     = Z.of_nat (String.length ds) + 1)
        by (rewrite length_append; cbn [String.length]; lia).
      rewrite Hlen, Z.pow_add_r by lia. change (58 ^ 1) with 58.
      pose proof (Z.pow_pos_nonneg 58 (Z.of_nat (String.length ds))
                    ltac:(lia) ltac:(lia)) as Hpow.
      split.
      { rewrite Hrun, append_assoc, append_cons, append_nil.
        reflexivity. }
      split.
      { intros n0. rewrite valueFrom_app, Hval.
        cbn [base58ValueFrom]. rewrite Hidx. cbn [base58ValueFrom].
        f_equal. rewrite Z2Nat.id by lia. lia. }
      split; [ lia | ].
      split.
      { intros _. destruct (Z.eq_dec (num / 58) 0) as [Hq0 | Hq0].
        - rewrite (Hz Hq0), append_nil. exists c, "".
          split; [ reflexivity | ].
          intros Hc. specialize (Hone Hc). lia.
        - destruct (Hnz ltac:(lia)) as (c' & rest & -> & Hc').
          rewrite append_cons. now exists c', (rest ++ String c ""). }
      split; [ nia | ].
      intros _. destruct (Z.eq_dec (num / 58) 0) as [Hq0 | Hq0].
      * rewrite (Hz Hq0). cbn [String.length].
        change (58 ^ Z.of_nat 0) with 1. lia.
      * specialize (Hlow ltac:(lia)). nia.
    + assert (num = 0) as -> by lia.
      exists "". cbn [String.length base58ValueFrom].
      rewrite append_nil. change (58 ^ Z.of_nat 0) with 1.
      repeat split; intros; try reflexivity; try (f_equal; lia); lia.
Qed.

Lemma log2_fuel num :
  0 <= num -> 0 <= num < 2 ^ Z.of_nat (S (Z.to_nat (Z.log2 num))).
Proof.
  intros Hnum. split; [ exact Hnum | ].
  destruct (Z.eq_dec num 0) as [-> | Hnz].
  - apply Z.pow_pos_nonneg; lia.
  - pose proof (Z.log2_nonneg num).
    rewrite Nat2Z.inj_succ, Z2Nat.id by lia.
    apply Z.log2_spec. lia.
Qed.

Lemma ones_shift n : forall s, ones n ++ String "1" s = String "1" (ones n ++ s).
Proof.
  induction n as [ | n IH ]; intros s; cbn [ones].
  - now rewrite !append_nil.
  - rewrite !append_cons. now rewrite IH.
Qed.

Lemma leadingOnes_eq bytes : forall encoded,
  leadingOnes bytes encoded = ones (leadingZeros bytes) ++ encoded.
Proof.
  induction bytes as [ | b bytes IH ]; intros encoded;
    cbn [leadingOnes leadingZeros ones].
  - now rewrite append_nil.
  - destruct (b =? 0); cbn [ones].
    + rewrite IH, ones_shift, append_cons. reflexivity.
    + now rewrite append_nil.
Qed.

Lemma valueFrom_ones n : base58ValueFrom (ones n) 0 = Some 0.
Proof.
  induction n as [ | n IH ]; [ reflexivity | ].
  cbn [ones base58ValueFrom].
  change (indexOf "1" ALPHABET) with (Some O). exact IH.
Qed.

Lemma length_ones n : String.length (ones n) = n.
Proof. induction n as [ | n IH ]; [ reflexivity | ]. cbn. now rewrite IH. Qed.

Lemma bigEndian_nonneg bytes : Forall isByte bytes -> 0 <= bigEndian bytes.
Proof.
  intros H.
  pose proof (fold_bigEndian_range bytes 0 0 H ltac:(lia) ltac:(cbn; lia)).
  unfold bigEndian. lia.
Qed.

(** The encoder, in one equation. *)
Lemma base58Encode_eq bytes :
  Forall isByte bytes ->
  exists body : string,
    base58Encode bytes = ones (leadingZeros bytes) ++ body
    /\ (forall n0,
          base58ValueFrom body n0
          = Some (n0 * 58 ^ Z.of_nat (String.length body) + bigEndian bytes))
    /\ (bigEndian bytes = 0 -> body = "")
    /\ (0 < bigEndian bytes ->
        exists c rest, body = String c rest /\ c <> "1"%char)
    /\ bigEndian bytes < 58 ^ Z.of_nat (String.length body)
    /\ (0 < bigEndian bytes ->
        58 ^ Z.of_nat (String.length body) <= 58 * bigEndian bytes).
Proof.
  intros Hall. unfold base58Encode. cbv zeta.
  change (fold_left (fun num byte => num * 256 + byte) bytes 0)
    with (bigEndian bytes).
  destruct (base58Digits_spec _ _ "" (log2_fuel _ (bigEndian_nonneg _ Hall)))
    as (ds & Hrun & Hrest).
  exists ds. rewrite Hrun, append_empty_r, leadingOnes_eq.
  split; [ reflexivity | exact Hrest ].
Qed.

(** Byte sequences as numbers. *)
Lemma fold_bigEndian_shift bytes : forall n,
  fold_left (fun n b => n * 256 + b) bytes n
  = n * 256 ^ Z.of_nat (length bytes) + bigEndian bytes.
Proof.
  unfold bigEndian.
  induction bytes as [ | b bytes IH ]; intros n; cbn [fold_left length].
  - change (256 ^ Z.of_nat 0) with 1. lia.
  - rewrite IH, (IH (0 * 256 + b)).
    rewrite Nat2Z.inj_succ, Z.pow_succ_r by lia. lia.
Qed.

Lemma bigEndian_cons b bytes :
  bigEndian (b :: bytes) = b * 256 ^ Z.of_nat (length bytes) + bigEndian bytes.
Proof.
  unfold bigEndian at 1. cbn [fold_left].
  now rewrite fold_bigEndian_shift.
Qed.

Lemma bigEndian_range bytes :
  Forall isByte bytes -> 0 <= bigEndian bytes < 256 ^ Z.of_nat (length bytes).
Proof.
  intros H.
  exact (fold_bigEndian_range bytes 0 0 H ltac:(lia) ltac:(cbn; lia)).
Qed.

Lemma bigEndian_inj a : forall b,
  length a = length b -> Forall isByte a -> Forall isByte b ->
  bigEndian a = bigEndian b -> a = b.
Proof.
  induction a as [ | x a IH ]; intros [ | y b ] Hlen Ha Hb Heq;
    try discriminate Hlen; [ reflexivity | ].
  apply Forall_cons in Ha as [Hx Ha]. apply Forall_cons in Hb as [Hy Hb].
  injection Hlen as Hlen. rewrite !bigEndian_cons, Hlen in Heq.
  pose proof (bigEndian_range a Ha) as Hra. rewrite Hlen in Hra.
  pose proof (bigEndian_range b Hb) as Hrb.
  unfold isByte in Hx, Hy.
  assert (x = y) as -> by nia.
  f_equal. apply IH; try assumption. lia.
Qed.

(** A byte sequence is its leading zero bytes and a rest that does not
    begin with a zero byte. *)
Lemma split_zeros bytes :
  exists rest,
    bytes = (replicate (leadingZeros bytes) 0 ++ rest)%list
    /\ bigEndian bytes = bigEndian rest
    /\ (rest = [] \/ exists x tl, rest = x :: tl /\ x <> 0).
Proof.
  induction bytes as [ | b bytes (rest & Hsplit & Hval & Hrest) ].
  - exists []. repeat split. now left.
  - cbn [leadingZeros]. destruct (Z.eqb_spec b 0) as [-> | Hb].
    + exists rest. cbn [replicate app]. split; [ now rewrite <- Hsplit | ].
      split; [ | exact Hrest ].
      rewrite bigEndian_cons. lia.
    + exists (b :: bytes). repeat split. right. now exists b, bytes.
Qed.

Lemma headed_value x tl :
  Forall isByte (x :: tl) -> x <> 0 ->
  256 ^ Z.of_nat (length tl) <= bigEndian (x :: tl)
  < 256 ^ Z.of_nat (length (x :: tl)).
Proof.
  intros Hall Hx. split; [ | now apply bigEndian_range ].
  apply Forall_cons in Hall as [Hbx Htl]. unfold isByte in Hbx.
  rewrite bigEndian_cons. pose proof (bigEndian_range tl Htl).
  pose proof (Z.pow_pos_nonneg 256 (Z.of_nat (length tl))
                ltac:(lia) ltac:(lia)).
  nia.
Qed.

Lemma pow_lt_inv b (m n : nat) : 1 < b -> b ^ Z.of_nat m < b ^ Z.of_nat n -> (m < n)%nat.
Proof.
  intros Hb H. apply Nat2Z.inj_lt.
  apply (Z.pow_lt_mono_r_iff b); [ lia | lia | exact H ].
Qed.

(** Two rests with the same value are the same. *)
Lemma headed_inj a b :
  Forall isByte a -> Forall isByte b ->
  (a = [] \/ exists x tl, a = x :: tl /\ x <> 0) ->
  (b = [] \/ exists x tl, b = x :: tl /\ x <> 0) ->
  bigEndian a = bigEndian b -> a = b.
Proof.
  intros Ha Hb Hha Hhb Heq.
  assert (Hlen : length a = length b).
  { destruct Hha as [-> | (x & ta & -> & Hx)];
      destruct Hhb as [-> | (y & tb & -> & Hy)].
    - reflexivity.
    - pose proof (headed_value y tb Hb Hy) as H.
      pose proof (Z.pow_pos_nonneg 256 (Z.of_nat (length tb))
                    ltac:(lia) ltac:(lia)).
      change (bigEndian []) with 0 in Heq. lia.
    - pose proof (headed_value x ta Ha Hx) as H.
      pose proof (Z.pow_pos_nonneg 256 (Z.of_nat (length ta))
                    ltac:(lia) ltac:(lia)).
      change (bigEndian []) with 0 in Heq. lia.
    - pose proof (headed_value x ta Ha Hx) as H1.
      pose proof (headed_value y tb Hb Hy) as H2.
      rewrite Heq in H1.
      assert (length ta < length (y :: tb))%nat
        by (apply (pow_lt_inv 256); lia).
      assert (length tb < length (x :: ta))%nat
        by (apply (pow_lt_inv 256); lia).
      cbn [length] in *. lia. }
  now apply bigEndian_inj.
Qed.

Lemma ones_body_inj m : forall n s t,
  (s = "" \/ exists c rest, s = String c rest /\ c <> "1"%char) ->
  (t = "" \/ exists c rest, t = String c rest /\ c <> "1"%char) ->
  ones m ++ s = ones n ++ t -> m = n.
Proof.
  induction m as [ | m IH ]; intros [ | n ] s t Hs Ht Heq; cbn [ones] in Heq;
    rewrite ?append_nil, ?append_cons in Heq.
  - reflexivity.
  - destruct Hs as [-> | (c & rest & -> & Hc)]; [ discriminate Heq | ].
    injection Heq as Hc' _. contradiction.
  - destruct Ht as [-> | (c & rest & -> & Hc)]; [ discriminate Heq | ].
    injection Heq as Hc' _. now symmetry in Hc'.
  - injection Heq as Heq. f_equal. now apply (IH n s t).
Qed.

End Base58Proofs.

Module Base58LengthProofs.
Import JS PRNG AddressModule Spec Props AddressProofs EngineExtraProofs
       Base58Proofs.
Local Open Scope string_scope.
Local Open Scope Z_scope.

Lemma pow_256_58 (m : nat) :
  58 ^ Z.of_nat m <= 256 ^ Z.of_nat m <= 58 ^ Z.of_nat (2 * m).
Proof.
  split; [ apply Z.pow_le_mono_l; lia | ].
  rewrite Nat2Z.inj_mul, Z.pow_mul_r by lia.
  apply Z.pow_le_mono_l. change (58 ^ Z.of_nat 2) with 3364. lia.
Qed.

Lemma pow_256_58_solana (m : nat) :
  (m <= 32)%nat -> 256 ^ Z.of_nat m <= 58 ^ Z.of_nat (m + 12).
Proof.
  intros Hm. apply Z.leb_le.
  apply (forall_below 33
           (fun m => 256 ^ Z.of_nat m <=? 58 ^ Z.of_nat (m + 12)));
    [ vm_compute; reflexivity | lia ].
Qed.

Lemma encode_length bytes :
  Forall isByte bytes ->
  exists (rest : list Z) (body : string),
    length bytes = (leadingZeros bytes + length rest)%nat
    /\ String.length (base58Encode bytes)
       = (leadingZeros bytes + String.length body)%nat
    /\ (length rest <= String.length body <= 2 * length rest)%nat
    /\ ((length rest <= 32)%nat ->
        (String.length body <= length rest + 12)%nat).
Proof.
  intros Hall.
  destruct (split_zeros bytes) as (rest & Hsplit & Hval & Hrest).
  destruct (base58Encode_eq bytes Hall)
    as (body & Henc & _ & Hzero & _ & Hup & Hlow).
  exists rest, body.
  assert (Hr : Forall isByte rest).
  { rewrite Hsplit in Hall. now apply Forall_app in Hall as [_ Hall]. }
  split.
  { rewrite Hsplit at 1. now rewrite length_app, length_replicate. }
  split.
  { now rewrite Henc, length_append, length_ones. }
  rewrite Hval in Hzero, Hup, Hlow.
  destruct Hrest as [-> | (x & tl & -> & Hx)].
  - rewrite (Hzero eq_refl). cbn [length String.length]. lia.
  - pose proof (headed_value x tl Hr Hx) as [Hv1 Hv2].
    pose proof (Z.pow_pos_nonneg 256 (Z.of_nat (length tl))
                  ltac:(lia) ltac:(lia)) as Hpos.
    specialize (Hlow ltac:(lia)).
    pose proof (pow_256_58 (length tl)) as [Hp1 _].
    pose proof (pow_256_58 (length (x :: tl))) as [_ Hp2].
    assert (H1 : (length tl < String.length body)%nat)
      by (apply (pow_lt_inv 58); lia).
    assert (H2 : (String.length body < S (2 * length (x :: tl)))%nat).
    { apply (pow_lt_inv 58); [ lia | ].
      rewrite (Nat2Z.inj_succ (2 * _)), Z.pow_succ_r by lia. lia. }
    split; [ cbn [length] in *; lia | ].
    intros H32. pose proof (pow_256_58_solana _ H32) as Hp3.
    assert (H3 : (String.length body < S (length (x :: tl) + 12))%nat).
    { apply (pow_lt_inv 58); [ lia | ].
      rewrite (Nat2Z.inj_succ (_ + 12)), Z.pow_succ_r by lia. lia. }
    lia.
Qed.

End Base58LengthProofs.

Module Base58Extras.
Import JS PRNG Address AddressModule Spec Props AddressProofs EngineProofs
       EngineExtraProofs HexTextProofs AddressExtraProofs Base58Proofs
       Base58LengthProofs.
Local Open Scope string_scope.
Local Open Scope Z_scope.

(** X18.  [base58Encode] writes one [1] for each leading zero byte, and
    after them the digits, without a leading [1], of the number the bytes
    denote.  Read back in base 58 with the same alphabet, the text denotes
    that number. *)
Theorem base58Encode_denotes (bytes : list Z) :
  Forall isByte bytes ->
  base58Value (base58Encode bytes) = Some (bigEndian bytes)
  /\ exists body : string,
       base58Encode bytes = ones (leadingZeros bytes) ++ body
       /\ (body = "" \/ exists c rest, body = String c rest /\ c <> "1"%char).
Proof.
  intros Hall.
  destruct (base58Encode_eq bytes Hall)
    as (body & Henc & Hval & Hzero & Hnz & _).
  split.
  - unfold base58Value.
    rewrite Henc, valueFrom_app, valueFrom_ones, Hval, Z.mul_0_l.
    reflexivity.
  - exists body. split; [ exact Henc | ].
    pose proof (bigEndian_nonneg bytes Hall).
    destruct (Z.eq_dec (bigEndian bytes) 0) as [H0 | H0];
      [ left; now apply Hzero | right; apply Hnz; lia ].
Qed.

Lemma base58Encode_denotes_witness :
  Forall isByte sampleBytes
  /\ base58Value (base58Encode sampleBytes) = Some (bigEndian sampleBytes)
  /\ exists body : string,
       base58Encode sampleBytes = ones (leadingZeros sampleBytes) ++ body
       /\ (body = "" \/ exists c rest, body = String c rest /\ c <> "1"%char).
Proof.
  assert (H : Forall isByte sampleBytes)
    by (unfold sampleBytes, isByte; repeat (constructor; [ lia | ]);
        constructor).
  split; [ exact H | ].
  exact (base58Encode_denotes sampleBytes H).
Defined.

(** X19.  [base58Encode] is injective on byte sequences: two sequences,
    of any lengths, with the same text are the same. *)
Theorem base58Encode_injective (a b : list Z) :
  Forall isByte a -> Forall isByte b ->
  base58Encode a = base58Encode b -> a = b.
Proof.
  intros Ha Hb Heq.
  destruct (base58Encode_eq a Ha) as (sa & Hea & Hva & Hza & Hna & _).
  destruct (base58Encode_eq b Hb) as (sb & Heb & Hvb & Hzb & Hnb & _).
  pose proof (bigEndian_nonneg a Ha) as Hnna.
  pose proof (bigEndian_nonneg b Hb) as Hnnb.
  assert (Hsa : sa = "" \/ exists c rest, sa = String c rest /\ c <> "1"%char).
  { destruct (Z.eq_dec (bigEndian a) 0);
      [ left; auto | right; apply Hna; lia ]. }
  assert (Hsb : sb = "" \/ exists c rest, sb = String c rest /\ c <> "1"%char).
  { destruct (Z.eq_dec (bigEndian b) 0);
      [ left; auto | right; apply Hnb; lia ]. }
  assert (Hz : leadingZeros a = leadingZeros b).
  { apply (ones_body_inj _ _ sa sb Hsa Hsb). now rewrite <- Hea, <- Heb. }
  assert (Hv : bigEndian a = bigEndian b).
  { assert (H : base58Value (base58Encode a) = base58Value (base58Encode b))
      by now rewrite Heq.
    unfold base58Value in H.
    rewrite Hea, Heb, !valueFrom_app, !valueFrom_ones, Hva, Hvb in H.
    injection H as H. lia. }
  destruct (split_zeros a) as (ra & Hsplita & Hvala & Hra).
  destruct (split_zeros b) as (rb & Hsplitb & Hvalb & Hrb).
  rewrite Hsplita, Hsplitb, Hz. f_equal.
  apply headed_inj; try assumption.
  - rewrite Hsplita in Ha. now apply Forall_app in Ha as [_ Ha].
  - rewrite Hsplitb in Hb. now apply Forall_app in Hb as [_ Hb].
  - congruence.
Qed.

Lemma base58Encode_injective_witness :
  Forall isByte [0; 1]
  /\ base58Encode [0; 1] = base58Encode [0; 1]
  /\ [0; 1] = [0; 1].
Proof.
  assert (H : Forall isByte [0; 1])
    by (unfold isByte; repeat (constructor; [ lia | ]); constructor).
  split; [ exact H | ]. split; [ reflexivity | ].
  exact (base58Encode_injective [0; 1] [0; 1] H H eq_refl).
Defined.

(** X20.  The text [base58Encode] returns has at least as many characters
    as there are bytes and at most twice as many; for at most 32 bytes it
    has at most 12 more. *)
Theorem base58Encode_length (bytes : list Z) :
  Forall isByte bytes ->
  (length bytes <= String.length (base58Encode bytes) <= 2 * length bytes)%nat
  /\ ((length bytes <= 32)%nat ->
      (String.length (base58Encode bytes) <= length bytes + 12)%nat).
Proof.
  intros Hall.
  destruct (encode_length bytes Hall) as (rest & body & H1 & H2 & H3 & H4).
  rewrite H1, H2. split; [ lia | ]. intros H. specialize (H4 ltac:(lia)). lia.
Qed.

Lemma base58Encode_length_witness :
  Forall isByte sampleBytes
  /\ (length sampleBytes <= String.length (base58Encode sampleBytes)
      <= 2 * length sampleBytes)%nat
  /\ ((length sampleBytes <= 32)%nat ->
      (String.length (base58Encode sampleBytes)
       <= length sampleBytes + 12)%nat).
Proof.
  assert (H : Forall isByte sampleBytes)
    by (unfold sampleBytes, isByte; repeat (constructor; [ lia | ]);
        constructor).
  split; [ exact H | ].
  exact (base58Encode_length sampleBytes H).
Defined.

(** X21.  [solana] never throws.  It draws 32 bytes and returns their
    base-58 text, of 32 to 44 characters; from the same register the text
    denotes the number [bigint (32)] returns. *)
Theorem solana_address (register : Z) :
  exists (bs : list Z) (s : string),
    byteDraws 32 register = (Returned bs, registerAfter 32 register)
    /\ solana register = (Returned s, registerAfter 32 register)
    /\ s = base58Encode bs
    /\ (32 <= String.length s <= 44)%nat
    /\ exists v, bigint 32 register = (Returned v, registerAfter 32 register)
                 /\ base58Value s = Some v.
Proof.
  destruct (fillBytes_draws 32 register) as (bs & Hbs & Hlen & Hall & Hfill).
  exists bs, (base58Encode bs).
  split; [ exact Hbs | ].
  split.
  { unfold solana. now rewrite (bind_returned _ _ _ _ _ Hfill). }
  split; [ reflexivity | ].
  split.
  { destruct (encode_length bs Hall) as (rest & body & H1 & H2 & H3 & H4).
    rewrite H2. rewrite Hlen in H1. specialize (H4 ltac:(lia)). lia. }
  destruct (hex_bytes 32 register) as (bs' & Hbs' & _ & _ & _ & Hbig).
  change (Z.to_nat 32) with 32%nat in Hbs', Hbig.
  rewrite Hbs in Hbs'. injection Hbs' as <-.
  exists (bigEndian bs).
  split; [ rewrite Hbig, fold_lor_bigEndian by exact Hall; reflexivity | ].
  destruct (base58Encode_eq bs Hall) as (body & Henc & Hval & _).
  unfold base58Value.
  rewrite Henc, valueFrom_app, valueFrom_ones, Hval, Z.mul_0_l.
    reflexivity.
Qed.

(** X22.  [zero] and [dead] return well-formed addresses: on a Solana
    chain the base-58 text of 32 bytes, without a draw; otherwise the
    cased address of 20 bytes, [dead] after one draw. *)
Theorem fixed_addresses_well_formed (isSolana : bool) (register : Z) :
  exists (bz bd : list Z) (d : string),
    dead isSolana register
    = (Returned d, if isSolana then register else snd (next register))
    /\ Forall isByte bz /\ Forall isByte bd
    /\ if isSolana
       then length bz = 32%nat /\ length bd = 32%nat
            /\ base58Encode bz = zero true
            /\ base58Encode bd = d
       else length bz = 20%nat /\ length bd = 20%nat
            /\ toChecksumAddress bz = Returned (zero false)
            /\ toChecksumAddress bd = Returned d.
Proof.
  assert (Hz : forall n, Forall isByte (replicate n 0))
    by (intros n; apply Forall_replicate; unfold isByte; lia).
  assert (Hb : Forall isByte burnBytes)
    by (apply Forall_app; split;
        [ apply Hz
        | unfold isByte; repeat (constructor; [ lia | ]); constructor ]).
  assert (Hzero : toChecksumAddress (replicate 20 0) = Returned (zero false))
    by (vm_compute; reflexivity).
  destruct isSolana.
  - exists (replicate 32 0), incineratorBytes, 
           "1nc1nerator11111111111111111111111111111111".
    split; [ reflexivity | ].
    split; [ apply Hz | ].
    split.
    { unfold incineratorBytes, isByte.
      repeat (apply Forall_cons_2; [ lia | ]). constructor. }
    repeat split; vm_compute; reflexivity.
  - destruct (chance_eq (1 # 2) register) as (x & _ & _ & Hc).
    assert (Hdead : toChecksumAddress burnBytes
                    = Returned "0x000000000000000000000000000000000000dEaD")
      by (vm_compute; reflexivity).
    unfold dead. rewrite (bind_returned _ _ _ _ _ Hc).
    destruct (negb (Qle_bool (1 # 2) x)).
    + exists (replicate 20 0), burnBytes,
             "0x000000000000000000000000000000000000dEaD".
      split; [ reflexivity | ].
      split; [ apply Hz | ]. split; [ exact Hb | ].
      repeat split; assumption.
    + exists (replicate 20 0), (replicate 20 0),
             "0x0000000000000000000000000000000000000000".
      split; [ reflexivity | ].
      split; [ apply Hz | ]. split; [ apply Hz | ].
      repeat split; assumption.
Qed.

End Base58Extras.

(** ** Candles *)

Module DexExtraProofs.
Import JS PRNG Dex Spec Props EngineProofs EngineExtraProofs NumberProofs
       DexProofs.
Local Open Scope Q_scope.

(** A number that is NaN or at least the price floor. *)
Lemma floor_toFixed p :
  p = NaN \/ leq (Fin (1 # 10000)) p ->
  toFixed 8 p = NaN \/ leq (Fin (1 # 10000)) (toFixed 8 p).
Proof.
  intros [-> | Hp]; [ now left | right ].
  apply leq_trans with (toFixed 8 (Fin (1 # 10000))).
  - vm_compute. reflexivity.
  - now apply toFixed_leq.
Qed.

Lemma mathMax_floor a b :
  b <> NaN -> mathMax a b = NaN \/ leq b (mathMax a b).
Proof.
  intros Hb. destruct a as [ x | | s | ]; [ right | right | right | now left ];
    now apply mathMax_upper.
Qed.

(** Every sub-step price is NaN or at least the floor. *)
Lemma tickPrice_floor Math drift volatility ticks current register :
  exists p r,
    tickPrice Math drift volatility ticks current register = (Returned p, r)
    /\ (p = NaN \/ leq (Fin (1 # 10000)) p).
Proof.
  destruct (gaussian_returns Math (Fin 0) (Fin 1) register) as [g Hg].
  eexists _, _. split.
  - unfold tickPrice. rewrite (bind_returned _ _ _ _ _ Hg). reflexivity.
  - apply mathMax_floor. discriminate.
Qed.

Lemma tickPrices_floor Math drift volatility ticks (n : nat) :
  forall current register ps r,
    tickPrices Math drift volatility ticks n current register
    = (Returned ps, r) ->
    Forall (fun p => p = NaN \/ leq (Fin (1 # 10000)) p) ps.
Proof.
  induction n as [ | n IH ]; intros current register ps r Hrun.
  - cbn [tickPrices] in Hrun. unfold ret in Hrun. injection Hrun as <- _.
    constructor.
  - cbn [tickPrices] in Hrun.
    destruct (tickPrice_floor Math drift volatility ticks current register)
      as (p & r1 & Hp & Hfloor).
    rewrite (bind_returned _ _ _ _ _ Hp) in Hrun.
    destruct (repeat_tickStep Math drift volatility ticks n p p p r1)
      as (ps' & r2 & Hps' & _ & _).
    rewrite (bind_returned _ _ _ _ _ Hps') in Hrun.
    unfold ret in Hrun. injection Hrun as <- _.
    apply Forall_cons_2; [ exact Hfloor | ].
    exact (IH _ _ _ _ Hps').
Qed.

Lemma last_Forall {A} (P : A -> Prop) (ps : list A) (d : A) :
  ps <> [] -> Forall P ps -> P (List.last ps d).
Proof.
  intros Hne Hall. destruct ps as [ | p ps ]; [ contradiction | ].
  apply Forall_cons in Hall as [Hp Hps].
  rewrite last_cons.
  destruct (last_In p ps) as [<- | Hin]; [ exact Hp | ].
  rewrite Forall_forall in Hps. apply Hps.
  now apply list_elem_of_In.
Qed.

(** A NaN among the prices makes the running maximum NaN. *)
Lemma fold_mathMax_In_NaN ps : forall a,
  In NaN (a :: ps) -> fold_left mathMax ps a = NaN.
Proof.
  induction ps as [ | p ps IH ]; intros a Hin.
  - destruct Hin as [-> | []]. reflexivity.
  - cbn [fold_left]. apply IH.
    destruct Hin as [-> | [-> | Hin]].
    + left. now apply mathMax_NaN; left.
    + left. now apply mathMax_NaN; right.
    + now right.
Qed.

Lemma running_max_floor ps a :
  ps <> [] ->
  Forall (fun p => p = NaN \/ leq (Fin (1 # 10000)) p) ps ->
  fold_left mathMax ps a = NaN
  \/ leq (Fin (1 # 10000)) (fold_left mathMax ps a).
Proof.
  intros Hne Hall.
  destruct (NaN_dec (a :: ps)) as [Hnan | Hnan];
    [ left; now apply fold_mathMax_In_NaN | right ].
  destruct (running_max ps a Hnan) as (_ & _ & Hmax).
  destruct ps as [ | p ps ]; [ contradiction | ].
  apply Forall_cons in Hall as [[-> | Hp] _];
    [ exfalso; apply Hnan; right; now left | ].
  apply Forall_cons in Hmax as [Hpm _].
  eapply leq_trans; eassumption.
Qed.

(** One turn of the outer loop: where the candle stands, opens and
    closes. *)
Lemma candleStep_chain Math drift volatility startTime intervalSec
      price cs (i : Z) register :
  exists p1 c r1,
    candleStep Math drift volatility startTime intervalSec (price, cs) i
               register
    = (Returned (p1, cs ++ [c]), r1)
    /\ timestamp c = (startTime + i * intervalSec)%Z
    /\ open c = toFixed 8 price
    /\ close c = toFixed 8 p1
    /\ (close c = NaN \/ leq (Fin (1 # 10000)) (close c))
    /\ (high c = NaN \/ leq (Fin (1 # 10000)) (high c)).
Proof.
  destruct (candleStep_spec Math drift volatility startTime intervalSec
              price cs i register)
    as (ticks & ps & c & r1 & r2 & r3 & _ & Hticks & Hps & Hlen & Hstep
        & Hts & Ho & Hc & Hh & _).
  pose proof (tickPrices_floor _ _ _ _ _ _ _ _ _ Hps) as Hfloor.
  assert (Hne : ps <> []) by (intros ->; cbn [length] in Hlen; lia).
  exists (List.last ps price), c, r3.
  repeat (split; [ assumption | ]).
  split.
  - rewrite Hc. apply floor_toFixed. now apply last_Forall.
  - rewrite Hh. apply floor_toFixed. now apply running_max_floor.
Qed.

Lemma foldM_candleStep_chain Math drift volatility startTime intervalSec
      (idxs : list Z) :
  forall price cs register,
    exists price' new closes register',
      foldM (candleStep Math drift volatility startTime intervalSec) idxs
            (price, cs) register
      = (Returned (price', cs ++ new), register')
      /\ length closes = length idxs
      /\ map timestamp new
         = map (fun i => (startTime + i * intervalSec)%Z) idxs
      /\ map close new = map (toFixed 8) closes
      /\ map open new
         = map (toFixed 8) (take (length closes) (price :: closes))
      /\ Forall (fun c => (close c = NaN \/ leq (Fin (1 # 10000)) (close c))
                          /\ (high c = NaN
                              \/ leq (Fin (1 # 10000)) (high c))) new.
Proof.
  induction idxs as [ | i idxs IH ]; intros price cs register.
  - exists price, [], [], register. rewrite app_nil_r.
    repeat split. constructor.
  - destruct (candleStep_chain Math drift volatility startTime intervalSec
                price cs i register)
      as (p1 & c & r1 & Hstep & Hts & Ho & Hc & Hfc & Hfh).
    destruct (IH p1 (cs ++ [c]) r1)
      as (price' & new & closes & r' & Hrun & Hlen & Htss & Hcs & Hos & Hfl).
    exists price', (c :: new), (p1 :: closes), r'.
    split.
    { cbn [foldM]. rewrite (bind_returned _ _ _ _ _ Hstep), Hrun.
      now rewrite <- app_assoc. }
    split; [ cbn [length]; now rewrite Hlen | ].
    split; [ cbn [map]; now rewrite Hts, Htss | ].
    split; [ cbn [map]; now rewrite Hc, Hcs | ].
    split; [ | apply Forall_cons_2; [ now split | exact Hfl ] ].
    rewrite length_cons. cbn [take map]. now rewrite Ho, Hos.
Qed.

(** A run of [candles], with the closing prices before rounding. *)
Lemma candles_chain_run Math nowMs count opts register :
  exists start r1 cs closes register',
    orDraw opts startPrice (float Math (Fin (1 # 2)) (Fin 5000)) register
    = (Returned start, r1)
    /\ candles Math nowMs count opts register = (Returned cs, register')
    /\ length closes = Z.to_nat count
    /\ map timestamp cs
       = map (fun i =>
                (nowMs / 1000
                 - count * intervals (default I1h (opts ≫= interval))
                 + i * intervals (default I1h (opts ≫= interval)))%Z)
             (map Z.of_nat (seq 0 (Z.to_nat count)))
    /\ map close cs = map (toFixed 8) closes
    /\ map open cs
       = map (toFixed 8) (take (length closes) (start :: closes))
    /\ Forall (fun c => (close c = NaN \/ leq (Fin (1 # 10000)) (close c))
                        /\ (high c = NaN
                            \/ leq (Fin (1 # 10000)) (high c))) cs.
Proof.
  destruct (orDraw_returns Math opts startPrice (Fin (1 # 2)) (Fin 5000)
              register)
    as (sp & r1 & Hsp).
  destruct (orDraw_returns Math opts Dex.volatility (Fin (1 # 100))
              (Fin (8 # 100)) r1)
    as (vol & r2 & Hvol).
  destruct (orDraw_returns Math opts Dex.drift (Fin (- (1 # 1000)))
              (Fin (1 # 1000)) r2)
    as (dr & r3 & Hdr).
  destruct (foldM_candleStep_chain Math dr vol
              (nowMs / 1000
               - count * intervals (default I1h (opts ≫= interval)))%Z
              (intervals (default I1h (opts ≫= interval)))
              (map Z.of_nat (seq 0 (Z.to_nat count))) sp [] r3)
    as (price' & cs & closes & r' & Hrun & Hlen & Hts & Hcs & Hos & Hfl).
  rewrite app_nil_l in Hrun.
  exists sp, r1, cs, closes, r'.
  split; [ exact Hsp | ].
  split.
  { unfold candles.
    rewrite (bind_returned _ _ _ _ _ Hsp).
    rewrite (bind_returned _ _ _ _ _ Hvol).
    rewrite (bind_returned _ _ _ _ _ Hdr). cbv zeta.
    rewrite (bind_returned _ _ _ _ _ Hrun). reflexivity. }
  split; [ now rewrite Hlen, length_map, length_seq | ].
  repeat (split; [ assumption | ]). exact Hfl.
Qed.

End DexExtraProofs.

Module DexExtras.
Import JS PRNG Dex Spec Props EngineProofs EngineExtraProofs DexProofs
       DexExtraProofs.
Local Open Scope Q_scope.

(** X23.  [candles] never throws and returns [count] candles, none for a
    negative [count].  They are one interval apart and end one interval
    before the current second: candle [i] is stamped
    [now - (count - i) * intervalSec], whatever the engine draws. *)
Theorem candles_timeline (Math : MathLib) (nowMs count : Z)
        (opts : option CandleOpts) (register : Z) :
  exists cs register',
    candles Math nowMs count opts register = (Returned cs, register')
    /\ map timestamp cs
       = map (fun i : nat =>
                (nowMs / 1000
                 - (count - Z.of_nat i)
                   * intervals (default I1h (opts ≫= interval)))%Z)
             (seq 0 (Z.to_nat count)).
Proof.
  destruct (candles_chain_run Math nowMs count opts register)
    as (start & r1 & cs & closes & r' & _ & Hrun & _ & Hts & _).
  exists cs, r'. split; [ exact Hrun | ].
  rewrite Hts, map_map. apply map_ext. intros i. lia.
Qed.

(** X24.  The candles of one call form one price path: the first opens at
    the start price, given or drawn, and each later one at the close of
    the one before, all rounded to eight decimals. *)
Theorem candles_open_at_previous_close (Math : MathLib) (nowMs count : Z)
        (opts : option CandleOpts) (register : Z) :
  exists start r1 cs register',
    orDraw opts startPrice (float Math (Fin (1 # 2)) (Fin 5000)) register
    = (Returned start, r1)
    /\ candles Math nowMs count opts register = (Returned cs, register')
    /\ map open cs = take (length cs) (toFixed 8 start :: map close cs).
Proof.
  destruct (candles_chain_run Math nowMs count opts register)
    as (start & r1 & cs & closes & r' & Hstart & Hrun & _ & _ & Hcs & Hos & _).
  exists start, r1, cs, r'.
  split; [ exact Hstart | ]. split; [ exact Hrun | ].
  assert (Hlen : length cs = length closes).
  { rewrite <- (length_map close cs), Hcs. apply length_map. }
  rewrite Hos, Hcs, Hlen.
  change (toFixed 8 start :: map (toFixed 8) closes)
    with (map (toFixed 8) (start :: closes)).
  apply (fmap_take (toFixed 8)).
Qed.

(** X25.  The price floor holds wherever a price is a number: the [close]
    of every candle is NaN or at least 0.0001, and so is its [high],
    whatever the start price, the drift and the volatility. *)
Theorem candles_close_above_floor (Math : MathLib) (nowMs count : Z)
        (opts : option CandleOpts) (register : Z) :
  exists cs register',
    candles Math nowMs count opts register = (Returned cs, register')
    /\ Forall (fun c => (close c = NaN \/ leq (Fin (1 # 10000)) (close c))
                        /\ (high c = NaN
                            \/ leq (Fin (1 # 10000)) (high c))) cs.
Proof.
  destruct (candles_chain_run Math nowMs count opts register)
    as (start & r1 & cs & closes & r' & _ & Hrun & _ & _ & _ & _ & Hfl).
  exists cs, r'. split; [ exact Hrun | exact Hfl ].
Qed.

End DexExtras.
